(** * CLox: the scanner (src/scanner.c) and the virtual machine (src/vm.c)

    A shallow embedding of the two C translation units and the properties
    of them that the specification states.

    Layout: the definitions of both units first ([ScannerC], [VmC]), then
    the lemmas about each ([ScannerSpec], [VmSpec]), then further
    properties of both ([ScannerMore], [VmMore]). *)

From Stdlib Require Import List ZArith Lia Bool Ascii String Strings.Byte.
From Stdlib Require Import Floats.
From Stdlib Require Import Sorted.
Import ListNotations.

(* ================================================================== *)
(** * Part I: definitions *)
(* ================================================================== *)

(** ** src/scanner.c *)

Module ScannerC.

Local Open Scope char_scope.

(** The characters the scanner names. *)
Definition NUL : ascii := "000".
Definition TAB : ascii := "009".
Definition LF : ascii := "010".
Definition CR : ascii := "013".
Definition DQUOTE : ascii := "034".

(** Modelled from the spec: [enum TokenType] is declared in
    include/scanner.h, which is not among the sources.  These are the token
    kinds of the specification under the enumerator names scanner.c uses. *)
Inductive TokenType : Set :=
| TOKEN_LEFT_PAREN | TOKEN_RIGHT_PAREN | TOKEN_LEFT_BRACE | TOKEN_RIGHT_BRACE
| TOKEN_SEMICOLON | TOKEN_COMMA | TOKEN_DOT | TOKEN_MINUS | TOKEN_PLUS
| TOKEN_SLASH | TOKEN_ASTERISK
| TOKEN_BANG_EQUAL | TOKEN_BANG | TOKEN_EQUAL_EQUAL | TOKEN_EQUAL
| TOKEN_LESS_EQUAL | TOKEN_LESS | TOKEN_GREATER_EQUAL | TOKEN_GREATER
| TOKEN_IDENTIFIER | TOKEN_STRING | TOKEN_NUMBER
| TOKEN_AND | TOKEN_CLASS | TOKEN_ELSE | TOKEN_FALSE | TOKEN_FOR | TOKEN_FUN
| TOKEN_IF | TOKEN_NIL | TOKEN_OR | TOKEN_PRINT | TOKEN_RETURN | TOKEN_SUPER
| TOKEN_THIS | TOKEN_TRUE | TOKEN_VAR | TOKEN_WHILE
| TOKEN_ERROR | TOKEN_EOF.

(** [int], as the compiled scanner has it: 32 bits, two's complement.
    [toInt] is the value an [int] holds after an arithmetic result or a
    wider value is put into it: the result reduced modulo 2^32 into
    [INT_MIN .. INT_MAX].  It is the cast of [makeToken] and [errorToken],
    and it is what [scanner.line++] leaves when the counter stands at
    [INT_MAX] (the C standard leaves that increment undefined; the compiled
    code wraps around). *)
Definition INT_MAX : Z := 2147483647.
Definition INT_MIN : Z := -2147483648.
Definition toInt (z : Z) : Z := ((z - INT_MIN) mod 4294967296 + INT_MIN)%Z.

(** A [const char*] held by a token: an offset into the source buffer, or
    the address of a string literal of scanner.c (error tokens). *)
Inductive CharPtr : Set :=
| InSource (offset : nat)
| Literal (text : string).

(** Modelled from the spec: [Token] is declared in include/scanner.h too;
    it has the four fields the specification lists and scanner.c assigns.
    [length] and [tline] are [int]s. *)
Record Token : Set := mkToken {
  type : TokenType;
  tstart : CharPtr;
  length : Z;
  tline : Z
}.

(** [Scanner]: the source buffer with the two pointers into it as offsets.
    The buffer is the list of the characters before the terminating null
    byte; reading at or past its end yields the null byte, and a null byte
    inside the list ends the text as it would in C.  [line] is an [int]. *)
Record Scanner : Set := mkScanner {
  source : list ascii;
  start : nat;
  current : nat;
  line : Z
}.

Definition charAt (s : Scanner) (i : nat) : ascii := nth i (source s) NUL.

Definition setStart (s : Scanner) (p : nat) : Scanner :=
  mkScanner (source s) p (current s) (line s).
Definition setCurrent (s : Scanner) (p : nat) : Scanner :=
  mkScanner (source s) (start s) p (line s).
(** [scanner.line++] *)
Definition incLine (s : Scanner) : Scanner :=
  mkScanner (source s) (start s) (current s) (toInt (line s + 1)).

Definition initScanner (src : list ascii) : Scanner :=
  mkScanner src 0 0 1.

(** Character comparisons are on the character codes; every bound below is
    under 128, so the signedness of [char] plays no part. *)
Definition inRange (lo hi c : ascii) : bool :=
  ((N_of_ascii lo <=? N_of_ascii c) && (N_of_ascii c <=? N_of_ascii hi))%N.

Definition isAlpha (c : ascii) : bool :=
  inRange "a" "z" c || inRange "A" "Z" c || (c =? "_").

Definition isDigit (c : ascii) : bool := inRange "0" "9" c.

Definition isAtEnd (s : Scanner) : bool := charAt s (current s) =? NUL.

(** [scanner.current++; return scanner.current[-1];] *)
Definition advance (s : Scanner) : ascii * Scanner :=
  let s' := setCurrent s (S (current s)) in
  (charAt s' (current s' - 1), s').

(** [advance()] as a statement: the returned character is dropped. *)
Definition advance_ (s : Scanner) : Scanner := snd (advance s).

Definition peek (s : Scanner) : ascii := charAt s (current s).

Definition peekNext (s : Scanner) : ascii :=
  if isAtEnd s then NUL else charAt s (current s + 1).

Definition match_ (expected : ascii) (s : Scanner) : bool * Scanner :=
  if isAtEnd s then (false, s)
  else if negb (charAt s (current s) =? expected) then (false, s)
  else (true, setCurrent s (S (current s))).

(** [token.length = (int) (scanner.current - scanner.start)] *)
Definition makeToken (s : Scanner) (ty : TokenType) : Token :=
  mkToken ty (InSource (start s))
          (toInt (Z.of_nat (current s) - Z.of_nat (start s)))
          (line s).

(** [token.length = (int) strlen(message)] *)
Definition errorToken (s : Scanner) (message : string) : Token :=
  mkToken TOKEN_ERROR (Literal message)
          (toInt (Z.of_nat (String.length message)))
          (line s).

(** *** Loops

    The C loops are bounded here by a fuel argument; [None] means the fuel
    ran out.  [loopFuel] is what the callers pass: one more than the number
    of characters left in the buffer ([scanToken_total] in [ScannerSpec]
    shows no loop ever exhausts it). *)
Definition loopFuel (s : Scanner) : nat :=
  S (List.length (source s) - current s).

Definition bind {A B : Type} (m : option A) (k : A -> option B) : option B :=
  match m with
  | Some a => k a
  | None => None
  end.

Local Notation "x <- m ;; k" := (bind m (fun x => k))
  (at level 61, m at next level, right associativity).

(** [while (cond) body] *)
Fixpoint while (cond : Scanner -> bool) (body : Scanner -> Scanner)
         (fuel : nat) (s : Scanner) : option Scanner :=
  if cond s then
    match fuel with
    | O => None
    | S fuel' => while cond body fuel' (body s)
    end
  else Some s.

(** The loop over the inside of a block comment (scanner.c, 142-152):
    [while (!isAtEnd()) { if (peek() == '\n') scanner.line++;
       if (peek() == '*' && peekNext() == '/') { advance(); advance(); break; }
       advance(); }] *)
Fixpoint blockCommentLoop (fuel : nat) (s : Scanner) : option Scanner :=
  if negb (isAtEnd s) then
    match fuel with
    | O => None
    | S fuel' =>
        let s1 := if peek s =? LF then incLine s else s in
        if (peek s1 =? "*") && (peekNext s1 =? "/") then
          Some (advance_ (advance_ s1))
        else blockCommentLoop fuel' (advance_ s1)
    end
  else Some s.

(** [skipWhitespace]: the [for (;;)] with its [switch (c)].  The second test
    of the ['/'] case reads [peek()], as the source does. *)
Fixpoint skipWhitespaceLoop (fuel : nat) (s : Scanner) : option Scanner :=
  match fuel with
  | O => None
  | S fuel' =>
      let c := peek s in
      if (c =? " ") || (c =? CR) || (c =? TAB) then
        skipWhitespaceLoop fuel' (advance_ s)
      else if c =? LF then
        skipWhitespaceLoop fuel' (advance_ (incLine s))
      else if c =? "/" then
        if peekNext s =? "/" then
          s1 <- while (fun s => negb (peek s =? LF) && negb (isAtEnd s))
                      advance_ (loopFuel s) s ;;
          skipWhitespaceLoop fuel' s1
        else if peek s =? "*" then
          let s1 := advance_ (advance_ s) in
          s2 <- blockCommentLoop (loopFuel s1) s1 ;;
          (* the error token is built and dropped: skipWhitespace is void *)
          let _ := if isAtEnd s2
                   then Some (errorToken s2 "Unterminated multiline comment error.")
                   else None in
          skipWhitespaceLoop fuel' s2
        else Some s
      else Some s
  end.

Definition skipWhitespace (s : Scanner) : option Scanner :=
  skipWhitespaceLoop (loopFuel s) s.

(** [memcmp(scanner.start + start, rest, length) == 0] *)
Fixpoint memcmpEq (s : Scanner) (from : nat) (rest : list ascii) (n : nat)
  : bool :=
  match n with
  | O => true
  | S n' =>
      (charAt s from =? nth 0 rest NUL) && memcmpEq s (S from) (tl rest) n'
  end.

Definition checkKeyword (s : Scanner) (start_ len : nat) (rest : string)
           (ty : TokenType) : TokenType :=
  if (Z.of_nat (current s) - Z.of_nat (start s) =? Z.of_nat (start_ + len))%Z
     && memcmpEq s (start s + start_) (list_ascii_of_string rest) len
  then ty
  else TOKEN_IDENTIFIER.

Definition identifierType (s : Scanner) : TokenType :=
  let c0 := charAt s (start s) in
  let c1 := charAt s (start s + 1) in
  let len := (Z.of_nat (current s) - Z.of_nat (start s))%Z in
  if c0 =? "a" then checkKeyword s 1 2 "nd" TOKEN_AND
  else if c0 =? "c" then checkKeyword s 1 4 "lass" TOKEN_CLASS
  else if c0 =? "e" then checkKeyword s 1 3 "lse" TOKEN_ELSE
  else if c0 =? "f" then
    if (len >? 1)%Z then
      if c1 =? "a" then checkKeyword s 2 3 "lse" TOKEN_FALSE
      else if c1 =? "o" then checkKeyword s 2 1 "r" TOKEN_FOR
      else if c1 =? "n" then checkKeyword s 2 0 "" TOKEN_FUN
      else TOKEN_IDENTIFIER
    else TOKEN_IDENTIFIER
  else if c0 =? "i" then checkKeyword s 1 1 "f" TOKEN_IF
  else if c0 =? "n" then checkKeyword s 1 3 "ull" TOKEN_NIL
  else if c0 =? "o" then checkKeyword s 1 1 "r" TOKEN_OR
  else if c0 =? "p" then checkKeyword s 1 6 "rintln" TOKEN_PRINT
  else if c0 =? "r" then checkKeyword s 1 5 "eturn" TOKEN_RETURN
  else if c0 =? "s" then checkKeyword s 1 4 "uper" TOKEN_SUPER
  else if c0 =? "t" then
    if (len >? 1)%Z then
      if c1 =? "h" then checkKeyword s 2 2 "is" TOKEN_THIS
      else if c1 =? "r" then checkKeyword s 2 2 "ue" TOKEN_TRUE
      else TOKEN_IDENTIFIER
    else TOKEN_IDENTIFIER
  else if c0 =? "v" then checkKeyword s 1 2 "ar" TOKEN_VAR
  else if c0 =? "w" then checkKeyword s 1 4 "hile" TOKEN_WHILE
  else TOKEN_IDENTIFIER.

Definition identifier (s : Scanner) : option (Token * Scanner) :=
  s1 <- while (fun s => isAlpha (peek s) || isDigit (peek s)) advance_
              (loopFuel s) s ;;
  Some (makeToken s1 (identifierType s1), s1).

Definition number (s : Scanner) : option (Token * Scanner) :=
  s1 <- while (fun s => isDigit (peek s)) advance_ (loopFuel s) s ;;
  s3 <- (if (peek s1 =? ".") && isDigit (peekNext s1) then
           let s2 := advance_ s1 in
           while (fun s => isDigit (peek s)) advance_ (loopFuel s2) s2
         else Some s1) ;;
  Some (makeToken s3 TOKEN_NUMBER, s3).

Definition string_ (s : Scanner) : option (Token * Scanner) :=
  s1 <- while (fun s => negb (peek s =? DQUOTE) && negb (isAtEnd s))
              (fun s => advance_ (if peek s =? LF then incLine s else s))
              (loopFuel s) s ;;
  if isAtEnd s1 then Some (errorToken s1 "Unterminated string.", s1)
  else
    let s2 := advance_ s1 in
    Some (makeToken s2 TOKEN_STRING, s2).

(** [makeToken(match('=') ? yes : no)] *)
Definition twoChar (s : Scanner) (yes no : TokenType) : Token * Scanner :=
  let (m, s1) := match_ "=" s in
  (makeToken s1 (if m then yes else no), s1).

Definition scanToken (s : Scanner) : option (Token * Scanner) :=
  s0 <- skipWhitespace s ;;
  let s1 := setStart s0 (current s0) in
  if isAtEnd s1 then Some (makeToken s1 TOKEN_EOF, s1)
  else
    let (c, s2) := advance s1 in
    if isAlpha c then identifier s2
    else if isDigit c then number s2
    else if c =? "(" then Some (makeToken s2 TOKEN_LEFT_PAREN, s2)
    else if c =? ")" then Some (makeToken s2 TOKEN_RIGHT_PAREN, s2)
    else if c =? "{" then Some (makeToken s2 TOKEN_LEFT_BRACE, s2)
    else if c =? "}" then Some (makeToken s2 TOKEN_RIGHT_BRACE, s2)
    else if c =? ";" then Some (makeToken s2 TOKEN_SEMICOLON, s2)
    else if c =? "," then Some (makeToken s2 TOKEN_COMMA, s2)
    else if c =? "." then Some (makeToken s2 TOKEN_DOT, s2)
    else if c =? "-" then Some (makeToken s2 TOKEN_MINUS, s2)
    else if c =? "+" then Some (makeToken s2 TOKEN_PLUS, s2)
    else if c =? "/" then Some (makeToken s2 TOKEN_SLASH, s2)
    else if c =? "*" then Some (makeToken s2 TOKEN_ASTERISK, s2)
    else if c =? "!" then Some (twoChar s2 TOKEN_BANG_EQUAL TOKEN_BANG)
    else if c =? "=" then Some (twoChar s2 TOKEN_EQUAL_EQUAL TOKEN_EQUAL)
    else if c =? "<" then Some (twoChar s2 TOKEN_LESS_EQUAL TOKEN_LESS)
    else if c =? ">" then Some (twoChar s2 TOKEN_GREATER_EQUAL TOKEN_GREATER)
    else if c =? DQUOTE then string_ s2
    else Some (errorToken s2 "Unexpected character.", s2).

(** A driver for examples: the tokens [scanToken] returns, call after
    call, up to and including the first [TOKEN_EOF]; [None] when [n] calls
    do not reach it. *)
Fixpoint scanAll (n : nat) (s : Scanner) : option (list Token) :=
  match n with
  | O => None
  | S n' =>
      r <- scanToken s ;;
      match type (fst r) with
      | TOKEN_EOF => Some [fst r]
      | _ => ts <- scanAll n' (snd r) ;; Some (fst r :: ts)
      end
  end.

(** [scanToken] called [n] times: the tokens in order and the scanner
    after the last call. *)
Fixpoint scanTimes (n : nat) (s : Scanner) : option (list Token * Scanner) :=
  match n with
  | O => Some ([], s)
  | S n' =>
      r <- scanToken s ;;
      r' <- scanTimes n' (snd r) ;;
      Some (fst r :: fst r', snd r')
  end.

Definition tokenTypes (text : string) : option (list TokenType) :=
  let src := list_ascii_of_string text in
  ts <- scanAll (S (List.length src)) (initScanner src) ;;
  Some (map type ts).

End ScannerC.

(** ** src/vm.c *)

Module VmC.

(** Modelled from the spec: [Value] is a typedef of include/value.h, which
    is not among the sources; the specification makes it a floating-point
    scalar, and vm.c applies the C operators [+ - * /] and unary [-] to it.
    It is taken as an IEEE 754 binary64 number. *)
Definition Value : Set := float.

(** Modelled from the spec: [Chunk] is declared in include/chunk.h, which
    is not among the sources: the code bytes and the constants, the two
    arrays vm.c reads. *)
Record Chunk : Set := mkChunk {
  code : list byte;
  constants : list Value
}.

(** Modelled from the spec: [enum OpCode] (include/chunk.h), with the
    enumerators vm.c names, one for each instruction of the specification. *)
Inductive OpCode : Set :=
| OP_CONSTANT | OP_CONSTANT_LONG
| OP_ADD | OP_SUBTRACT | OP_MULTIPLY | OP_DIVIDE
| OP_NEGATE | OP_RETURN.

(** What vm.c takes from headers that are not among the sources, as
    parameters: the constant [STACK_MAX] (include/vm.h) and the numbering
    of [enum OpCode] (include/chunk.h).  [STACK_MAX] is the length of the
    array [vm.stack], so it is not zero; the enumerators are the labels of
    one [switch], so they are pairwise distinct. *)
Class Headers : Type := {
  STACK_MAX : nat;
  STACK_MAX_pos : 0 < STACK_MAX;
  opcode : OpCode -> byte;
  opcode_inj : forall a b : OpCode, opcode a = opcode b -> a = b
}.

(** Modelled from the spec: [enum InterpretResult] (include/vm.h): the
    success marker, the one enumerator vm.c names, and the two failure
    markers the specification says the type reserves for compile and
    runtime errors. *)
Inductive InterpretResult : Set :=
| INTERPRET_OK
| INTERPRET_COMPILE_ERROR
| INTERPRET_RUNTIME_ERROR.

(** Modelled from the spec: the struct of the global [vm] is declared in
    include/vm.h; these are the four members vm.c uses.  [stack] is the
    array [Value stack[STACK_MAX]], given by the content of each slot: the
    slots are the indices below [STACK_MAX] and no others, and [push] and
    [pop] below treat a store or a load at any other index as what it is in
    C, an access outside the array.  [stackTop] and [ip] are the pointers
    as offsets from [vm.stack] and from [vm.chunk->code]. *)
Record VM : Set := mkVM {
  chunk : Chunk;
  ip : nat;
  stack : nat -> Value;
  stackTop : nat
}.

Definition setChunk (vm : VM) (c : Chunk) : VM :=
  mkVM c (ip vm) (stack vm) (stackTop vm).
Definition setIp (vm : VM) (p : nat) : VM :=
  mkVM (chunk vm) p (stack vm) (stackTop vm).
Definition setStackTop (vm : VM) (p : nat) : VM :=
  mkVM (chunk vm) (ip vm) (stack vm) p.
(** [vm.stack[i] = v] *)
Definition store (vm : VM) (i : nat) (v : Value) : VM :=
  mkVM (chunk vm) (ip vm)
       (fun j => if Nat.eqb j i then v else stack vm j) (stackTop vm).

(** How a call ends: it returns [a] and leaves the machine in [vm]; or the
    process ends in [exit(status)] after writing [err] to the error stream,
    with the machine as it was then; or it reads outside the chunk's code or
    constants, or stores or loads outside the array [vm.stack], which C
    leaves undefined ([vm] is the machine just before that access). *)
Inductive Outcome (A : Type) : Type :=
| Ok (a : A) (vm : VM)
| Exit (status : Z) (err : string) (vm : VM)
| Undefined (vm : VM).
Arguments Ok {A} a vm.
Arguments Exit {A} status err vm.
Arguments Undefined {A} vm.

Definition M (A : Type) : Type := VM -> Outcome A.

Definition ret {A : Type} (a : A) : M A := fun vm => Ok a vm.

Definition bindM {A B : Type} (m : M A) (k : A -> M B) : M B :=
  fun vm =>
    match m vm with
    | Ok a vm' => k a vm'
    | Exit status err vm' => Exit status err vm'
    | Undefined vm' => Undefined vm'
    end.

Local Notation "x <- m ;; k" := (bindM m (fun x => k))
  (at level 61, m at next level, right associativity).
Local Notation "m ;;; k" := (bindM m (fun _ => k))
  (at level 61, right associativity).

Definition newline : string := String "010" EmptyString.

Definition resetStack : M unit := fun vm => Ok tt (setStackTop vm 0).

Definition initVM : M unit := resetStack.

Definition freeVM : M unit := ret tt.

Section WithHeaders.
Context {H : Headers}.

(** [vm.stack + i] points at a slot of the array. *)
Definition inStack (i : nat) : bool := i <? STACK_MAX.

(** The test lets [stackTop = stack + STACK_MAX] through, and the store
    [*vm.stackTop = value] is then one slot past the end of the array. *)
Definition push (value : Value) : M unit := fun vm =>
  if STACK_MAX <? stackTop vm then
    Exit 1 ("Stack overflow" ++ newline) vm
  else if inStack (stackTop vm) then
    let vm1 := store vm (stackTop vm) value in
    Ok tt (setStackTop vm1 (S (stackTop vm1)))
  else Undefined vm.

(** [vm.stackTop--; return *vm.stackTop;]: the load is from a slot of the
    array whenever [stackTop] was within it. *)
Definition pop : M Value := fun vm =>
  if stackTop vm =? 0 then
    Exit 1 ("Stack underflow!" ++ newline) vm
  else
    let vm1 := setStackTop vm (stackTop vm - 1) in
    if inStack (stackTop vm1) then Ok (stack vm1 (stackTop vm1)) vm1
    else Undefined vm1.

(** [push] called once for each value of [vs], first to last. *)
Fixpoint pushAll (vs : list Value) : M unit :=
  match vs with
  | [] => ret tt
  | v :: vs' => push v ;;; pushAll vs'
  end.

(** [*vm.ip++] *)
Definition READ_BYTE : M byte := fun vm =>
  match nth_error (code (chunk vm)) (ip vm) with
  | Some b => Ok b (setIp vm (S (ip vm)))
  | None => Undefined vm
  end.

Definition u8 (b : byte) : Z := Z.of_N (Byte.to_N b).

(** Arithmetic of [uint32_t]. *)
Definition uint32 (z : Z) : Z := z mod 2 ^ 32.

(** [vm.chunk->constants.values[index]] *)
Definition constantAt (index : Z) : M Value := fun vm =>
  match nth_error (constants (chunk vm)) (Z.to_nat index) with
  | Some v => Ok v vm
  | None => Undefined vm
  end.

Definition readLongIndex : M Z :=
  let index := 0%Z in
  b1 <- READ_BYTE ;;
  let index := Z.lor index (uint32 (Z.shiftl (u8 b1) 16)) in
  b2 <- READ_BYTE ;;
  let index := Z.lor index (uint32 (Z.shiftl (u8 b2) 8)) in
  b3 <- READ_BYTE ;;
  let index := Z.lor index (uint32 (u8 b3)) in
  ret index.

Definition READ_CONSTANT : M Value :=
  b <- READ_BYTE ;; constantAt (u8 b).

Definition BINARY_OP (op : Value -> Value -> Value) : M unit :=
  b <- pop ;;
  a <- pop ;;
  push (op a b).

(** What one turn of the [for (;;)] of [run] does after it. *)
Inductive Next : Set :=
| Continue
| Return (r : InterpretResult).

Definition isOp (instruction : byte) (op : OpCode) : bool :=
  Byte.eqb instruction (opcode op).

(** One turn of the loop of [run]: the fetch and the [switch].  A byte that
    is no [case] label leaves the [switch] at once.  The trace under
    [DEBUG_TRACE_EXECUTION] and the [printf] of [OP_RETURN] write to the
    standard output only, which is not part of the state. *)
Definition step : M Next :=
  instruction <- READ_BYTE ;;
  if isOp instruction OP_CONSTANT then
    constant <- READ_CONSTANT ;;
    push constant ;;;
    ret Continue
  else if isOp instruction OP_CONSTANT_LONG then
    index <- readLongIndex ;;
    constant <- constantAt index ;;
    push constant ;;;
    ret Continue
  else if isOp instruction OP_ADD then
    BINARY_OP PrimFloat.add ;;; ret Continue
  else if isOp instruction OP_SUBTRACT then
    BINARY_OP PrimFloat.sub ;;; ret Continue
  else if isOp instruction OP_MULTIPLY then
    BINARY_OP PrimFloat.mul ;;; ret Continue
  else if isOp instruction OP_DIVIDE then
    BINARY_OP PrimFloat.div ;;; ret Continue
  else if isOp instruction OP_NEGATE then
    v <- pop ;;
    push (PrimFloat.opp v) ;;;
    ret Continue
  else if isOp instruction OP_RETURN then
    ret (Return INTERPRET_OK)
  else
    ret Continue.

(** [run]: the loop, bounded by [fuel] turns; [None] when they are used up. *)
Fixpoint run (fuel : nat) (vm : VM) : option (Outcome InterpretResult) :=
  match fuel with
  | O => None
  | S fuel' =>
      match step vm with
      | Ok Continue vm' => run fuel' vm'
      | Ok (Return r) vm' => Some (Ok r vm')
      | Exit status err vm' => Some (Exit status err vm')
      | Undefined vm' => Some (Undefined vm')
      end
  end.

(** Every turn reads at least one byte of the code, so one turn more than
    the bytes from [ip] on is enough ([run_total] in [VmSpec]). *)
Definition runFuel (vm : VM) : nat :=
  S (List.length (code (chunk vm)) - ip vm).

Definition interpret (c : Chunk) (vm : VM) : option (Outcome InterpretResult) :=
  let vm1 := setChunk vm c in
  let vm2 := setIp vm1 0 in
  run (runFuel vm2) vm2.

End WithHeaders.

(** A numbering of the opcodes in the order vm.c lists them, with 256 stack
    slots: the headers the examples run with. *)
Definition exampleOpcode (op : OpCode) : byte :=
  match op with
  | OP_CONSTANT => x00
  | OP_CONSTANT_LONG => x01
  | OP_ADD => x02
  | OP_SUBTRACT => x03
  | OP_MULTIPLY => x04
  | OP_DIVIDE => x05
  | OP_NEGATE => x06
  | OP_RETURN => x07
  end.

Lemma exampleOpcode_inj (a b : OpCode) :
  exampleOpcode a = exampleOpcode b -> a = b.
Proof. destruct a, b; simpl; intro E; solve [reflexivity | discriminate E]. Defined.

Definition exampleHeaders : Headers :=
  {| STACK_MAX := 256; STACK_MAX_pos := Nat.lt_0_succ 255;
     opcode := exampleOpcode; opcode_inj := exampleOpcode_inj |}.

(** A machine before [initVM]: no chunk, every slot zero. *)
Definition blankVM : VM := mkVM (mkChunk [] []) 0 (fun _ => 0%float) 0.

(** Chunks and machines for the examples, bytes numbered as in
    [exampleOpcode]. *)

(** [OP_CONSTANT 0; OP_RETURN] over the constant 1.5. *)
Definition pushOne : Chunk := mkChunk [x00; x00; x07] [1.5%float].

(** [OP_RETURN] alone. *)
Definition justReturn : Chunk := mkChunk [x07] [].

(** [OP_SUBTRACT] about to run on the stack 5, 3 (3 on top). *)
Definition subVM : VM :=
  mkVM (mkChunk [x03; x07] []) 0
       (fun j => if Nat.eqb j 0 then 5%float else 3%float) 2.

(** [OP_CONSTANT_LONG 00 01 01; OP_RETURN] over 258 constants, the last
    one 42 and the others 0. *)
Definition longVM : VM :=
  mkVM (mkChunk [x01; x00; x01; x01; x07]
                (map (fun k => if Nat.eqb k 257 then 42%float else 0%float)
                     (seq 0 258)))
       0 (fun _ => 0%float) 0.

(** A byte that numbers no opcode, then [OP_RETURN]. *)
Definition strayVM : VM := mkVM (mkChunk [xff; x07] []) 0 (fun _ => 0%float) 0.

(** [OP_CONSTANT 0; OP_CONSTANT 1; OP_ADD; OP_NEGATE; OP_RETURN] over the
    constants 3 and 4. *)
Definition addNegate : Chunk :=
  mkChunk [x00; x00; x00; x01; x02; x06; x07] [3%float; 4%float].

End VmC.

(* ================================================================== *)
(** * Part II: properties *)
(* ================================================================== *)

(** ** The scanner *)

Module ScannerSpec.
Import ScannerC.
Local Open Scope char_scope.

(** A character that may continue an identifier. *)
Definition idChar (c : ascii) : bool := isAlpha c || isDigit c.

(** The text after a lexeme does not continue an identifier: it is empty or
    starts with a character that is neither a letter, a digit nor [_]. *)
Definition delimited (rest : list ascii) : Prop := idChar (nth 0 rest NUL) = false.

(** An identifier lexeme: a letter or [_], then letters, digits and [_]. *)
Definition identifierLexeme (lex : list ascii) : Prop :=
  match lex with
  | [] => False
  | c :: tl => isAlpha c = true /\ forallb idChar tl = true
  end.

(** The keyword table of the specification, with [fn] where the
    specification spells [fun]: the spelling scanner.c tests for. *)
Definition keywords : list (string * TokenType) :=
  [ ("and", TOKEN_AND); ("class", TOKEN_CLASS); ("else", TOKEN_ELSE);
    ("false", TOKEN_FALSE); ("for", TOKEN_FOR); ("fn", TOKEN_FUN);
    ("if", TOKEN_IF); ("null", TOKEN_NIL); ("or", TOKEN_OR);
    ("println", TOKEN_PRINT); ("return", TOKEN_RETURN);
    ("super", TOKEN_SUPER); ("this", TOKEN_THIS); ("true", TOKEN_TRUE);
    ("var", TOKEN_VAR); ("while", TOKEN_WHILE) ]%string.

(** Equality of a keyword and a lexeme, character by character. *)
Fixpoint sameText (kw lex : list ascii) : bool :=
  match kw, lex with
  | [], [] => true
  | k :: kw', c :: lex' => (c =? k) && sameText kw' lex'
  | _, _ => false
  end.

(** Classification by the table: the type of the keyword the lexeme
    equals, [TOKEN_IDENTIFIER] when it equals none. *)
Definition classify (lex : list ascii) : TokenType :=
  match find (fun e => sameText (list_ascii_of_string (fst e)) lex) keywords with
  | Some e => snd e
  | None => TOKEN_IDENTIFIER
  end.

(** The spellings of the table. *)
Definition keys : list (list ascii) :=
  map (fun e => list_ascii_of_string (fst e)) keywords.

(** [p] is a prefix of [l]. *)
Fixpoint prefixb (p l : list ascii) : bool :=
  match p, l with
  | [], _ => true
  | a :: p', b :: l' => (b =? a) && prefixb p' l'
  | _ :: _, [] => false
  end.

(** The lower-case form of a character. *)
Definition lower (c : ascii) : ascii :=
  if inRange "A" "Z" c then ascii_of_N (N_of_ascii c + 32) else c.

(** [p] is a prefix of [l] and shorter than it. *)
Definition properPrefix (p l : list ascii) : Prop :=
  exists suffix, suffix <> [] /\ l = p ++ suffix.

(** [v] differs from [kw], and only in the case of its letters. *)
Definition caseVariant (v kw : list ascii) : Prop :=
  map lower v = map lower kw /\ v <> kw.

(** Scanning [lex] wherever it stands: in any buffer [pre ++ lex ++ rest]
    in which the text after it does not continue an identifier, with the
    cursor at its first character, whatever [start] and [line] are,
    [scanToken] returns one token of type [ty] that starts where [lex]
    starts, spans exactly [lex] and has the scanner's line, and it leaves
    [start] at the first character of [lex] and the cursor after the last. *)
Definition scansAs (lex : list ascii) (ty : TokenType) : Prop :=
  forall pre rest st l, delimited rest ->
    scanToken (mkScanner (pre ++ lex ++ rest) st (List.length pre) l) =
      Some (mkToken ty (InSource (List.length pre))
                    (toInt (Z.of_nat (List.length lex))) l,
            mkScanner (pre ++ lex ++ rest) (List.length pre)
                      (List.length pre + List.length lex) l).

(** Where the [start] of a returned token points: into the source, or at
    one of two string literals. *)
Definition startOf (tok : Token) (s' : Scanner) : Prop :=
  tstart tok = InSource (start s') \/
  tstart tok = Literal "Unterminated string." \/
  tstart tok = Literal "Unexpected character.".

(** *** [int] *)
Lemma toInt_small (z : Z) : (INT_MIN <= z <= INT_MAX)%Z -> toInt z = z.
Proof.
  unfold toInt, INT_MIN, INT_MAX. intro Hz.
  rewrite Z.mod_small by lia. lia.
Qed.

Lemma toInt_range (z : Z) : (INT_MIN <= toInt z <= INT_MAX)%Z.
Proof.
  unfold toInt, INT_MIN, INT_MAX.
  pose proof (Z.mod_pos_bound (z - -2147483648) 4294967296 eq_refl). lia.
Qed.

(** Counting on from a wrapped counter is counting on, then wrapping. *)
Lemma toInt_add (a b : Z) : toInt (toInt a + b) = toInt (a + b).
Proof.
  unfold toInt. f_equal.
  replace ((a - INT_MIN) mod 4294967296 + INT_MIN + b - INT_MIN)%Z
    with ((a - INT_MIN) mod 4294967296 + b)%Z by lia.
  rewrite Zplus_mod_idemp_l. f_equal. lia.
Qed.

(** *** Every loop comes to an end

    A character that is not the null byte lies inside the buffer. *)
Lemma not_at_end_lt (s : Scanner) :
  isAtEnd s = false -> current s < List.length (source s).
Proof.
  intro E. destruct (Nat.lt_ge_cases (current s) (List.length (source s)))
    as [Hlt|Hge]; [exact Hlt|].
  unfold isAtEnd, charAt in E. rewrite nth_overflow in E by exact Hge.
  discriminate E.
Qed.

Lemma while_total (cond : Scanner -> bool) (body : Scanner -> Scanner) :
  (forall s, cond s = true -> isAtEnd s = false) ->
  (forall s, source (body s) = source s /\ current (body s) = S (current s)) ->
  forall fuel s,
    List.length (source s) - current s <= fuel ->
    exists s', while cond body fuel s = Some s' /\
               source s' = source s /\ current s <= current s'.
Proof.
  intros Hcond Hbody fuel.
  induction fuel as [|fuel IH]; intros s Hfuel.
  - cbn [while]. destruct (cond s) eqn:Ec.
    + apply Hcond, not_at_end_lt in Ec. lia.
    + exists s. auto.
  - cbn [while]. destruct (cond s) eqn:Ec.
    + apply Hcond, not_at_end_lt in Ec.
      destruct (Hbody s) as [Hs Hc].
      destruct (IH (body s)) as (s' & E & Hs' & Hc'); [rewrite Hs, Hc; lia|].
      exists s'. rewrite E. repeat split; [congruence | lia].
    + exists s. auto.
Qed.

Lemma advance_moves (s : Scanner) :
  source (advance_ s) = source s /\ current (advance_ s) = S (current s).
Proof. split; reflexivity. Qed.

Lemma peek_not_NUL (s : Scanner) (c : ascii) :
  peek s = c -> (c =? NUL) = false -> isAtEnd s = false.
Proof. unfold peek, isAtEnd. now intros ->. Qed.

Lemma blockCommentLoop_total (fuel : nat) :
  forall s,
    List.length (source s) - current s <= fuel ->
    exists s', blockCommentLoop fuel s = Some s' /\ source s' = source s.
Proof.
  induction fuel as [|fuel IH]; intros s Hfuel; cbn [blockCommentLoop];
    destruct (isAtEnd s) eqn:Ee; cbn [negb]; try (exists s; now auto).
  - apply not_at_end_lt in Ee. lia.
  - apply not_at_end_lt in Ee. cbv zeta.
    destruct (_ && _); [eexists; split; [reflexivity|]|].
    + destruct (peek s =? LF); reflexivity.
    + destruct (IH (advance_ (if peek s =? LF then incLine s else s)))
        as (s' & E & Hs').
      * destruct (peek s =? LF); cbn; lia.
      * exists s'. split; [exact E|]. rewrite Hs'.
        destruct (peek s =? LF); reflexivity.
Qed.

Lemma skipWhitespaceLoop_total (fuel : nat) :
  forall s,
    List.length (source s) - current s < fuel ->
    exists s', skipWhitespaceLoop fuel s = Some s' /\ source s' = source s.
Proof.
  induction fuel as [|fuel IH]; intros s Hfuel; [lia|].
  cbn [skipWhitespaceLoop]. cbv zeta.
  destruct ((peek s =? " ") || (peek s =? CR) || (peek s =? TAB)) eqn:Eb.
  { assert (Hne : isAtEnd s = false).
    { unfold isAtEnd. fold (peek s).
      destruct (Ascii.eqb_spec (peek s) NUL) as [E|]; [|reflexivity].
      rewrite E in Eb. discriminate Eb. }
    apply not_at_end_lt in Hne.
    destruct (IH (advance_ s)) as (s' & E & Hs'); [cbn; lia|].
    exists s'. split; [exact E | exact Hs']. }
  destruct (Ascii.eqb_spec (peek s) LF) as [El|_].
  { assert (Hne : isAtEnd s = false)
      by (apply (peek_not_NUL s LF El); reflexivity).
    apply not_at_end_lt in Hne.
    destruct (IH (advance_ (incLine s))) as (s' & E & Hs'); [cbn; lia|].
    exists s'. split; [exact E | exact Hs']. }
  destruct (Ascii.eqb_spec (peek s) "/") as [Es|_]; [|exists s; now auto].
  assert (Hne : isAtEnd s = false)
    by (apply (peek_not_NUL s "/" Es); reflexivity).
  destruct (peekNext s =? "/").
  - unfold loopFuel. cbn [while]. rewrite Es, Hne. cbn [Ascii.eqb Bool.eqb negb andb].
    apply not_at_end_lt in Hne.
    destruct (while_total
                (fun s => negb (peek s =? LF) && negb (isAtEnd s)) advance_)
      with (fuel := List.length (source s) - current s) (s := advance_ s)
      as (s1 & E1 & Hs1 & Hc1).
    + intros s0 E0. apply andb_true_iff in E0. destruct E0 as [_ E0].
      now apply negb_true_iff in E0.
    + apply advance_moves.
    + cbn. lia.
    + rewrite E1. cbn [bind].
      destruct (IH s1) as (s' & E & Hs'); [cbn in *; rewrite Hs1; lia|].
      exists s'. split; [exact E | rewrite Hs', Hs1; reflexivity].
  - rewrite Es. cbn [Ascii.eqb Bool.eqb andb]. exists s. auto.
Qed.

Lemma skipWhitespace_total (s : Scanner) :
  exists s', skipWhitespace s = Some s' /\ source s' = source s.
Proof. apply skipWhitespaceLoop_total. unfold loopFuel. lia. Qed.

Lemma digit_not_NUL (c : ascii) : isDigit c = true -> (c =? NUL) = false.
Proof.
  intro Hc. destruct (Ascii.eqb_spec c NUL) as [->|]; [discriminate Hc | reflexivity].
Qed.

Lemma idChar_not_NUL (c : ascii) : idChar c = true -> (c =? NUL) = false.
Proof.
  intro Hc. destruct (Ascii.eqb_spec c NUL) as [->|]; [discriminate Hc | reflexivity].
Qed.

Lemma digits_total (s : Scanner) :
  exists s', while (fun s => isDigit (peek s)) advance_ (loopFuel s) s = Some s' /\
             source s' = source s.
Proof.
  destruct (while_total (fun s => isDigit (peek s)) advance_)
    with (fuel := loopFuel s) (s := s) as (s' & E & Hs & _).
  - intros s0 E0. apply digit_not_NUL in E0. exact E0.
  - apply advance_moves.
  - unfold loopFuel. lia.
  - exists s'. auto.
Qed.

Lemma identifier_total (s : Scanner) :
  exists tok s', identifier s = Some (tok, s') /\ source s' = source s /\
                 startOf tok s'.
Proof.
  unfold identifier.
  destruct (while_total (fun s => isAlpha (peek s) || isDigit (peek s)) advance_)
    with (fuel := loopFuel s) (s := s) as (s' & E & Hs & _).
  - intros s0 E0. apply (idChar_not_NUL _ E0).
  - apply advance_moves.
  - unfold loopFuel. lia.
  - rewrite E. cbn [bind]. eexists. eexists.
    split; [reflexivity|]. split; [exact Hs | left; reflexivity].
Qed.

Lemma number_total (s : Scanner) :
  exists tok s', number s = Some (tok, s') /\ source s' = source s /\
                 startOf tok s'.
Proof.
  unfold number. destruct (digits_total s) as (s1 & E1 & Hs1).
  rewrite E1. cbn [bind].
  destruct ((peek s1 =? ".") && isDigit (peekNext s1)).
  - destruct (digits_total (advance_ s1)) as (s2 & E2 & Hs2).
    rewrite E2. cbn [bind]. eexists. eexists.
    split; [reflexivity|]. split; [|left; reflexivity].
    rewrite Hs2. exact Hs1.
  - cbn [bind]. eexists. eexists.
    split; [reflexivity|]. split; [exact Hs1 | left; reflexivity].
Qed.

Lemma string_total (s : Scanner) :
  exists tok s', string_ s = Some (tok, s') /\ source s' = source s /\
                 startOf tok s'.
Proof.
  unfold string_.
  destruct (while_total
              (fun s => negb (peek s =? DQUOTE) && negb (isAtEnd s))
              (fun s => advance_ (if peek s =? LF then incLine s else s)))
    with (fuel := loopFuel s) (s := s) as (s' & E & Hs & _).
  - intros s0 E0. apply andb_true_iff in E0. destruct E0 as [_ E0].
    now apply negb_true_iff in E0.
  - intro s0. destruct (peek s0 =? LF); split; reflexivity.
  - unfold loopFuel. lia.
  - rewrite E. cbn [bind]. destruct (isAtEnd s'); eexists; eexists.
    + split; [reflexivity|]. split; [exact Hs | right; left; reflexivity].
    + split; [reflexivity|]. split; [exact Hs | left; reflexivity].
Qed.

Lemma match_source (c : ascii) (s : Scanner) :
  source (snd (match_ c s)) = source s.
Proof.
  unfold match_. destruct (isAtEnd s); [reflexivity|].
  destruct (negb _); reflexivity.
Qed.

(** [scanToken] always returns: no loop uses up its fuel.  The token starts
    in the source or at one of the two messages of [startOf]. *)
Lemma scanToken_total (s : Scanner) :
  exists tok s', scanToken s = Some (tok, s') /\ source s' = source s /\
                 startOf tok s'.
Proof.
  unfold scanToken. destruct (skipWhitespace_total s) as (s0 & E0 & Hs0).
  rewrite E0. cbn [bind]. cbv zeta.
  destruct (isAtEnd _).
  { eexists. eexists. split; [reflexivity|]. split; [exact Hs0 | left; reflexivity]. }
  unfold advance. cbv zeta.
  set (s2 := setCurrent (setStart s0 (current s0)) _).
  set (c := charAt s2 _).
  assert (Hs2 : source s2 = source s) by exact Hs0.
  clearbody c s2.
  destruct (isAlpha c).
  { destruct (identifier_total s2) as (tok & s' & E & Hs & Ht).
    exists tok, s'. split; [exact E|]. split; [congruence | exact Ht]. }
  destruct (isDigit c).
  { destruct (number_total s2) as (tok & s' & E & Hs & Ht).
    exists tok, s'. split; [exact E|]. split; [congruence | exact Ht]. }
  repeat match goal with
         | |- exists tok s', (if c =? DQUOTE then _ else _) = _ /\ _ => fail 1
         | |- exists tok s', (if ?b then _ else _) = _ /\ _ =>
             destruct b;
             [ first
                 [ solve [ eexists; eexists;
                           (split; [reflexivity
                                   | split; [exact Hs2 | left; reflexivity]]) ]
                 | unfold twoChar;
                   pose proof (match_source "=" s2) as Hm;
                   destruct (match_ "=" s2) as [m s3]; cbn [snd] in Hm;
                   eexists; eexists;
                   (split; [reflexivity
                           | split; [congruence | left; reflexivity]]) ]
             | ]
         end.
  destruct (c =? DQUOTE).
  - destruct (string_total s2) as (tok & s' & E & Hs & Ht).
    exists tok, s'. split; [exact E|]. split; [congruence | exact Ht].
  - eexists. eexists. split; [reflexivity|].
    split; [exact Hs2 | right; right; reflexivity].
Qed.

Lemma sameText_eq kw : forall lex, sameText kw lex = true <-> kw = lex.
Proof.
  induction kw as [|k kw IH]; intros [|c lex]; simpl; split; intro E;
    try reflexivity; try discriminate.
  - apply andb_true_iff in E. destruct E as [E1 E2].
    apply Ascii.eqb_eq in E1. apply IH in E2. congruence.
  - inversion E; subst. rewrite Ascii.eqb_refl. simpl. now apply IH.
Qed.

Lemma sameText_length kw : forall lex, sameText kw lex = true -> List.length lex = List.length kw.
Proof. intros lex E. apply sameText_eq in E. now subst. Qed.

Lemma sameText_cons (k c : ascii) (kw lex : list ascii) :
  sameText (k :: kw) (c :: lex) = (c =? k) && sameText kw lex.
Proof. reflexivity. Qed.

Lemma nth_past (A : Type) (pre x : list A) (d : A) (i : nat) :
  nth (List.length pre + i) (pre ++ x) d = nth i x d.
Proof. induction pre; simpl; auto. Qed.

(** *** [checkKeyword] and [identifierType]

    [memcmp] over the tail of a lexeme is equality with that tail. *)
Lemma memcmpEq_tail (kw : list ascii) :
  forall pre tl rest st cur l,
    List.length tl = List.length kw ->
    memcmpEq (mkScanner (pre ++ tl ++ rest) st cur l) (List.length pre) kw
             (List.length kw) = sameText kw tl.
Proof.
  induction kw as [|k kw IH]; intros pre [|c tl] rest st cur l Hlen;
    simpl in Hlen; try discriminate; [reflexivity|].
  cbn [memcmpEq List.length sameText nth List.tl].
  unfold charAt. cbn [source].
  rewrite <- (Nat.add_0_r (List.length pre)) at 1.
  rewrite nth_past. cbn [nth app].
  f_equal.
  replace (S (List.length pre)) with (List.length (pre ++ [c]))
    by (rewrite length_app; simpl; lia).
  replace (pre ++ c :: tl ++ rest) with ((pre ++ [c]) ++ tl ++ rest)
    by (rewrite <- app_assoc; reflexivity).
  apply IH. lia.
Qed.

(** The lexeme is [mid ++ tl], with [before] in front of it in the buffer;
    [checkKeyword] compares the part after [mid]. *)
Lemma checkKeyword_tail (before mid tl rest : list ascii) (l : Z) (n : nat)
      (kw : string) (ty : TokenType) :
  n = List.length (list_ascii_of_string kw) ->
  checkKeyword (mkScanner (before ++ mid ++ tl ++ rest) (List.length before)
                          (List.length before + (List.length mid + List.length tl))
                          l)
               (List.length mid) n kw ty =
  if sameText (list_ascii_of_string kw) tl then ty else TOKEN_IDENTIFIER.
Proof.
  intros ->. unfold checkKeyword. cbn [start current].
  replace (List.length before + List.length mid)
    with (List.length (before ++ mid)) by apply length_app.
  replace (before ++ mid ++ tl ++ rest) with ((before ++ mid) ++ tl ++ rest)
    by (rewrite <- app_assoc; reflexivity).
  destruct (Nat.eq_dec (List.length tl) (List.length (list_ascii_of_string kw))) as [E|E].
  - rewrite memcmpEq_tail by exact E.
    replace (_ =? _)%Z with true by (symmetry; apply Z.eqb_eq; lia).
    reflexivity.
  - replace (_ =? _)%Z with false by (symmetry; apply Z.eqb_neq; lia).
    destruct (sameText _ tl) eqn:Es; [|reflexivity].
    apply sameText_length in Es. contradiction.
Qed.

Lemma checkKeyword1 (before : list ascii) (c : ascii) (tl rest : list ascii)
      (l : Z) (n : nat) (kw : string) (ty : TokenType) :
  n = List.length (list_ascii_of_string kw) ->
  checkKeyword (mkScanner (before ++ c :: tl ++ rest) (List.length before)
                          (List.length before + S (List.length tl)) l)
               1 n kw ty =
  if sameText (list_ascii_of_string kw) tl then ty else TOKEN_IDENTIFIER.
Proof. exact (checkKeyword_tail before [c] tl rest l n kw ty). Qed.

Lemma checkKeyword2 (before : list ascii) (c c1 : ascii) (tl rest : list ascii)
      (l : Z) (n : nat) (kw : string) (ty : TokenType) :
  n = List.length (list_ascii_of_string kw) ->
  checkKeyword (mkScanner (before ++ c :: c1 :: tl ++ rest) (List.length before)
                          (List.length before + S (S (List.length tl))) l)
               2 n kw ty =
  if sameText (list_ascii_of_string kw) tl then ty else TOKEN_IDENTIFIER.
Proof. exact (checkKeyword_tail before [c; c1] tl rest l n kw ty). Qed.

Lemma longer_than_one (p n : nat) :
  (Z.of_nat (p + S (S n)) - Z.of_nat p >? 1)%Z = true.
Proof. apply Z.gtb_lt. lia. Qed.

Lemma nth_past0 (A : Type) (pre x : list A) (d : A) :
  nth (List.length pre) (pre ++ x) d = nth 0 x d.
Proof. rewrite <- (nth_past A pre x d 0). now rewrite Nat.add_0_r. Qed.

Ltac split_char c :=
  repeat match goal with
         | |- context [Ascii.eqb c ?k] =>
             destruct (Ascii.eqb_spec c k) as [->|?]
         end.

Ltac finish_keyword :=
  cbn [Ascii.eqb Bool.eqb andb];
  try match goal with
      | |- (if sameText ?k ?t then _ else _) = _ => destruct (sameText k t)
      end;
  reflexivity.

(** The [switch] of [identifierType] computes the classification by the
    table. *)
Lemma identifierType_classify (before : list ascii) (c : ascii)
      (tl rest : list ascii) (l : Z) :
  identifierType (mkScanner (before ++ c :: tl ++ rest) (List.length before)
                            (List.length before + S (List.length tl)) l) =
  classify (c :: tl).
Proof.
  unfold identifierType, classify, keywords. cbv zeta.
  unfold charAt. cbn [source start current find fst snd list_ascii_of_string].
  rewrite nth_past0, nth_past. cbn [nth].
  rewrite !checkKeyword1 by reflexivity.
  rewrite ?sameText_cons. cbn [list_ascii_of_string].
  split_char c; try solve [finish_keyword].
  all: destruct tl as [|c1 tl'];
    [ cbn [List.length];
      replace (Z.of_nat (List.length before + 1) - Z.of_nat (List.length before)
               >? 1)%Z with false by (symmetry; rewrite Z.gtb_ltb; apply Z.ltb_ge; lia);
      reflexivity |].
  all: cbn [List.length app nth]; rewrite longer_than_one.
  all: rewrite !checkKeyword2 by reflexivity.
  all: rewrite ?sameText_cons; cbn [list_ascii_of_string].
  all: split_char c1; finish_keyword.
Qed.

(** *** Scanning an identifier *)
Lemma alpha_plain (c : ascii) :
  isAlpha c = true ->
  (c =? " ") = false /\ (c =? CR) = false /\ (c =? TAB) = false /\
  (c =? LF) = false /\ (c =? "/") = false /\ (c =? NUL) = false.
Proof.
  intro Hc.
  repeat split;
    match goal with
    | |- (c =? ?k) = false =>
        destruct (Ascii.eqb_spec c k) as [->|]; [discriminate Hc | reflexivity]
    end.
Qed.

Lemma skipWhitespace_alpha (s : Scanner) :
  isAlpha (peek s) = true -> skipWhitespace s = Some s.
Proof.
  intro Hc. destruct (alpha_plain _ Hc) as (E1 & E2 & E3 & E4 & E5 & _).
  unfold skipWhitespace, loopFuel. cbn [skipWhitespaceLoop]. cbv zeta.
  rewrite E1, E2, E3, E4, E5. reflexivity.
Qed.

Lemma peek_past (pre x : list ascii) (st : nat) (l : Z) :
  peek (mkScanner (pre ++ x) st (List.length pre) l) = nth 0 x NUL.
Proof.
  unfold peek, charAt. cbn [source current].
  rewrite <- (Nat.add_0_r (List.length pre)). apply nth_past.
Qed.

Lemma while_identifier (tl : list ascii) :
  forall pre rest st l fuel,
    forallb idChar tl = true -> delimited rest ->
    List.length tl <= fuel ->
    while (fun s => isAlpha (peek s) || isDigit (peek s)) advance_ fuel
          (mkScanner (pre ++ tl ++ rest) st (List.length pre) l) =
    Some (mkScanner (pre ++ tl ++ rest) st
                    (List.length pre + List.length tl) l).
Proof.
  induction tl as [|c tl IH]; intros pre rest st l fuel Hid Hrest Hfuel.
  - destruct fuel; cbn [while]; rewrite peek_past; cbn [app];
      unfold delimited, idChar in Hrest; rewrite Hrest;
      cbn [List.length]; rewrite !Nat.add_0_r; reflexivity.
  - cbn [forallb] in Hid. apply andb_true_iff in Hid. destruct Hid as [Hc Hid].
    destruct fuel as [|fuel]; [cbn [List.length] in Hfuel; lia|].
    cbn [while]. rewrite peek_past. cbn [nth app].
    unfold idChar in Hc. rewrite Hc.
    unfold advance_, advance, setCurrent. cbn [snd source start current line].
    replace (S (List.length pre)) with (List.length (pre ++ [c]))
      by (rewrite length_app; simpl; lia).
    replace (pre ++ c :: tl ++ rest) with ((pre ++ [c]) ++ tl ++ rest)
      by (rewrite <- app_assoc; reflexivity).
    rewrite IH; [|exact Hid|exact Hrest|cbn [List.length] in Hfuel; lia].
    rewrite length_app. cbn [List.length]. do 2 f_equal. lia.
Qed.

(** An identifier lexeme is scanned as one token, of the type the table
    gives it. *)
Lemma scan_identifier (lex : list ascii) :
  identifierLexeme lex -> scansAs lex (classify lex).
Proof.
  destruct lex as [|c tl]; [intros []|]. intros [Hc Hid] pre rest st l Hrest.
  assert (Hpeek : peek (mkScanner (pre ++ (c :: tl) ++ rest) st
                                  (List.length pre) l) = c)
    by apply peek_past.
  unfold scanToken. rewrite skipWhitespace_alpha by (rewrite Hpeek; exact Hc).
  cbn [bind]. unfold isAtEnd, setStart, charAt.
  cbn [source current start line]. rewrite nth_past0. cbn [app nth].
  destruct (alpha_plain _ Hc) as (_ & _ & _ & _ & _ & E0). rewrite E0.
  unfold advance, setCurrent, charAt. cbn [source current start line Nat.sub].
  rewrite Nat.sub_0_r, nth_past0. cbn [nth].
  rewrite Hc. unfold identifier, loopFuel.
  cbn [source current].
  replace (S (List.length pre)) with (List.length (pre ++ [c]))
    by (rewrite length_app; cbn [List.length]; lia).
  replace (pre ++ c :: tl ++ rest) with ((pre ++ [c]) ++ tl ++ rest)
    by (rewrite <- app_assoc; reflexivity).
  rewrite (while_identifier tl (pre ++ [c]) rest _ l _ Hid Hrest)
    by (rewrite !length_app; lia).
  cbn [bind].
  replace ((pre ++ [c]) ++ tl ++ rest) with (pre ++ c :: tl ++ rest)
    by (rewrite <- app_assoc; reflexivity).
  replace (List.length (pre ++ [c]) + List.length tl)
    with (List.length pre + S (List.length tl))
    by (rewrite length_app; cbn [List.length]; lia).
  rewrite identifierType_classify. unfold makeToken.
  cbn [start current line List.length].
  replace (Z.of_nat (List.length pre + S (List.length tl)) -
           Z.of_nat (List.length pre))%Z
    with (Z.of_nat (S (List.length tl))) by lia.
  reflexivity.
Qed.

(** *** The table *)
Lemma prefixb_app (p suffix : list ascii) : prefixb p (p ++ suffix) = true.
Proof.
  induction p as [|a p IH]; simpl; [reflexivity|].
  now rewrite Ascii.eqb_refl.
Qed.

Lemma key_in (kw : string) (ty : TokenType) :
  In (kw, ty) keywords -> In (list_ascii_of_string kw) keys.
Proof.
  intro Hin. unfold keys.
  apply (in_map (fun e => list_ascii_of_string (fst e)) _ _ Hin).
Qed.

(** No spelling of the table is the start of another. *)
Lemma keys_prefix_free (k k' : list ascii) :
  In k keys -> In k' keys -> properPrefix k k' -> False.
Proof.
  intros Hk Hk' (suffix & Hne & E).
  assert (Hall : forallb (fun a =>
                    forallb (fun b => negb (prefixb a b) || sameText a b) keys)
                  keys = true)
    by (vm_compute; reflexivity).
  rewrite forallb_forall in Hall. specialize (Hall k Hk).
  rewrite forallb_forall in Hall. specialize (Hall k' Hk').
  subst k'. rewrite prefixb_app in Hall. cbn [negb orb] in Hall.
  apply sameText_eq in Hall.
  apply Hne. apply (app_inv_head k). rewrite app_nil_r. symmetry. exact Hall.
Qed.

(** Every spelling of the table is in lower case. *)
Lemma keys_lower (k : list ascii) : In k keys -> map lower k = k.
Proof.
  intro Hk.
  assert (Hall : forallb (fun a => sameText (map lower a) a) keys = true)
    by (vm_compute; reflexivity).
  rewrite forallb_forall in Hall. apply sameText_eq. exact (Hall k Hk).
Qed.

Lemma classify_key (kw : string) (ty : TokenType) :
  In (kw, ty) keywords -> classify (list_ascii_of_string kw) = ty.
Proof.
  intro Hin. simpl in Hin.
  repeat (destruct Hin as [E|Hin]; [inversion E; subst; reflexivity|]).
  destruct Hin.
Qed.

Lemma key_lexeme (kw : string) (ty : TokenType) :
  In (kw, ty) keywords -> identifierLexeme (list_ascii_of_string kw).
Proof.
  intro Hin. simpl in Hin.
  repeat (destruct Hin as [E|Hin]; [inversion E; subst; split; reflexivity|]).
  destruct Hin.
Qed.

Lemma classify_other (lex : list ascii) :
  ~ In lex keys -> classify lex = TOKEN_IDENTIFIER.
Proof.
  intro Hnot. unfold classify.
  destruct (find _ keywords) as [[kw ty]|] eqn:E; [|reflexivity].
  apply find_some in E. destruct E as [Hin Hsame]. cbn [fst] in Hsame.
  apply sameText_eq in Hsame. subst lex.
  exfalso. apply Hnot. exact (key_in kw ty Hin).
Qed.

(** C2, as amended.  Each spelling of the table (the specification's set
    with [fn] for [fun]) is scanned as its keyword type; an identifier
    lexeme that is a proper prefix, a proper extension or a case variant of
    one is scanned as [TOKEN_IDENTIFIER]; and so is [fun]. *)
Theorem keyword_recognition :
  (forall kw ty, In (kw, ty) keywords ->
     scansAs (list_ascii_of_string kw) ty) /\
  (forall kw ty lex, In (kw, ty) keywords ->
     identifierLexeme lex ->
     properPrefix lex (list_ascii_of_string kw) \/
     properPrefix (list_ascii_of_string kw) lex \/
     caseVariant lex (list_ascii_of_string kw) ->
     scansAs lex TOKEN_IDENTIFIER) /\
  scansAs (list_ascii_of_string "fun") TOKEN_IDENTIFIER.
Proof.
  split; [|split].
  - intros kw ty Hin.
    rewrite <- (classify_key kw ty Hin).
    exact (scan_identifier _ (key_lexeme kw ty Hin)).
  - intros kw ty lex Hin Hlex Hrel.
    rewrite <- (classify_other lex); [exact (scan_identifier _ Hlex)|].
    intro Hkey. pose proof (key_in kw ty Hin) as Hkw.
    destruct Hrel as [Hp|[Hp|[Hmap Hne]]].
    + exact (keys_prefix_free _ _ Hkey Hkw Hp).
    + exact (keys_prefix_free _ _ Hkw Hkey Hp).
    + apply Hne. rewrite <- (keys_lower _ Hkey), <- (keys_lower _ Hkw).
      exact Hmap.
  - apply (scan_identifier (list_ascii_of_string "fun")). split; reflexivity.
Qed.

(** *** The end of the text *)
Lemma skipWhitespace_at_end (s : Scanner) :
  isAtEnd s = true -> skipWhitespace s = Some s.
Proof.
  intro E. unfold isAtEnd in E. apply Ascii.eqb_eq in E.
  unfold skipWhitespace, loopFuel. cbn [skipWhitespaceLoop]. cbv zeta.
  unfold peek. rewrite E. reflexivity.
Qed.

Lemma scanToken_at_end (s : Scanner) :
  isAtEnd s = true ->
  scanToken s = Some (mkToken TOKEN_EOF (InSource (current s)) 0 (line s),
                      setStart s (current s)).
Proof.
  intro E. unfold scanToken. rewrite (skipWhitespace_at_end s E).
  cbn [bind]. cbv zeta.
  change (isAtEnd (setStart s (current s))) with (isAtEnd s). rewrite E.
  unfold makeToken. cbn [setStart start current line].
  now rewrite Z.sub_diag.
Qed.

Lemma scanTimes_fixed (tok : Token) (s : Scanner) :
  scanToken s = Some (tok, s) ->
  forall n, scanTimes n s = Some (repeat tok n, s).
Proof.
  intros E n. induction n as [|n IH]; [reflexivity|].
  cbn [scanTimes]. rewrite E. cbn [bind fst snd]. rewrite IH. reflexivity.
Qed.

(** C9, as amended.  With the cursor [current] on the null byte,
    [scanToken] returns the [TOKEN_EOF] token and leaves [current] and
    [line] as they are; it sets [start] to [current], as at every token.
    From the state it leaves, it returns the same token and the same state
    again, however often it is called. *)
Theorem scanToken_eof_idempotent (s : Scanner) :
  isAtEnd s = true ->
  scanToken s = Some (mkToken TOKEN_EOF (InSource (current s)) 0 (line s),
                      setStart s (current s)) /\
  current (setStart s (current s)) = current s /\
  line (setStart s (current s)) = line s /\
  scanToken (setStart s (current s)) =
    Some (mkToken TOKEN_EOF (InSource (current s)) 0 (line s),
          setStart s (current s)) /\
  (forall n,
     scanTimes (S n) s =
       Some (repeat (mkToken TOKEN_EOF (InSource (current s)) 0 (line s)) (S n),
             setStart s (current s))).
Proof.
  intro E.
  assert (E1 := scanToken_at_end s E).
  assert (E2 := scanToken_at_end (setStart s (current s)) E).
  change (setStart (setStart s (current s)) (current (setStart s (current s))))
    with (setStart s (current s)) in E2.
  change (current (setStart s (current s))) with (current s) in E2.
  change (line (setStart s (current s))) with (line s) in E2.
  split; [exact E1|]. do 2 (split; [reflexivity|]). split; [exact E2|].
  intro n. cbn [scanTimes]. rewrite E1. cbn [bind fst snd].
  rewrite (scanTimes_fixed _ _ E2 n). reflexivity.
Qed.

(** *** Block comments

    At a [/] that no second [/] follows, [skipWhitespace] returns without
    consuming anything: its test for [*] reads the [/] again. *)
Lemma skipWhitespace_slash (s : Scanner) :
  peek s = "/" -> (peekNext s =? "/") = false -> skipWhitespace s = Some s.
Proof.
  intros Ep En. unfold skipWhitespace, loopFuel.
  cbn [skipWhitespaceLoop]. cbv zeta. rewrite Ep, En. reflexivity.
Qed.

(** C1, on the code.  At the [/] that opens a block comment
    [skipWhitespace] consumes nothing and [scanToken] returns [TOKEN_SLASH]
    for that one character; the comment's interior is scanned as tokens. *)
Theorem block_comment_scanned_as_tokens :
  (forall s, peek s = "/" -> peekNext s = "*" ->
     skipWhitespace s = Some s /\
     scanToken s =
       Some (mkToken TOKEN_SLASH (InSource (current s)) 1 (line s),
             mkScanner (source s) (current s) (S (current s)) (line s))) /\
  tokenTypes "/* c */ x" =
    Some [TOKEN_SLASH; TOKEN_ASTERISK; TOKEN_IDENTIFIER; TOKEN_ASTERISK;
          TOKEN_SLASH; TOKEN_IDENTIFIER; TOKEN_EOF].
Proof.
  split; [|vm_compute; reflexivity].
  intros s Ep En.
  assert (Es : skipWhitespace s = Some s)
    by (apply skipWhitespace_slash; [exact Ep | rewrite En; reflexivity]).
  split; [exact Es|].
  unfold scanToken. rewrite Es. cbn [bind]. cbv zeta.
  change (isAtEnd (setStart s (current s))) with (isAtEnd s).
  rewrite (peek_not_NUL s "/" Ep eq_refl).
  unfold advance. cbv zeta.
  unfold setCurrent, setStart, charAt.
  cbn [source start current line Nat.sub].
  rewrite Nat.sub_0_r. fold (charAt s (current s)). fold (peek s). rewrite Ep.
  change (isAlpha "/") with false. change (isDigit "/") with false.
  cbn [Ascii.eqb Bool.eqb andb].
  unfold makeToken. cbn [start current line].
  replace (Z.of_nat (S (current s)) - Z.of_nat (current s))%Z with 1%Z by lia.
  reflexivity.
Qed.

(** C4, on the code.  Whatever the scanner's state, the token [scanToken]
    returns starts in the source or at one of the messages
    [Unterminated string.] and [Unexpected character.]: never at the message
    for an unterminated comment.  A text that ends inside a comment is
    scanned as ordinary tokens up to [TOKEN_EOF]. *)
Theorem unterminated_comment_not_reported :
  (forall s, exists tok s',
     scanToken s = Some (tok, s') /\
     (tstart tok = InSource (start s') \/
      tstart tok = Literal "Unterminated string." \/
      tstart tok = Literal "Unexpected character.")) /\
  tokenTypes "/* abc" =
    Some [TOKEN_SLASH; TOKEN_ASTERISK; TOKEN_IDENTIFIER; TOKEN_EOF].
Proof.
  split; [|vm_compute; reflexivity].
  intro s. destruct (scanToken_total s) as (tok & s' & E & _ & Ht).
  exists tok, s'. split; [exact E | exact Ht].
Qed.

(** *** The properties at concrete texts *)

(** C2, the claim as stated, refuted: the spelling [fun] is scanned as an
    identifier; [fn] is the spelling of [TOKEN_FUN]. *)
Lemma fun_is_identifier_counterexample :
  scanToken (initScanner (list_ascii_of_string "fun")) =
    Some (mkToken TOKEN_IDENTIFIER (InSource 0) 3 1,
          mkScanner (list_ascii_of_string "fun") 0 3 1) /\
  tokenTypes "fun" = Some [TOKEN_IDENTIFIER; TOKEN_EOF] /\
  tokenTypes "fn" = Some [TOKEN_FUN; TOKEN_EOF].
Proof. repeat split; vm_compute; reflexivity. Qed.

(** C9, the claim as stated, refuted: the text [abc] scanned from the
    start leaves [start] at 0 and the cursor on the null byte; the next
    call returns [TOKEN_EOF] and moves [start] to 3, so it does not leave
    the state unchanged.  The call after that does. *)
Lemma scanToken_eof_moves_start_counterexample :
  exists ident eof s1 s2,
    scanToken (initScanner (list_ascii_of_string "abc")) = Some (ident, s1) /\
    isAtEnd s1 = true /\
    scanToken s1 = Some (eof, s2) /\ type eof = TOKEN_EOF /\
    start s1 = 0 /\ start s2 = 3 /\
    current s2 = current s1 /\ line s2 = line s1 /\
    scanToken s2 = Some (eof, s2).
Proof.
  do 4 eexists.
  split; [vm_compute; reflexivity|].
  split; [reflexivity|].
  split; [vm_compute; reflexivity|].
  repeat split; reflexivity.
Qed.

Lemma keyword_recognition_witness :
  scansAs (list_ascii_of_string "and") TOKEN_AND /\
  scansAs (list_ascii_of_string "an") TOKEN_IDENTIFIER /\
  scansAs (list_ascii_of_string "andy") TOKEN_IDENTIFIER /\
  scansAs (list_ascii_of_string "AND") TOKEN_IDENTIFIER.
Proof.
  assert (Hin : In ("and"%string, TOKEN_AND) keywords) by (left; reflexivity).
  repeat split.
  - exact (proj1 keyword_recognition _ _ Hin).
  - apply (proj1 (proj2 keyword_recognition) _ _ _ Hin); [split; reflexivity|].
    left. exists ["d"]. split; [discriminate | reflexivity].
  - apply (proj1 (proj2 keyword_recognition) _ _ _ Hin); [split; reflexivity|].
    right. left. exists ["y"]. split; [discriminate | reflexivity].
  - apply (proj1 (proj2 keyword_recognition) _ _ _ Hin); [split; reflexivity|].
    right. right. split; [reflexivity | discriminate].
Defined.

Lemma scanToken_eof_idempotent_witness :
  scanToken (mkScanner (list_ascii_of_string "abc") 0 3 1) =
    Some (mkToken TOKEN_EOF (InSource 3) 0 1,
          mkScanner (list_ascii_of_string "abc") 3 3 1) /\
  current (mkScanner (list_ascii_of_string "abc") 3 3 1) = 3 /\
  line (mkScanner (list_ascii_of_string "abc") 3 3 1) = 1%Z /\
  scanToken (mkScanner (list_ascii_of_string "abc") 3 3 1) =
    Some (mkToken TOKEN_EOF (InSource 3) 0 1,
          mkScanner (list_ascii_of_string "abc") 3 3 1) /\
  (forall n,
     scanTimes (S n) (mkScanner (list_ascii_of_string "abc") 0 3 1) =
       Some (repeat (mkToken TOKEN_EOF (InSource 3) 0 1) (S n),
             mkScanner (list_ascii_of_string "abc") 3 3 1)).
Proof.
  exact (scanToken_eof_idempotent
           (mkScanner (list_ascii_of_string "abc") 0 3 1) eq_refl).
Defined.

(** Scenario A of the specification. *)
Example scan_arithmetic :
  tokenTypes "1 + 2 * 3" =
    Some [TOKEN_NUMBER; TOKEN_PLUS; TOKEN_NUMBER; TOKEN_ASTERISK;
          TOKEN_NUMBER; TOKEN_EOF].
Proof. vm_compute. reflexivity. Qed.

(** Every spelling of the table, as a text of its own. *)
Example scan_keywords :
  map (fun e => tokenTypes (fst e)) keywords =
  map (fun e => Some [snd e; TOKEN_EOF]) keywords.
Proof. vm_compute. reflexivity. Qed.

(** A newline inside a would-be comment still counts: it is skipped as
    white space between the tokens of the comment's interior. *)
Example comment_newline_counted :
  scanTimes 3 (initScanner ["/"; "*"; LF; "*"; "/"]) =
    Some ([ mkToken TOKEN_SLASH (InSource 0) 1 1;
            mkToken TOKEN_ASTERISK (InSource 1) 1 1;
            mkToken TOKEN_ASTERISK (InSource 3) 1 2 ],
          mkScanner ["/"; "*"; LF; "*"; "/"] 3 4 2).
Proof. vm_compute. reflexivity. Qed.

End ScannerSpec.

(** ** The virtual machine *)

Module VmSpec.
Import VmC.

(** The index a [CONSTANT_LONG] operand denotes: three bytes, the first
    the most significant. *)
Definition bigEndian24 (b1 b2 b3 : byte) : Z :=
  (u8 b1 * 65536 + u8 b2 * 256 + u8 b3)%Z.

(** The four binary instructions with the operator of each. *)
Definition binaryOps : list (OpCode * (Value -> Value -> Value)) :=
  [ (OP_ADD, PrimFloat.add); (OP_SUBTRACT, PrimFloat.sub);
    (OP_MULTIPLY, PrimFloat.mul); (OP_DIVIDE, PrimFloat.div) ].

(** The bytes of the code still ahead of [ip]. *)
Definition remaining (vm : VM) : nat :=
  List.length (code (chunk vm)) - ip vm.

(** A call that, when it returns, has left the chunk alone and has not
    moved [ip] backwards. *)
Definition forward {A : Type} (m : M A) : Prop :=
  forall vm a vm', m vm = Ok a vm' ->
    chunk vm' = chunk vm /\ ip vm <= ip vm'.

Section Facts.
Context {H : Headers}.

(** *** The [switch] *)

Lemma isOp_same (op : OpCode) : isOp (opcode op) op = true.
Proof. unfold isOp. now apply byte_dec_lb. Qed.

Lemma isOp_other (op op' : OpCode) :
  op <> op' -> isOp (opcode op) op' = false.
Proof.
  intro Hne. unfold isOp.
  destruct (Byte.eqb (opcode op) (opcode op')) eqn:E; [|reflexivity].
  apply byte_dec_bl, opcode_inj in E. contradiction.
Qed.

Lemma isOp_unknown (b : byte) :
  (forall op, b <> opcode op) -> forall op, isOp b op = false.
Proof.
  intros Hb op. unfold isOp.
  destruct (Byte.eqb b (opcode op)) eqn:E; [|reflexivity].
  apply byte_dec_bl in E. now apply Hb in E.
Qed.

Lemma READ_BYTE_at (vm : VM) (b : byte) :
  nth_error (code (chunk vm)) (ip vm) = Some b ->
  READ_BYTE vm = Ok b (setIp vm (S (ip vm))).
Proof. intro E. unfold READ_BYTE. now rewrite E. Qed.

Ltac fetch E :=
  unfold step, bindM; rewrite (READ_BYTE_at _ _ E).

Ltac dispatch :=
  repeat first
    [ rewrite isOp_same
    | rewrite isOp_other by discriminate ].

(** *** The stack *)

Lemma push_ok (v : Value) (vm : VM) :
  stackTop vm < STACK_MAX ->
  push v vm = Ok tt (setStackTop (store vm (stackTop vm) v) (S (stackTop vm))).
Proof.
  intro Hlt. unfold push, inStack.
  destruct (Nat.ltb_spec STACK_MAX (stackTop vm)); [lia|].
  destruct (Nat.ltb_spec (stackTop vm) STACK_MAX); [reflexivity | lia].
Qed.

(** On a full stack the test passes and the store falls outside the
    array. *)
Lemma push_full (v : Value) (vm : VM) :
  stackTop vm = STACK_MAX -> push v vm = Undefined vm.
Proof.
  intro E. unfold push, inStack. rewrite E.
  rewrite Nat.ltb_irrefl. reflexivity.
Qed.

Lemma push_overflow (v : Value) (vm : VM) :
  STACK_MAX < stackTop vm ->
  push v vm = Exit 1 ("Stack overflow" ++ newline) vm.
Proof.
  intro Hlt. unfold push.
  destruct (Nat.ltb_spec STACK_MAX (stackTop vm)); [reflexivity | lia].
Qed.

Lemma pop_ok (vm : VM) (n : nat) :
  stackTop vm = S n -> n < STACK_MAX ->
  pop vm = Ok (stack vm n) (setStackTop vm n).
Proof.
  intros E Hlt. unfold pop, inStack. rewrite E.
  cbn [Nat.eqb Nat.sub setStackTop stackTop stack]. rewrite Nat.sub_0_r.
  destruct (Nat.ltb_spec n STACK_MAX); [reflexivity | lia].
Qed.

Lemma pushAll_ok (vs : list Value) :
  forall vm, stackTop vm + List.length vs <= STACK_MAX ->
  exists vm', pushAll vs vm = Ok tt vm' /\
              stackTop vm' = stackTop vm + List.length vs /\
              chunk vm' = chunk vm /\ ip vm' = ip vm.
Proof.
  induction vs as [|v vs IH]; intros vm Hlen; simpl in *.
  - exists vm. unfold ret. repeat split; lia.
  - unfold bindM. rewrite push_ok by lia.
    destruct (IH (setStackTop (store vm (stackTop vm) v) (S (stackTop vm))))
      as (vm' & E & Htop & Hc & Hi); [simpl; lia|].
    exists vm'. rewrite E. simpl in *. repeat split; auto; lia.
Qed.

Lemma pushAll_app (vs ws : list Value) (vm : VM) :
  pushAll (vs ++ ws) vm = bindM (pushAll vs) (fun _ => pushAll ws) vm.
Proof.
  revert vm. induction vs as [|v vs IH]; intro vm; simpl.
  - reflexivity.
  - unfold bindM. destruct (push v vm); auto.
Qed.

(** Pushes that start within the array never take the overflow branch: a
    push on a full stack is stopped by its store, not by the test. *)
Lemma pushAll_no_exit (vs : list Value) :
  forall vm status err vm',
    stackTop vm <= STACK_MAX -> pushAll vs vm <> Exit status err vm'.
Proof.
  induction vs as [|v vs IH]; intros vm status err vm' Hle; cbn [pushAll].
  - discriminate.
  - unfold bindM.
    destruct (Nat.eq_dec (stackTop vm) STACK_MAX) as [E|Hne].
    + rewrite push_full by exact E. discriminate.
    + rewrite push_ok by lia. apply IH. cbn. lia.
Qed.

(** C5, as amended.  [push] ends the process with the overflow diagnostic
    exactly when [stackTop] is above [stack + STACK_MAX], and stores the
    value and moves [stackTop] up exactly when [stackTop] is below it; so
    from an empty stack any [STACK_MAX] pushes, or fewer, all return, and
    no sequence of [STACK_MAX + 1] pushes or fewer takes the overflow
    branch. *)
Theorem push_overflow_boundary (vm : VM) (v : Value) :
  (STACK_MAX < stackTop vm <->
     push v vm = Exit 1 ("Stack overflow" ++ newline) vm) /\
  (stackTop vm < STACK_MAX <->
     push v vm =
       Ok tt (setStackTop (store vm (stackTop vm) v) (S (stackTop vm)))) /\
  (forall vs : list Value,
     List.length vs <= STACK_MAX ->
     exists vm', pushAll vs (setStackTop vm 0) = Ok tt vm' /\
                 stackTop vm' = List.length vs) /\
  (forall vs : list Value,
     List.length vs <= STACK_MAX + 1 ->
     forall status err vm',
       pushAll vs (setStackTop vm 0) <> Exit status err vm').
Proof.
  split; [|split; [|split]].
  - split; [apply push_overflow|].
    intro E. destruct (Nat.lt_trichotomy (stackTop vm) STACK_MAX)
      as [Hlt|[Heq|Hgt]]; [| |exact Hgt].
    + rewrite push_ok in E by exact Hlt. discriminate E.
    + rewrite push_full in E by exact Heq. discriminate E.
  - split; [apply push_ok|].
    intro E. destruct (Nat.lt_trichotomy (stackTop vm) STACK_MAX)
      as [Hlt|[Heq|Hgt]]; [exact Hlt| |].
    + rewrite push_full in E by exact Heq. discriminate E.
    + rewrite push_overflow in E by exact Hgt. discriminate E.
  - intros vs Hlen.
    destruct (pushAll_ok vs (setStackTop vm 0)) as (vm' & E & Htop & _);
      [simpl; lia|].
    exists vm'. split; [exact E | exact Htop].
  - intros vs _ status err vm'. apply pushAll_no_exit. cbn. lia.
Qed.

(** C6.  [pop] on an empty stack ends the process with the underflow
    diagnostic and the machine exactly as it was; on a stack of [n + 1]
    values, [n + 1] no more than the array holds, it returns the value in
    slot [n] and leaves [n] values; and the value just pushed on a stack
    that is not full is the value popped. *)
Theorem pop_underflow_or_top (vm : VM) :
  (stackTop vm = 0 ->
     pop vm = Exit 1 ("Stack underflow!" ++ newline) vm) /\
  (forall n, stackTop vm = S n -> S n <= STACK_MAX ->
     pop vm = Ok (stack vm n) (setStackTop vm n)) /\
  (forall v, stackTop vm < STACK_MAX ->
     bindM (push v) (fun _ => pop) vm =
       Ok v (store vm (stackTop vm) v)).
Proof.
  split; [|split].
  - intro E. unfold pop. now rewrite E.
  - intros n E Hle. apply pop_ok; [exact E | lia].
  - intros v Hlt. unfold bindM. rewrite push_ok by exact Hlt.
    rewrite (pop_ok _ (stackTop vm)) by (cbn; auto).
    cbn. rewrite Nat.eqb_refl. destruct vm; reflexivity.
Qed.

(** C3, as amended.  [initVM] is what empties the stack; [interpret] sets
    the chunk and the instruction pointer and runs on the stack as it
    stands: a chunk that begins with [OP_RETURN] comes back with every slot
    and [stackTop] as they were before the call. *)
Theorem interpret_keeps_stack (vm : VM) (c : Chunk) :
  initVM vm = Ok tt (mkVM (chunk vm) (ip vm) (stack vm) 0) /\
  interpret c vm =
    run (S (List.length (code c))) (mkVM c 0 (stack vm) (stackTop vm)) /\
  (forall rest consts,
     interpret (mkChunk (opcode OP_RETURN :: rest) consts) vm =
       Some (Ok INTERPRET_OK
               (mkVM (mkChunk (opcode OP_RETURN :: rest) consts) 1
                     (stack vm) (stackTop vm)))).
Proof.
  split; [reflexivity|split].
  - unfold interpret, runFuel. simpl. now rewrite Nat.sub_0_r.
  - intros rest consts. unfold interpret, runFuel. simpl.
    unfold step, bindM, READ_BYTE. simpl. dispatch. reflexivity.
Qed.

(** C7.  A binary instruction run on a stack of at least two values, all
    of them in the array, calls [push] with [a op b], where [b] is the top
    value (popped first) and [a] the one under it; the push returns, and
    the result has taken the place of [a]. *)
Theorem binary_operand_order (vm : VM) (n : nat) (op : OpCode)
        (f : Value -> Value -> Value) :
  In (op, f) binaryOps ->
  nth_error (code (chunk vm)) (ip vm) = Some (opcode op) ->
  stackTop vm = S (S n) ->
  stackTop vm <= STACK_MAX ->
  step vm =
    bindM (push (f (stack vm n) (stack vm (S n)))) (fun _ => ret Continue)
          (mkVM (chunk vm) (S (ip vm)) (stack vm) n) /\
  step vm =
    Ok Continue
       (mkVM (chunk vm) (S (ip vm))
             (fun j => if Nat.eqb j n
                       then f (stack vm n) (stack vm (S n))
                       else stack vm j)
             (S n)).
Proof.
  intros Hop Hfetch Htop Hle.
  assert (Hstep : step vm =
    bindM (push (f (stack vm n) (stack vm (S n)))) (fun _ => ret Continue)
          (mkVM (chunk vm) (S (ip vm)) (stack vm) n)).
  { simpl in Hop.
    destruct Hop as [E|[E|[E|[E|[]]]]]; inversion E; subst op f; clear E;
      fetch Hfetch; dispatch;
      unfold BINARY_OP, bindM;
      rewrite (pop_ok _ (S n)) by (cbn; lia);
      rewrite (pop_ok _ n) by (cbn; lia);
      reflexivity. }
  split; [exact Hstep|].
  rewrite Hstep. unfold bindM.
  rewrite push_ok by (cbn; lia). reflexivity.
Qed.

(** *** The long index *)

Lemma u8_range (b : byte) : (0 <= u8 b < 256)%Z.
Proof. unfold u8. pose proof (Byte.to_N_bounded b). lia. Qed.

Lemma lor_disjoint (hi lo n : Z) :
  (0 <= n)%Z -> (0 <= lo < 2 ^ n)%Z ->
  Z.lor (hi * 2 ^ n) lo = (hi * 2 ^ n + lo)%Z.
Proof.
  intros Hn Hlo.
  assert (Hland : Z.land (hi * 2 ^ n) lo = 0%Z).
  { apply Z.bits_inj'. intros m Hm.
    rewrite Z.land_spec, Z.bits_0.
    destruct (Z.lt_ge_cases m n) as [Hlt|Hge].
    - rewrite Z.mul_pow2_bits_low by exact Hlt. reflexivity.
    - rewrite <- (Z.mod_small lo (2 ^ n)) by exact Hlo.
      rewrite Z.mod_pow2_bits_high by lia. apply andb_false_r. }
  rewrite <- Z.lxor_lor by exact Hland.
  symmetry. now apply Z.add_nocarry_lxor.
Qed.

Lemma long_index_value (b1 b2 b3 : byte) :
  Z.lor (Z.lor (Z.lor 0 (uint32 (Z.shiftl (u8 b1) 16)))
               (uint32 (Z.shiftl (u8 b2) 8)))
        (uint32 (u8 b3)) = bigEndian24 b1 b2 b3.
Proof.
  pose proof (u8_range b1). pose proof (u8_range b2).
  pose proof (u8_range b3).
  unfold uint32, bigEndian24. rewrite !Z.shiftl_mul_pow2 by lia.
  rewrite !Z.mod_small by lia. rewrite Z.lor_0_l.
  change 65536%Z with (2 ^ 16)%Z. change 256%Z with (2 ^ 8)%Z.
  rewrite (lor_disjoint (u8 b1) (u8 b2 * 2 ^ 8) 16) by lia.
  replace (u8 b1 * 2 ^ 16 + u8 b2 * 2 ^ 8)%Z
    with ((u8 b1 * 2 ^ 8 + u8 b2) * 2 ^ 8)%Z by lia.
  rewrite lor_disjoint by lia. lia.
Qed.

Lemma readLongIndex_at (vm : VM) (b1 b2 b3 : byte) :
  nth_error (code (chunk vm)) (ip vm) = Some b1 ->
  nth_error (code (chunk vm)) (ip vm + 1) = Some b2 ->
  nth_error (code (chunk vm)) (ip vm + 2) = Some b3 ->
  readLongIndex vm = Ok (bigEndian24 b1 b2 b3) (setIp vm (ip vm + 3)).
Proof.
  destruct vm as [c i st top]. cbn [chunk ip]. intros E1 E2 E3.
  replace (i + 1) with (S i) in E2 by lia.
  replace (i + 2) with (S (S i)) in E3 by lia.
  replace (i + 3) with (S (S (S i))) by lia.
  unfold readLongIndex, bindM, ret.
  rewrite (READ_BYTE_at (mkVM c i st top) b1 E1). unfold setIp; cbn [chunk ip stack stackTop].
  rewrite (READ_BYTE_at (mkVM c (S i) st top) b2 E2). unfold setIp; cbn [chunk ip stack stackTop].
  rewrite (READ_BYTE_at (mkVM c (S (S i)) st top) b3 E3).
  rewrite long_index_value. reflexivity.
Qed.

(** C8.  [OP_CONSTANT_LONG] reads its three operand bytes as one index,
    the first byte the most significant, and pushes the constant at that
    index: on a stack that is not full the turn ends with that constant in
    the slot [stackTop] pointed at, [stackTop] one slot up, every other
    slot as it was and [ip] past the operand.  The bytes 00 01 01 denote
    index 257. *)
Theorem constant_long_big_endian (vm : VM) (b1 b2 b3 : byte) (v : Value) :
  nth_error (code (chunk vm)) (ip vm) = Some (opcode OP_CONSTANT_LONG) ->
  nth_error (code (chunk vm)) (ip vm + 1) = Some b1 ->
  nth_error (code (chunk vm)) (ip vm + 2) = Some b2 ->
  nth_error (code (chunk vm)) (ip vm + 3) = Some b3 ->
  nth_error (constants (chunk vm)) (Z.to_nat (bigEndian24 b1 b2 b3)) = Some v ->
  stackTop vm < STACK_MAX ->
  readLongIndex (setIp vm (ip vm + 1)) =
    Ok (bigEndian24 b1 b2 b3) (setIp vm (ip vm + 4)) /\
  step vm =
    Ok Continue
       (mkVM (chunk vm) (ip vm + 4)
             (fun j => if Nat.eqb j (stackTop vm) then v else stack vm j)
             (S (stackTop vm))) /\
  bigEndian24 x00 x01 x01 = 257%Z.
Proof.
  intros Hfetch E1 E2 E3 Hv Hroom.
  assert (Hidx : readLongIndex (setIp vm (ip vm + 1)) =
                 Ok (bigEndian24 b1 b2 b3) (setIp vm (ip vm + 4))).
  { rewrite (readLongIndex_at (setIp vm (ip vm + 1)) b1 b2 b3); simpl.
    - unfold setIp. simpl. do 2 f_equal. lia.
    - exact E1.
    - replace (ip vm + 1 + 1) with (ip vm + 2) by lia. exact E2.
    - replace (ip vm + 1 + 2) with (ip vm + 3) by lia. exact E3. }
  split; [exact Hidx|split; [|reflexivity]].
  fetch Hfetch. dispatch.
  replace (S (ip vm)) with (ip vm + 1) by lia.
  unfold bindM in *. rewrite Hidx.
  unfold constantAt. cbn [setIp chunk]. rewrite Hv.
  rewrite push_ok by exact Hroom. reflexivity.
Qed.

(** *** Termination of [run] *)

Lemma forward_ret {A : Type} (a : A) : forward (ret a).
Proof. intros vm a' vm' E. inversion E. subst. split; [reflexivity | lia]. Qed.

Lemma forward_bind {A B : Type} (m : M A) (k : A -> M B) :
  forward m -> (forall a, forward (k a)) -> forward (bindM m k).
Proof.
  intros Hm Hk vm b vm' E. unfold bindM in E.
  destruct (m vm) as [a vm1| |] eqn:Em; try discriminate E.
  destruct (Hm _ _ _ Em) as [Hc Hi].
  destruct (Hk a _ _ _ E) as [Hc' Hi'].
  split; [congruence | lia].
Qed.

Lemma forward_push (v : Value) : forward (push v).
Proof.
  intros vm a vm' E. unfold push in E.
  destruct (STACK_MAX <? stackTop vm); [discriminate E|].
  destruct (inStack (stackTop vm)); inversion E; subst.
  split; [reflexivity | simpl; lia].
Qed.

Lemma forward_pop : forward pop.
Proof.
  intros vm a vm' E. unfold pop in E.
  destruct (stackTop vm =? 0); [discriminate E|].
  destruct (inStack _); inversion E; subst.
  split; [reflexivity | simpl; lia].
Qed.

Lemma forward_READ_BYTE : forward READ_BYTE.
Proof.
  intros vm a vm' E. unfold READ_BYTE in E.
  destruct (nth_error (code (chunk vm)) (ip vm)); inversion E; subst.
  split; [reflexivity | simpl; lia].
Qed.

Lemma forward_constantAt (index : Z) : forward (constantAt index).
Proof.
  intros vm a vm' E. unfold constantAt in E.
  destruct (nth_error (constants (chunk vm)) (Z.to_nat index));
    inversion E; subst.
  split; [reflexivity | lia].
Qed.

Create HintDb forward_db.
#[local] Hint Resolve forward_ret forward_push forward_pop forward_READ_BYTE
  forward_constantAt : forward_db.

Ltac forward_solve :=
  repeat first
    [ apply forward_bind; [|intro]
    | solve [auto with forward_db] ].

(** One turn that goes on has used up at least one byte of the code. *)
Lemma step_consumes (vm vm' : VM) (nx : Next) :
  step vm = Ok nx vm' -> remaining vm' < remaining vm.
Proof.
  unfold step. intro E. unfold bindM at 1 in E.
  destruct (READ_BYTE vm) as [b vm1| |] eqn:Eb; try discriminate E.
  assert (Hb : chunk vm1 = chunk vm /\ ip vm1 = S (ip vm) /\
               ip vm < List.length (code (chunk vm))).
  { unfold READ_BYTE in Eb.
    destruct (nth_error (code (chunk vm)) (ip vm)) eqn:En; inversion Eb.
    subst. simpl. repeat split.
    apply nth_error_Some. congruence. }
  destruct Hb as (Hc & Hi & Hlt).
  assert (Hf : chunk vm' = chunk vm1 /\ ip vm1 <= ip vm').
  { repeat match type of E with
           | (if ?c then _ else _) _ = _ => destruct c
           end;
    match type of E with
    | ?m vm1 = Ok _ _ =>
        assert (F : forward m)
          by (unfold BINARY_OP, READ_CONSTANT, readLongIndex; forward_solve);
        exact (F _ _ _ E)
    end. }
  destruct Hf as [Hc' Hi']. unfold remaining.
  rewrite Hc', Hc. lia.
Qed.

(** [run] does not use up the fuel [interpret] gives it: it always comes
    to a result. *)
Lemma run_total (fuel : nat) :
  forall vm, remaining vm < fuel -> exists o, run fuel vm = Some o.
Proof.
  induction fuel as [|fuel IH]; intros vm Hrem; [lia|].
  simpl. destruct (step vm) as [[|r] vm'| |] eqn:E; eauto.
  apply IH. apply step_consumes in E. lia.
Qed.

Lemma interpret_total (c : Chunk) (vm : VM) :
  exists o, interpret c vm = Some o.
Proof. unfold interpret. apply run_total. unfold runFuel, remaining. lia. Qed.

(** C10.  A fetched byte that is the number of no opcode does nothing but
    move [ip] past itself: the turn neither returns nor exits, and [run]
    goes on with the next byte. *)
Theorem unknown_opcode_skipped (vm : VM) (b : byte) :
  nth_error (code (chunk vm)) (ip vm) = Some b ->
  (forall op, b <> opcode op) ->
  step vm = Ok Continue (setIp vm (S (ip vm))) /\
  (forall fuel, run (S fuel) vm = run fuel (setIp vm (S (ip vm)))).
Proof.
  intros Hfetch Hb.
  assert (Hstep : step vm = Ok Continue (setIp vm (S (ip vm)))).
  { fetch Hfetch. rewrite !(isOp_unknown b Hb). reflexivity. }
  split; [exact Hstep|]. intro fuel. simpl. now rewrite Hstep.
Qed.

End Facts.
(** *** The properties at concrete machines *)

(** C3, the claim as stated, refuted: after [initVM], a first [interpret]
    leaves one value on the stack, and a second [interpret], of a chunk that
    only returns, starts on that stack and ends with the value still there. *)
Lemma interpret_not_reset_counterexample :
  exists vm0 vm1 vm2,
    initVM blankVM = Ok tt vm0 /\
    @interpret exampleHeaders pushOne vm0 = Some (Ok INTERPRET_OK vm1) /\
    stackTop vm1 = 1 /\
    @interpret exampleHeaders justReturn vm1 =
      @run exampleHeaders 2 (mkVM justReturn 0 (stack vm1) 1) /\
    @interpret exampleHeaders justReturn vm1 = Some (Ok INTERPRET_OK vm2) /\
    stackTop vm2 = 1 /\ stack vm2 0 = 1.5%float.
Proof.
  eexists. eexists. eexists.
  split; [reflexivity|]. split; [vm_compute; reflexivity|].
  repeat split; reflexivity.
Qed.

Lemma binary_operand_order_witness :
  @step exampleHeaders subVM =
    Ok Continue
       (mkVM (chunk subVM) 1
             (fun j => if Nat.eqb j 0 then (5 - 3)%float else stack subVM j)
             1).
Proof.
  refine (proj2 (@binary_operand_order exampleHeaders subVM 0 OP_SUBTRACT
                   PrimFloat.sub _ _ _ _)).
  - right. left. reflexivity.
  - reflexivity.
  - reflexivity.
  - cbn. lia.
Defined.

Lemma constant_long_big_endian_witness :
  readLongIndex (setIp longVM 1) = Ok 257%Z (setIp longVM 4) /\
  @step exampleHeaders longVM =
    Ok Continue
       (mkVM (chunk longVM) 4
             (fun j => if Nat.eqb j 0 then 42%float else stack longVM j) 1) /\
  bigEndian24 x00 x01 x01 = 257%Z.
Proof.
  refine (@constant_long_big_endian exampleHeaders longVM x00 x01 x01 42%float
            eq_refl eq_refl eq_refl eq_refl eq_refl _).
  cbn. lia.
Defined.

Lemma unknown_opcode_skipped_witness :
  @step exampleHeaders strayVM = Ok Continue (setIp strayVM 1) /\
  (forall fuel,
     @run exampleHeaders (S fuel) strayVM =
     @run exampleHeaders fuel (setIp strayVM 1)).
Proof.
  apply (@unknown_opcode_skipped exampleHeaders strayVM xff).
  - reflexivity.
  - intro op. destruct op; discriminate.
Defined.

(** The stray byte is stepped over and the [OP_RETURN] after it ends the
    run. *)
Example stray_byte_run :
  exists vm', @interpret exampleHeaders (chunk strayVM) blankVM =
                Some (Ok INTERPRET_OK vm') /\ ip vm' = 2.
Proof. eexists. split; [vm_compute; reflexivity | reflexivity]. Qed.

(** Scenario B of the specification: 3 and 4 pushed, added and negated
    leave the single value -7. *)
Example add_negate_run :
  exists vm', @interpret exampleHeaders addNegate blankVM =
                Some (Ok INTERPRET_OK vm') /\
              stackTop vm' = 1 /\ stack vm' 0 = (-7)%float.
Proof. eexists. split; [vm_compute; reflexivity | split; reflexivity]. Qed.

(** C5, the claim as stated, refuted.  With [STACK_MAX = 256], the 257th
    push onto an empty stack does not return: its test passes and its store
    is at [vm.stack[256]], outside the array of 256 slots. *)
Lemma push_past_array_counterexample :
  exists vm',
    @pushAll exampleHeaders (repeat 1%float 256) blankVM = Ok tt vm' /\
    stackTop vm' = 256 /\
    @push exampleHeaders 1%float vm' = Undefined vm' /\
    @pushAll exampleHeaders (repeat 1%float 257) blankVM = Undefined vm'.
Proof.
  destruct (@pushAll_ok exampleHeaders (repeat 1%float 256) blankVM)
    as (vm' & E & Htop & _); [cbn; lia|].
  cbn in Htop. exists vm'.
  assert (Ep : @push exampleHeaders 1%float vm' = Undefined vm')
    by (apply push_full; exact Htop).
  split; [exact E|]. split; [exact Htop|]. split; [exact Ep|].
  change (repeat 1%float 257) with (repeat 1%float 256 ++ [1%float]).
  rewrite pushAll_app. unfold bindM at 1. rewrite E.
  cbn [pushAll]. unfold bindM. rewrite Ep. reflexivity.
Qed.

(** With [STACK_MAX = 256]: 256 pushes return, and 257 pushes do not take
    the overflow branch. *)
Lemma push_overflow_boundary_witness :
  (exists vm', @pushAll exampleHeaders (repeat 1%float 256) blankVM = Ok tt vm' /\
               stackTop vm' = 256) /\
  (forall status err vm',
     @pushAll exampleHeaders (repeat 1%float 257) blankVM <>
       Exit status err vm').
Proof.
  split.
  - refine (proj1 (proj2 (proj2
              (@push_overflow_boundary exampleHeaders blankVM 2%float)))
              (repeat 1%float 256) _).
    cbn. lia.
  - refine (proj2 (proj2 (proj2
              (@push_overflow_boundary exampleHeaders blankVM 2%float)))
              (repeat 1%float 257) _).
    cbn. lia.
Defined.

(** [pop] on the empty stack exits and leaves the machine as it was; on
    the stack 5, 3 it returns 3 and leaves 5; after a push it returns the
    value pushed. *)
Lemma pop_underflow_or_top_witness :
  @pop exampleHeaders blankVM =
    Exit 1 ("Stack underflow!" ++ newline) blankVM /\
  @pop exampleHeaders subVM = Ok 3%float (setStackTop subVM 1) /\
  bindM (@push exampleHeaders 7%float) (fun _ => @pop exampleHeaders) blankVM =
    Ok 7%float (store blankVM 0 7%float).
Proof.
  split; [|split].
  - exact (proj1 (@pop_underflow_or_top exampleHeaders blankVM) eq_refl).
  - refine (proj1 (proj2 (@pop_underflow_or_top exampleHeaders subVM))
              1 eq_refl _).
    cbn. lia.
  - refine (proj2 (proj2 (@pop_underflow_or_top exampleHeaders blankVM))
              7%float _).
    cbn. lia.
Defined.

End VmSpec.

(* ================================================================== *)
(** * Part III: further properties *)
(* ================================================================== *)

(** ** The scanner: movement, lines and lexemes *)

Module ScannerMore.
Import ScannerC ScannerSpec.
Local Open Scope char_scope.

(** The newline bytes of a text. *)
Definition newlines (text : list ascii) : nat := count_occ ascii_dec text LF.

(** [scanner.line++], [k] times over. *)
Definition bumped (k : nat) (l : Z) : Z :=
  Nat.iter k (fun z => toInt (z + 1)) l.

(** [s'] is [s] moved forward inside the same buffer, with the same
    [start], the cursor still inside the buffer, and the line counter
    incremented once for each newline passed over. *)
Definition movedTo (s s' : Scanner) : Prop :=
  source s' = source s /\ start s' = start s /\
  current s <= current s' <= List.length (source s) /\
  exists k,
    newlines (firstn (current s') (source s)) =
      newlines (firstn (current s) (source s)) + k /\
    line s' = bumped k (line s).

(** The line counter of a scanner that started at line 1 and has passed
    the first [p] characters of [src]. *)
Definition lineAt (src : list ascii) (p : nat) : Z :=
  toInt (1 + Z.of_nat (newlines (firstn p src))).

(** The counter stands where [lineAt] says. *)
Definition counted (s : Scanner) : Prop :=
  line s = lineAt (source s) (current s).

(** Where [skipWhitespace] stops: on a character that is no white space
    and does not open a line comment. *)
Definition tokenStart (s : Scanner) : Prop :=
  ((peek s =? " ") || (peek s =? CR) || (peek s =? TAB)) = false /\
  (peek s =? LF) = false /\
  ((peek s =? "/") && (peekNext s =? "/")) = false.

(** What [scanToken] has done once white space is skipped and [start] set
    (state [s1]): it has moved forward by at least one character and built
    the token from the state it returns. *)
Definition lexemeScanned (s1 : Scanner) (tok : Token) (s' : Scanner) : Prop :=
  movedTo s1 s' /\ current s1 < current s' /\
  type tok <> TOKEN_EOF /\
  (tok = makeToken s' (type tok) /\ type tok <> TOKEN_ERROR \/
   tok = errorToken s' "Unterminated string." \/
   tok = errorToken s' "Unexpected character.").

(** A character inside a string literal: neither the quote nor the null
    byte. *)
Definition inString (c : ascii) : bool :=
  negb (c =? DQUOTE) && negb (c =? NUL).

(** A character of a line comment: neither the newline nor the null
    byte. *)
Definition inLine (c : ascii) : bool := negb (c =? LF) && negb (c =? NUL).

(** The operators of one or two characters: the character, the token with
    [=] after it, the token without. *)
Definition comparisons : list (ascii * TokenType * TokenType) :=
  [ ("!", TOKEN_BANG_EQUAL, TOKEN_BANG);
    ("=", TOKEN_EQUAL_EQUAL, TOKEN_EQUAL);
    ("<", TOKEN_LESS_EQUAL, TOKEN_LESS);
    (">", TOKEN_GREATER_EQUAL, TOKEN_GREATER) ].

(** The tokens that are one character whatever follows. *)
Definition punctuation : list (ascii * TokenType) :=
  [ ("(", TOKEN_LEFT_PAREN); (")", TOKEN_RIGHT_PAREN);
    ("{", TOKEN_LEFT_BRACE); ("}", TOKEN_RIGHT_BRACE);
    (";", TOKEN_SEMICOLON); (",", TOKEN_COMMA); (".", TOKEN_DOT);
    ("-", TOKEN_MINUS); ("+", TOKEN_PLUS); ("*", TOKEN_ASTERISK) ].

(** A character that neither starts a token nor is skipped. *)
Definition unexpected (c : ascii) : bool :=
  negb (isAlpha c || isDigit c
        || existsb (Ascii.eqb c)
             [ NUL; " "; CR; TAB; LF; "/"; "("; ")"; "{"; "}"; ";"; ",";
               "."; "-"; "+"; "*"; "!"; "="; "<"; ">"; DQUOTE ]).

(** Two blanks, a line comment, a newline and [x1 = 2]. *)
Definition sampleText : list ascii :=
  list_ascii_of_string "  // c" ++ LF :: list_ascii_of_string "x1 = 2".

(** *** [int] counters *)
Lemma bumped_add (j k : nat) (l : Z) :
  bumped (j + k) l = bumped k (bumped j l).
Proof. unfold bumped. rewrite Nat.add_comm. apply Nat.iter_add. Qed.

Lemma bumped_toInt (k : nat) (l : Z) :
  (INT_MIN <= l <= INT_MAX)%Z -> bumped k l = toInt (l + Z.of_nat k).
Proof.
  intro Hl. induction k as [|k IH].
  - cbn [bumped Nat.iter]. rewrite Z.add_0_r. symmetry. now apply toInt_small.
  - change (bumped (S k) l) with (toInt (bumped k l + 1)).
    rewrite IH, toInt_add. f_equal. lia.
Qed.

Lemma bumped_range (k : nat) (l : Z) :
  (INT_MIN <= l <= INT_MAX)%Z -> (INT_MIN <= bumped k l <= INT_MAX)%Z.
Proof. intro Hl. rewrite bumped_toInt by exact Hl. apply toInt_range. Qed.

(** *** Moving forward *)
Lemma firstn_snoc (A : Type) (d : A) (l : list A) :
  forall n, n < List.length l -> firstn (S n) l = firstn n l ++ [nth n l d].
Proof.
  induction l as [|a l IH]; intros n Hn; simpl in Hn; [lia|].
  destruct n as [|n]; [reflexivity|].
  change (a :: firstn (S n) l = a :: (firstn n l ++ [nth n l d])).
  f_equal. apply IH. lia.
Qed.

Lemma newlines_app (x y : list ascii) :
  newlines (x ++ y) = newlines x + newlines y.
Proof. apply count_occ_app. Qed.

Lemma newlines_firstn_le (l : list ascii) :
  forall p q, p <= q -> newlines (firstn p l) <= newlines (firstn q l).
Proof.
  induction l as [|a l IH]; intros p q Hle.
  - rewrite !firstn_nil. lia.
  - destruct p as [|p]; [cbn; lia|]. destruct q as [|q]; [lia|].
    cbn [firstn]. unfold newlines in *. cbn [count_occ].
    specialize (IH p q ltac:(lia)). destruct (ascii_dec a LF); lia.
Qed.

Lemma newlines_firstn_all (l : list ascii) (p : nat) :
  newlines (firstn p l) <= newlines l.
Proof.
  rewrite <- (firstn_skipn p l) at 2. rewrite newlines_app. lia.
Qed.

Lemma movedTo_refl (s : Scanner) :
  current s <= List.length (source s) -> movedTo s s.
Proof.
  intro H. unfold movedTo. repeat split; try lia.
  exists 0. split; [lia | reflexivity].
Qed.

Lemma movedTo_trans (s1 s2 s3 : Scanner) :
  movedTo s1 s2 -> movedTo s2 s3 -> movedTo s1 s3.
Proof.
  intros (Hs & Hst & Hc & j & Hj & Hl) (Hs' & Hst' & Hc' & k & Hk & Hl').
  unfold movedTo. rewrite Hs in Hc', Hk.
  repeat split; try congruence; try lia.
  exists (j + k). split; [lia|]. rewrite bumped_add, <- Hl. exact Hl'.
Qed.

(** [advance()] over a character that is not a newline. *)
Lemma movedTo_advance (s : Scanner) :
  isAtEnd s = false -> (peek s =? LF) = false -> movedTo s (advance_ s).
Proof.
  intros He Hl. pose proof (not_at_end_lt s He) as Hlt.
  unfold movedTo, advance_, advance, setCurrent.
  cbn [snd source start current line].
  repeat split; try lia.
  exists 0. split; [|reflexivity].
  rewrite (firstn_snoc _ NUL) by exact Hlt.
  rewrite newlines_app. unfold newlines at 2. cbn [count_occ].
  fold (charAt s (current s)). fold (peek s).
  destruct (ascii_dec (peek s) LF) as [E|_]; [|lia].
  rewrite E in Hl. discriminate Hl.
Qed.

(** [scanner.line++; advance()] over a newline. *)
Lemma movedTo_newline (s : Scanner) :
  (peek s =? LF) = true -> movedTo s (advance_ (incLine s)).
Proof.
  intro Hl. apply Ascii.eqb_eq in Hl.
  assert (He : isAtEnd s = false) by (apply (peek_not_NUL s LF Hl); reflexivity).
  pose proof (not_at_end_lt s He) as Hlt.
  unfold movedTo, advance_, advance, setCurrent, incLine.
  cbn [snd source start current line].
  repeat split; try lia.
  exists 1. split; [|reflexivity].
  rewrite (firstn_snoc _ NUL) by exact Hlt.
  rewrite newlines_app. unfold newlines at 2. cbn [count_occ].
  fold (charAt s (current s)). fold (peek s).
  destruct (ascii_dec (peek s) LF) as [_|N]; [lia | contradiction].
Qed.

(** A scanner that has counted keeps counting. *)
Lemma movedTo_counted (s s' : Scanner) :
  movedTo s s' -> counted s -> counted s'.
Proof.
  intros (Hs & _ & _ & k & Hk & Hl) Hc. unfold counted, lineAt in *.
  rewrite Hl, Hc, Hs, Hk.
  rewrite bumped_toInt by apply toInt_range.
  rewrite toInt_add. f_equal. lia.
Qed.

(** What every turn of a loop keeps, the loop keeps; and it ends with its
    condition false. *)
Lemma while_invariant (P : Scanner -> Prop) (cond : Scanner -> bool)
      (body : Scanner -> Scanner) :
  (forall s, cond s = true -> P s -> P (body s)) ->
  forall fuel s s', P s -> while cond body fuel s = Some s' ->
                    P s' /\ cond s' = false.
Proof.
  intros Hstep fuel. induction fuel as [|fuel IH]; intros s s' HP E;
    cbn [while] in E; destruct (cond s) eqn:Ec; try discriminate E.
  - inversion E. subst. auto.
  - apply (IH (body s) s'); auto.
  - inversion E. subst. auto.
Qed.

Lemma while_movedTo (cond : Scanner -> bool) (body : Scanner -> Scanner) :
  (forall s, cond s = true -> movedTo s (body s)) ->
  forall fuel s s',
    current s <= List.length (source s) ->
    while cond body fuel s = Some s' ->
    movedTo s s' /\ cond s' = false.
Proof.
  intros Hstep fuel s s' Hin E.
  apply (while_invariant (fun x => movedTo s x) cond body) with (fuel := fuel) (s := s).
  - intros x Hc Hx. apply (movedTo_trans _ _ _ Hx). now apply Hstep.
  - now apply movedTo_refl.
  - exact E.
Qed.

Lemma blank_not_end (s : Scanner) :
  ((peek s =? " ") || (peek s =? CR) || (peek s =? TAB)) = true ->
  isAtEnd s = false /\ (peek s =? LF) = false.
Proof.
  intro Hb. unfold isAtEnd. fold (peek s).
  destruct (Ascii.eqb_spec (peek s) NUL) as [E|_];
    [rewrite E in Hb; discriminate Hb|].
  destruct (Ascii.eqb_spec (peek s) LF) as [E|_];
    [rewrite E in Hb; discriminate Hb|]. auto.
Qed.

(** *** [skipWhitespace] *)
Lemma skipWhitespaceLoop_movedTo (fuel : nat) :
  forall s s',
    current s <= List.length (source s) ->
    skipWhitespaceLoop fuel s = Some s' ->
    movedTo s s' /\ tokenStart s'.
Proof.
  induction fuel as [|fuel IH]; intros s s' Hin E; [discriminate E|].
  cbn [skipWhitespaceLoop] in E. cbv zeta in E.
  destruct ((peek s =? " ") || (peek s =? CR) || (peek s =? TAB)) eqn:Eb.
  { destruct (blank_not_end s Eb) as [He Hl].
    pose proof (movedTo_advance s He Hl) as Hm.
    destruct (IH (advance_ s) s') as [Hm' Hstop]; [|exact E|].
    - destruct Hm as (Hs & _ & Hc & _). rewrite Hs. lia.
    - split; [exact (movedTo_trans _ _ _ Hm Hm') | exact Hstop]. }
  destruct (peek s =? LF) eqn:El.
  { pose proof (movedTo_newline s El) as Hm.
    destruct (IH (advance_ (incLine s)) s') as [Hm' Hstop]; [|exact E|].
    - destruct Hm as (Hs & _ & Hc & _). rewrite Hs. lia.
    - split; [exact (movedTo_trans _ _ _ Hm Hm') | exact Hstop]. }
  destruct (peek s =? "/") eqn:Es.
  - destruct (peekNext s =? "/") eqn:En.
    + destruct (while (fun s0 => negb (peek s0 =? LF) && negb (isAtEnd s0))
                      advance_ (loopFuel s) s) as [s1|] eqn:Ew;
        [|discriminate E].
      cbn [bind] in E.
      destruct (while_movedTo
                  (fun s0 => negb (peek s0 =? LF) && negb (isAtEnd s0)) advance_)
        with (fuel := loopFuel s) (s := s) (s' := s1)
        as [Hm _]; [|exact Hin|exact Ew|].
      * intros x Hx. apply andb_true_iff in Hx. destruct Hx as [H1 H2].
        apply negb_true_iff in H1, H2. now apply movedTo_advance.
      * destruct (IH s1 s') as [Hm' Hstop]; [|exact E|].
        -- destruct Hm as (Hs & _ & Hc & _). rewrite Hs. lia.
        -- split; [exact (movedTo_trans _ _ _ Hm Hm') | exact Hstop].
    + apply Ascii.eqb_eq in Es. rewrite Es in E.
      cbn [Ascii.eqb Bool.eqb andb] in E. inversion E. subst s'.
      split; [now apply movedTo_refl|].
      unfold tokenStart. rewrite Eb, El, En. rewrite andb_false_r. auto.
  - inversion E. subst s'.
    split; [now apply movedTo_refl|].
    unfold tokenStart. rewrite Eb, El, Es. auto.
Qed.

(** *** The lexeme after the white space *)
Lemma identifierType_kind (s : Scanner) :
  identifierType s <> TOKEN_EOF /\ identifierType s <> TOKEN_ERROR.
Proof.
  unfold identifierType, checkKeyword. cbv zeta.
  repeat match goal with
         | |- context [if ?b then _ else _] => destruct b
         end; split; discriminate.
Qed.

Lemma movedTo_in (s s' : Scanner) :
  movedTo s s' -> current s' <= List.length (source s').
Proof. intros (Hs & _ & Hc & _). rewrite Hs. lia. Qed.

Lemma identifier_scanned (s : Scanner) (tok : Token) (s' : Scanner) :
  current s <= List.length (source s) ->
  identifier s = Some (tok, s') ->
  movedTo s s' /\ tok = makeToken s' (type tok) /\
  type tok <> TOKEN_EOF /\ type tok <> TOKEN_ERROR.
Proof.
  intros Hin E. unfold identifier in E.
  destruct (while _ advance_ (loopFuel s) s) as [s1|] eqn:Ew; [|discriminate E].
  cbn [bind] in E. inversion E. subst s' tok. clear E.
  destruct (while_movedTo
              (fun s0 => isAlpha (peek s0) || isDigit (peek s0)) advance_)
    with (fuel := loopFuel s) (s := s) (s' := s1) as [Hm _];
    [|exact Hin|exact Ew|].
  - intros x Hx. apply movedTo_advance.
    + apply (peek_not_NUL x _ eq_refl). now apply idChar_not_NUL.
    + destruct (Ascii.eqb_spec (peek x) LF) as [El|]; [|reflexivity].
      rewrite El in Hx. discriminate Hx.
  - split; [exact Hm|]. split; [reflexivity|].
    apply identifierType_kind.
Qed.

Lemma digit_step (x : Scanner) :
  isDigit (peek x) = true -> movedTo x (advance_ x).
Proof.
  intro Hx. apply movedTo_advance.
  - apply (peek_not_NUL x _ eq_refl). now apply digit_not_NUL.
  - destruct (Ascii.eqb_spec (peek x) LF) as [El|]; [|reflexivity].
    rewrite El in Hx. discriminate Hx.
Qed.

Lemma number_scanned (s : Scanner) (tok : Token) (s' : Scanner) :
  current s <= List.length (source s) ->
  number s = Some (tok, s') ->
  movedTo s s' /\ tok = makeToken s' TOKEN_NUMBER.
Proof.
  intros Hin E. unfold number in E.
  destruct (while _ advance_ (loopFuel s) s) as [s1|] eqn:Ew; [|discriminate E].
  cbn [bind] in E.
  destruct (while_movedTo (fun s0 => isDigit (peek s0)) advance_)
    with (fuel := loopFuel s) (s := s) (s' := s1) as [Hm _];
    [exact digit_step|exact Hin|exact Ew|].
  destruct ((peek s1 =? ".") && isDigit (peekNext s1)) eqn:Ed.
  - destruct (while _ advance_ (loopFuel (advance_ s1)) (advance_ s1))
      as [s2|] eqn:Ew2; [|discriminate E].
    cbn [bind] in E. inversion E. subst s' tok. clear E.
    apply andb_true_iff in Ed. destruct Ed as [Ed _].
    apply Ascii.eqb_eq in Ed.
    assert (Hm1 : movedTo s1 (advance_ s1)).
    { apply movedTo_advance.
      - apply (peek_not_NUL s1 _ Ed). reflexivity.
      - rewrite Ed. reflexivity. }
    destruct (while_movedTo (fun s0 => isDigit (peek s0)) advance_)
      with (fuel := loopFuel (advance_ s1)) (s := advance_ s1) (s' := s2)
      as [Hm2 _]; [exact digit_step| |exact Ew2|].
    + exact (movedTo_in _ _ Hm1).
    + split; [|reflexivity].
      exact (movedTo_trans _ _ _ Hm (movedTo_trans _ _ _ Hm1 Hm2)).
  - cbn [bind] in E. inversion E. subst s' tok. auto.
Qed.

Lemma string_scanned (s : Scanner) (tok : Token) (s' : Scanner) :
  current s <= List.length (source s) ->
  string_ s = Some (tok, s') ->
  movedTo s s' /\
  (tok = makeToken s' TOKEN_STRING /\ current s < current s' \/
   tok = errorToken s' "Unterminated string." /\ isAtEnd s' = true).
Proof.
  intros Hin E. unfold string_ in E.
  destruct (while _ _ (loopFuel s) s) as [s1|] eqn:Ew; [|discriminate E].
  cbn [bind] in E.
  destruct (while_movedTo
              (fun s0 => negb (peek s0 =? DQUOTE) && negb (isAtEnd s0))
              (fun s0 => advance_ (if peek s0 =? LF then incLine s0 else s0)))
    with (fuel := loopFuel s) (s := s) (s' := s1) as [Hm Hc];
    [|exact Hin|exact Ew|].
  - intros x Hx. apply andb_true_iff in Hx. destruct Hx as [_ Hx].
    apply negb_true_iff in Hx.
    destruct (peek x =? LF) eqn:El.
    + now apply movedTo_newline.
    + now apply movedTo_advance.
  - destruct (isAtEnd s1) eqn:He.
    + inversion E. subst s' tok. split; [exact Hm|]. right. auto.
    + inversion E. subst s' tok. clear E.
      cbv beta in Hc. cbn [negb] in Hc. rewrite andb_true_r in Hc.
      apply negb_false_iff, Ascii.eqb_eq in Hc.
      assert (Hm1 : movedTo s1 (advance_ s1)).
      { apply movedTo_advance; [exact He|]. rewrite Hc. reflexivity. }
      split; [exact (movedTo_trans _ _ _ Hm Hm1)|].
      left. split; [reflexivity|].
      destruct Hm as (_ & _ & Hcur & _). cbn. lia.
Qed.

Lemma match_scanned (s : Scanner) :
  current s <= List.length (source s) ->
  movedTo s (snd (match_ "=" s)).
Proof.
  intro Hin. unfold match_. destruct (isAtEnd s) eqn:He.
  - now apply movedTo_refl.
  - destruct (charAt s (current s) =? "=") eqn:Ec; cbn [negb snd].
    + apply (movedTo_advance s He). fold (peek s) in Ec.
      apply Ascii.eqb_eq in Ec. rewrite Ec. reflexivity.
    + now apply movedTo_refl.
Qed.

(** [scanToken], taken apart: the white space skipped, then either the end
    of the text or one lexeme. *)
Lemma scanToken_scanned (s : Scanner) (tok : Token) (s' : Scanner) :
  current s <= List.length (source s) ->
  scanToken s = Some (tok, s') ->
  exists s0,
    skipWhitespace s = Some s0 /\ movedTo s s0 /\ tokenStart s0 /\
    (isAtEnd s0 = true /\ tok = makeToken s' TOKEN_EOF /\
     s' = setStart s0 (current s0) \/
     isAtEnd s0 = false /\ lexemeScanned (setStart s0 (current s0)) tok s').
Proof.
  intros Hin E. unfold scanToken in E.
  destruct (skipWhitespace s) as [s0|] eqn:Es; [|discriminate E].
  cbn [bind] in E. cbv zeta in E.
  destruct (skipWhitespaceLoop_movedTo _ _ _ Hin Es) as [Hm Hstart].
  exists s0. split; [reflexivity|]. split; [exact Hm|]. split; [exact Hstart|].
  pose proof (movedTo_in _ _ Hm) as Hin0.
  change (isAtEnd (setStart s0 (current s0))) with (isAtEnd s0) in E.
  destruct (isAtEnd s0) eqn:He.
  { left. inversion E. subst. auto. }
  right. split; [reflexivity|].
  set (s1 := setStart s0 (current s0)) in *.
  assert (He1 : isAtEnd s1 = false) by exact He.
  assert (Hl1 : (peek s1 =? LF) = false) by (destruct Hstart as (_ & Hl & _); exact Hl).
  assert (Hin1 : current s1 <= List.length (source s1)) by exact Hin0.
  pose proof (movedTo_advance s1 He1 Hl1) as Hm2.
  unfold advance in E. cbv zeta in E.
  change (setCurrent s1 (S (current s1))) with (advance_ s1) in E.
  set (s2 := advance_ s1) in *.
  assert (Hlt : current s1 < current s2) by (cbn; lia).
  pose proof (movedTo_in _ _ Hm2) as Hin2.
  set (c := charAt s2 (current s2 - 1)) in *. clearbody c.
  clearbody s2. clear Es Hm Hin Hstart He Hin0.
  unfold lexemeScanned.
  destruct (isAlpha c).
  { destruct (identifier_scanned _ _ _ Hin2 E) as (Hm3 & Ht & Hk1 & Hk2).
    pose proof (movedTo_trans _ _ _ Hm2 Hm3) as Hm4.
    destruct Hm3 as (_ & _ & Hc3 & _).
    repeat split; try exact Hm4; try lia; try exact Hk1; apply Hm4 || auto. }
  destruct (isDigit c).
  { destruct (number_scanned _ _ _ Hin2 E) as (Hm3 & Ht).
    pose proof (movedTo_trans _ _ _ Hm2 Hm3) as Hm4.
    destruct Hm3 as (_ & _ & Hc3 & _). subst tok.
    split; [exact Hm4|]. split; [lia|]. split; [discriminate|].
    left. split; [reflexivity | discriminate]. }
  repeat match type of E with
         | (if c =? DQUOTE then _ else _) = _ => fail 1
         | (if ?b then _ else _) = _ =>
             destruct b;
             [ first
                 [ inversion E; subst tok s';
                   split; [exact Hm2|]; split; [exact Hlt|];
                   split; [discriminate|];
                   left; split; [reflexivity | discriminate]
                 | unfold twoChar in E;
                   pose proof (match_scanned s2 Hin2) as Hm3;
                   destruct (match_ "=" s2) as [m s3]; cbn [snd] in Hm3;
                   pose proof (movedTo_trans _ _ _ Hm2 Hm3) as Hm4;
                   destruct Hm3 as (_ & _ & Hc3 & _);
                   inversion E; subst tok s';
                   split; [exact Hm4|]; split; [lia|];
                   destruct m;
                   (split; [discriminate|];
                    left; split; [reflexivity | discriminate]) ]
             | ]
         end.
  destruct (c =? DQUOTE).
  - destruct (string_scanned _ _ _ Hin2 E) as (Hm3 & Ht).
    pose proof (movedTo_trans _ _ _ Hm2 Hm3) as Hm4.
    destruct Hm3 as (_ & _ & Hc3 & _).
    split; [exact Hm4|]. split; [lia|].
    destruct Ht as [[Ht _]|[Ht _]]; subst tok.
    + split; [discriminate|]. left. split; [reflexivity | discriminate].
    + split; [discriminate|]. right. left. reflexivity.
  - inversion E. subst tok s'.
    split; [exact Hm2|]. split; [exact Hlt|]. split; [discriminate|].
    right. right. reflexivity.
Qed.

Lemma skipWhitespace_fixed (s : Scanner) :
  tokenStart s -> skipWhitespace s = Some s.
Proof.
  intros (Hb & Hl & Hs). unfold skipWhitespace, loopFuel.
  cbn [skipWhitespaceLoop]. cbv zeta. rewrite Hb, Hl.
  destruct (Ascii.eqb_spec (peek s) "/") as [E|_]; [|reflexivity].
  rewrite E in *. cbn [Ascii.eqb Bool.eqb andb] in *. rewrite Hs. reflexivity.
Qed.

(** X4.  From a cursor inside the buffer [skipWhitespace] returns with the
    cursor on a character that is no blank, no newline and not the first
    [/] of [//]; it has moved only forward and incremented the [int]
    counter [line] once for each newline it passed.  Skipping again from
    there changes nothing, and the token scanned from there is the token
    scanned from where it started. *)
Theorem skipWhitespace_stops_at_token (s : Scanner) :
  current s <= List.length (source s) ->
  (INT_MIN <= line s <= INT_MAX)%Z ->
  exists s',
    skipWhitespace s = Some s' /\
    source s' = source s /\ start s' = start s /\
    current s <= current s' <= List.length (source s) /\
    line s' = toInt (line s
                     + Z.of_nat (newlines (firstn (current s') (source s)))
                     - Z.of_nat (newlines (firstn (current s) (source s)))) /\
    ((peek s' =? " ") || (peek s' =? CR) || (peek s' =? TAB)
       || (peek s' =? LF)) = false /\
    ((peek s' =? "/") && (peekNext s' =? "/")) = false /\
    skipWhitespace s' = Some s' /\
    scanToken s' = scanToken s.
Proof.
  intros Hin Hline. destruct (skipWhitespace_total s) as (s' & E & _).
  destruct (skipWhitespaceLoop_movedTo _ _ _ Hin E) as [Hm Hstart].
  pose proof (skipWhitespace_fixed s' Hstart) as Hfix.
  exists s'. split; [exact E|].
  destruct Hm as (Hs & Hst & Hc & k & Hk & Hl).
  destruct Hstart as (Hb1 & Hb2 & Hb3).
  split; [exact Hs|]. split; [exact Hst|]. split; [exact Hc|].
  split; [rewrite Hl, bumped_toInt by exact Hline; f_equal; lia|].
  split; [rewrite Hb1, Hb2; reflexivity|].
  split; [exact Hb3|]. split; [exact Hfix|].
  unfold scanToken. rewrite E, Hfix. reflexivity.
Qed.

(** X1.  From a cursor inside the buffer [scanToken] returns, leaves the
    buffer as it is and the cursor inside it, and sets [start] at or after
    the old cursor.  Either the token is [TOKEN_EOF], nothing is consumed
    and the cursor is on the null byte; or at least one character is
    consumed. *)
Theorem scanToken_progress (s : Scanner) :
  current s <= List.length (source s) ->
  exists tok s',
    scanToken s = Some (tok, s') /\
    source s' = source s /\
    current s <= start s' /\ start s' <= current s' /\
    current s' <= List.length (source s) /\
    (type tok = TOKEN_EOF /\ current s' = start s' /\ isAtEnd s' = true \/
     type tok <> TOKEN_EOF /\ start s' < current s').
Proof.
  intro Hin. destruct (scanToken_total s) as (tok & s' & E & _).
  exists tok, s'. split; [exact E|].
  destruct (scanToken_scanned s tok s' Hin E)
    as (s0 & _ & Hm & _ & [(He & Ht & Hs')|(He & Hm' & Hlt & Hk & _)]).
  - destruct Hm as (Hs & _ & Hc & _). subst s' tok. cbn.
    split; [exact Hs|]. split; [lia|]. split; [lia|]. split; [lia|].
    left. auto.
  - destruct Hm as (Hs & _ & Hc & _).
    destruct Hm' as (Hs' & Hst' & Hc' & _). cbn in Hs', Hst', Hc', Hlt.
    rewrite Hs in Hc'. rewrite Hst'.
    split; [congruence|]. split; [lia|]. split; [lia|]. split; [lia|].
    right. split; [exact Hk | lia].
Qed.

(** X2.  A token that is no error token starts at [start] in the source
    and its length is [current - start] put into an [int], which is
    [current - start] itself when the text is no longer than [INT_MAX]; an
    error token points at one of two messages and has that message's
    length.  Either way its line is the scanner's line when the token was
    made. *)
Theorem token_spans_lexeme (s : Scanner) :
  current s <= List.length (source s) ->
  exists tok s',
    scanToken s = Some (tok, s') /\
    tline tok = line s' /\
    (type tok <> TOKEN_ERROR /\
     tstart tok = InSource (start s') /\
     start s' <= current s' /\
     length tok = toInt (Z.of_nat (current s' - start s')) /\
     ((Z.of_nat (List.length (source s)) <= INT_MAX)%Z ->
      length tok = Z.of_nat (current s' - start s')) \/
     type tok = TOKEN_ERROR /\
     (tstart tok = Literal "Unterminated string." /\ length tok = 20%Z \/
      tstart tok = Literal "Unexpected character." /\ length tok = 21%Z)).
Proof.
  intro Hin. destruct (scanToken_total s) as (tok & s' & E & _).
  exists tok, s'. split; [exact E|].
  assert (Hlen : forall ty,
            start s' <= current s' <= List.length (source s) ->
            length (makeToken s' ty) = toInt (Z.of_nat (current s' - start s')) /\
            ((Z.of_nat (List.length (source s)) <= INT_MAX)%Z ->
             length (makeToken s' ty) = Z.of_nat (current s' - start s'))).
  { intros ty Hle. unfold makeToken. cbn [length].
    replace (Z.of_nat (current s') - Z.of_nat (start s'))%Z
      with (Z.of_nat (current s' - start s')) by lia.
    split; [reflexivity|]. intro Hmax. apply toInt_small.
    unfold INT_MIN, INT_MAX in *. lia. }
  destruct (scanToken_scanned s tok s' Hin E)
    as (s0 & _ & Hm & _ & [(He & Ht & Hs')|(He & Hm' & Hlt & Hk & Hshape)]).
  - destruct Hm as (Hs & _ & Hc & _).
    assert (Hle : start s' <= current s' <= List.length (source s))
      by (subst s'; cbn; lia).
    subst tok. split; [reflexivity|]. left.
    split; [discriminate|]. split; [reflexivity|]. split; [lia|].
    apply Hlen. exact Hle.
  - destruct Hm as (Hs & _ & Hc & _).
    destruct Hm' as (Hs' & Hst' & Hc' & _). cbn in Hs', Hst', Hc', Hlt.
    assert (Hle : start s' <= current s' <= List.length (source s))
      by (rewrite Hst'; rewrite Hs in Hc'; lia).
    destruct Hshape as [[Ht Hne]|[Ht|Ht]].
    + split; [rewrite Ht; reflexivity|]. left. split; [exact Hne|].
      rewrite Ht. split; [reflexivity|]. split; [lia|].
      apply Hlen. exact Hle.
    + subst tok. split; [reflexivity|]. right. split; [reflexivity|]. left. auto.
    + subst tok. split; [reflexivity|]. right. split; [reflexivity|]. right. auto.
Qed.

Lemma scanToken_counted (s : Scanner) :
  current s <= List.length (source s) -> counted s ->
  exists tok s',
    scanToken s = Some (tok, s') /\
    source s' = source s /\
    current s <= current s' <= List.length (source s) /\
    counted s' /\ tline tok = line s'.
Proof.
  intros Hin Hcount. destruct (scanToken_total s) as (tok & s' & E & _).
  exists tok, s'. split; [exact E|].
  destruct (scanToken_scanned s tok s' Hin E)
    as (s0 & _ & Hm & _ & [(He & Ht & Hs')|(He & Hm' & Hlt & Hk & Hshape)]).
  - pose proof (movedTo_counted _ _ Hm Hcount) as Hc0.
    destruct Hm as (Hs & _ & Hc & _). subst s' tok. cbn.
    repeat split; try assumption; lia.
  - pose proof (movedTo_counted _ _ Hm Hcount) as Hc0.
    pose proof (movedTo_counted _ _ Hm' Hc0) as Hc'.
    destruct Hm as (Hs & _ & Hc & _).
    destruct Hm' as (Hs' & _ & Hcur' & _). cbn in Hs', Hcur'.
    rewrite Hs in Hcur'.
    split; [congruence|]. split; [lia|]. split; [exact Hc'|].
    destruct Hshape as [[Ht _]|[Ht|Ht]]; rewrite Ht; reflexivity.
Qed.

(** The tokens' lines are the counter's values at the places where the
    tokens end, one place after the other. *)
Lemma scanTimes_counted (n : nat) :
  forall s,
    current s <= List.length (source s) -> counted s ->
    exists toks s',
      scanTimes n s = Some (toks, s') /\
      List.length toks = n /\
      source s' = source s /\
      current s <= current s' <= List.length (source s) /\
      counted s' /\
      exists ps,
        map tline toks = map (lineAt (source s)) ps /\
        StronglySorted le ps /\
        Forall (fun p => current s <= p <= current s') ps.
Proof.
  induction n as [|n IH]; intros s Hin Hcount.
  - exists [], s. cbn. repeat split; try lia; try assumption.
    exists []. repeat split; constructor.
  - destruct (scanToken_counted s Hin Hcount)
      as (tok & s1 & E & Hs & Hc & Hcount1 & Ht).
    destruct (IH s1) as (toks & s' & E' & Hn & Hs' & Hc' & Hcount' & ps & Hps & Hsorted & Hall);
      [rewrite Hs; lia | exact Hcount1 |].
    rewrite Hs in Hc', Hps.
    exists (tok :: toks), s'. cbn [scanTimes]. rewrite E. cbn [bind fst snd].
    rewrite E'. cbn [bind fst snd].
    split; [reflexivity|]. split; [cbn; lia|]. split; [congruence|].
    split; [lia|]. split; [exact Hcount'|].
    exists (current s1 :: ps). cbn [map]. split; [|split].
    + rewrite Hps, Ht, Hcount1, Hs. reflexivity.
    + constructor; [exact Hsorted|].
      apply (Forall_impl _ (P := fun p => current s1 <= p <= current s'));
        [|exact Hall]. intros p Hp. lia.
    + constructor; [lia|].
      apply (Forall_impl _ (P := fun p => current s1 <= p <= current s'));
        [|exact Hall]. intros p Hp. lia.
Qed.

Lemma lineAt_plain (src : list ascii) (p : nat) :
  (1 + Z.of_nat (newlines src) <= INT_MAX)%Z ->
  lineAt src p = (1 + Z.of_nat (newlines (firstn p src)))%Z.
Proof.
  intro Hmax. unfold lineAt. apply toInt_small.
  pose proof (newlines_firstn_all src p). unfold INT_MIN, INT_MAX in *. lia.
Qed.

(** X3.  After any number of calls from [initScanner], [line] is 1
    incremented once for each newline byte before the cursor, and the
    tokens' lines are the values the counter had at places that follow one
    another in the text.  When the text has fewer than [INT_MAX] newlines
    the counter never wraps: [line] is one more than the newlines before
    the cursor, and the tokens' lines never decrease from one token to the
    next and lie between 1 and [line]. *)
Theorem lines_count_newlines (src : list ascii) (n : nat) :
  exists toks s',
    scanTimes n (initScanner src) = Some (toks, s') /\
    List.length toks = n /\
    current s' <= List.length src /\
    line s' = toInt (1 + Z.of_nat (newlines (firstn (current s') src))) /\
    (exists ps,
       map tline toks =
         map (fun p => toInt (1 + Z.of_nat (newlines (firstn p src)))) ps /\
       StronglySorted le ps /\ Forall (fun p => p <= current s') ps) /\
    ((1 + Z.of_nat (newlines src) <= INT_MAX)%Z ->
     line s' = (1 + Z.of_nat (newlines (firstn (current s') src)))%Z /\
     Forall (fun t => (1 <= tline t <= line s')%Z) toks /\
     StronglySorted Z.le (map tline toks)).
Proof.
  destruct (scanTimes_counted n (initScanner src)) as
    (toks & s' & E & Hn & Hs & Hin & Hcount & ps & Hps & Hsorted & Hall);
    [cbn; lia | reflexivity |].
  cbn [initScanner source current] in Hs, Hin, Hps, Hall.
  unfold counted in Hcount. rewrite Hs in Hcount.
  exists toks, s'.
  split; [exact E|]. split; [exact Hn|]. split; [lia|].
  split; [exact Hcount|]. split.
  { exists ps. split; [exact Hps|]. split; [exact Hsorted|].
    apply (Forall_impl _ (P := fun p => 0 <= p <= current s')); [|exact Hall].
    intros p Hp. lia. }
  intro Hmax.
  assert (Hline : line s' = (1 + Z.of_nat (newlines (firstn (current s') src)))%Z)
    by (rewrite Hcount; apply lineAt_plain; exact Hmax).
  split; [exact Hline|].
  assert (Hlines : Forall (fun z => (1 <= z <= line s')%Z) (map tline toks) /\
                   StronglySorted Z.le (map tline toks)).
  { rewrite Hps. clear Hps E Hn toks. rewrite Hline.
    induction Hsorted as [|p ps Hsorted IH Hp]; cbn [map].
    - split; constructor.
    - pose proof (Forall_inv Hall) as Hp0.
      pose proof (Forall_inv_tail Hall) as Hall'. cbv beta in Hp0.
      destruct (IH Hall') as [IH1 IH2].
      rewrite (lineAt_plain src p Hmax).
      pose proof (newlines_firstn_le src p (current s') ltac:(lia)).
      split; constructor; try assumption; try lia.
      apply Forall_map. rewrite Forall_forall in Hp |- *.
      intros q Hq. specialize (Hp q Hq).
      rewrite (lineAt_plain src q Hmax).
      pose proof (newlines_firstn_le src p q Hp). lia. }
  destruct Hlines as [H1 H2]. split; [|exact H2].
  apply Forall_map in H1. exact H1.
Qed.

(** *** Exact results

    A loop that advances while the character is of one class stops right
    after a run of that class. *)
Lemma while_run (cond : Scanner -> bool) (p : ascii -> bool) :
  (forall s, cond s = p (peek s)) ->
  forall run pre rest st l fuel,
    forallb p run = true -> p (nth 0 rest NUL) = false ->
    List.length run <= fuel ->
    while cond advance_ fuel
          (mkScanner (pre ++ run ++ rest) st (List.length pre) l) =
    Some (mkScanner (pre ++ run ++ rest) st
                    (List.length pre + List.length run) l).
Proof.
  intros Hcond run.
  induction run as [|c run IH]; intros pre rest st l fuel Hrun Hrest Hfuel.
  - destruct fuel; cbn [while]; rewrite Hcond, peek_past; cbn [app];
      rewrite Hrest; cbn [List.length]; rewrite !Nat.add_0_r; reflexivity.
  - cbn [forallb] in Hrun. apply andb_true_iff in Hrun.
    destruct Hrun as [Hc Hrun].
    destruct fuel as [|fuel]; [cbn [List.length] in Hfuel; lia|].
    cbn [while]. rewrite Hcond, peek_past. cbn [nth app]. rewrite Hc.
    unfold advance_, advance, setCurrent. cbn [snd source start current line].
    replace (S (List.length pre)) with (List.length (pre ++ [c]))
      by (rewrite length_app; simpl; lia).
    replace (pre ++ c :: run ++ rest) with ((pre ++ [c]) ++ run ++ rest)
      by (rewrite <- app_assoc; reflexivity).
    rewrite IH; [|exact Hrun|exact Hrest|cbn [List.length] in Hfuel; lia].
    rewrite length_app. cbn [List.length]. do 2 f_equal. lia.
Qed.

Ltac lists := repeat rewrite <- app_assoc; cbn [app]; reflexivity.
Ltac lens := repeat (rewrite length_app || cbn [List.length]); lia.

Lemma while_run_at (cond : Scanner -> bool) (p : ascii -> bool) :
  (forall s, cond s = p (peek s)) ->
  forall run pre rest src st cur l fuel,
    src = pre ++ run ++ rest -> cur = List.length pre ->
    forallb p run = true -> p (nth 0 rest NUL) = false ->
    List.length run <= fuel ->
    while cond advance_ fuel (mkScanner src st cur l) =
    Some (mkScanner src st (cur + List.length run) l).
Proof. intros Hcond run pre rest src st cur l fuel -> ->. now apply while_run. Qed.

Lemma peek_at (pre x src : list ascii) (st cur : nat) (l : Z) :
  src = pre ++ x -> cur = List.length pre ->
  peek (mkScanner src st cur l) = nth 0 x NUL.
Proof. intros -> ->. apply peek_past. Qed.

Lemma peekNext_at (pre x src : list ascii) (st cur : nat) (l : Z) :
  src = pre ++ x -> cur = List.length pre ->
  (nth 0 x NUL =? NUL) = false ->
  peekNext (mkScanner src st cur l) = nth 1 x NUL.
Proof.
  intros -> -> Hx. unfold peekNext, isAtEnd.
  fold (peek (mkScanner (pre ++ x) st (List.length pre) l)).
  rewrite peek_past, Hx. unfold charAt. cbn [source current].
  apply nth_past.
Qed.

Lemma while_string (run : list ascii) :
  forall pre rest st l fuel,
    forallb inString run = true -> inString (nth 0 rest NUL) = false ->
    List.length run <= fuel ->
    while (fun s => negb (peek s =? DQUOTE) && negb (isAtEnd s))
          (fun s => advance_ (if peek s =? LF then incLine s else s)) fuel
          (mkScanner (pre ++ run ++ rest) st (List.length pre) l) =
    Some (mkScanner (pre ++ run ++ rest) st
                    (List.length pre + List.length run)
                    (bumped (newlines run) l)).
Proof.
  induction run as [|c run IH]; intros pre rest st l fuel Hrun Hrest Hfuel.
  - destruct fuel; cbn [while]; unfold isAtEnd;
      fold (peek (mkScanner (pre ++ [] ++ rest) st (List.length pre) l));
      rewrite peek_past; cbn [app]; unfold inString in Hrest; rewrite Hrest;
      cbn [List.length]; rewrite !Nat.add_0_r; reflexivity.
  - cbn [forallb] in Hrun. apply andb_true_iff in Hrun.
    destruct Hrun as [Hc Hrun].
    destruct fuel as [|fuel]; [cbn [List.length] in Hfuel; lia|].
    cbn [while]. unfold isAtEnd.
    fold (peek (mkScanner (pre ++ (c :: run) ++ rest) st (List.length pre) l)).
    rewrite peek_past. cbn [nth app]. unfold inString in Hc. rewrite Hc.
    assert (Hstep :
      advance_ (if c =? LF
                then incLine (mkScanner (pre ++ c :: run ++ rest) st (List.length pre) l)
                else mkScanner (pre ++ c :: run ++ rest) st (List.length pre) l) =
      mkScanner ((pre ++ [c]) ++ run ++ rest) st (List.length (pre ++ [c]))
                (bumped (if c =? LF then 1 else 0) l)).
    { rewrite <- app_assoc, length_app. cbn [app List.length].
      replace (List.length pre + 1) with (S (List.length pre)) by lia.
      destruct (c =? LF); reflexivity. }
    rewrite Hstep.
    rewrite IH; [|exact Hrun|exact Hrest|cbn [List.length] in Hfuel; lia].
    rewrite <- app_assoc, length_app. cbn [app List.length].
    rewrite <- bumped_add.
    f_equal. f_equal; [lia|]. f_equal.
    unfold newlines. cbn [count_occ].
    destruct (Ascii.eqb_spec c LF) as [->|Hne].
    + destruct (ascii_dec LF LF) as [_|N]; [lia | contradiction].
    + destruct (ascii_dec c LF) as [E|_]; [contradiction | lia].
Qed.

Lemma digit_plain (c : ascii) :
  isDigit c = true ->
  isAlpha c = false /\ (c =? NUL) = false /\
  ((c =? " ") || (c =? CR) || (c =? TAB)) = false /\ (c =? LF) = false /\
  (c =? "/") = false.
Proof.
  intro Hc.
  destruct c as [[] [] [] [] [] [] [] []]; vm_compute in Hc;
    try discriminate Hc; vm_compute; auto.
Qed.

(** The first character of a token, read by [scanToken]: the white space
    is skipped (there is none), [start] is set, the character is consumed. *)
Ltac scan_first s Hstart He :=
  unfold scanToken;
  rewrite (skipWhitespace_fixed s Hstart);
  cbn [bind]; cbv zeta;
  change (isAtEnd (setStart s (current s))) with (isAtEnd s);
  rewrite He;
  unfold advance; cbv zeta;
  unfold setCurrent, setStart, charAt;
  cbn [source start current line Nat.sub];
  rewrite Nat.sub_0_r;
  fold (charAt s (current s)); fold (peek s).

Lemma scanToken_number_start (s : Scanner) :
  isDigit (peek s) = true ->
  scanToken s = number (mkScanner (source s) (current s) (S (current s)) (line s)).
Proof.
  intro Hd. destruct (digit_plain _ Hd) as (Ha & H0 & Hb & Hl & Hs).
  assert (Hstart : tokenStart s)
    by (unfold tokenStart; rewrite Hb, Hl, Hs; auto).
  pose proof (peek_not_NUL s _ eq_refl H0) as He.
  scan_first s Hstart He. rewrite Ha, Hd. reflexivity.
Qed.

(** X7.  A run of digits, wherever it stands in the text, is one
    [TOKEN_NUMBER]; a [.] after it belongs to the number only when a digit
    follows, and then the digits after it do too.  A [.] with no digit
    after it, like a second [.], is left for the next token. *)
Theorem number_lexemes (d : ascii) (ds : list ascii) :
  isDigit d = true -> forallb isDigit ds = true ->
  (forall pre rest st l,
     isDigit (nth 0 rest NUL) = false ->
     ((nth 0 rest NUL =? ".") && isDigit (nth 1 rest NUL)) = false ->
     scanToken (mkScanner (pre ++ (d :: ds) ++ rest) st (List.length pre) l) =
       Some (mkToken TOKEN_NUMBER (InSource (List.length pre))
                     (toInt (Z.of_nat (S (List.length ds)))) l,
             mkScanner (pre ++ (d :: ds) ++ rest) (List.length pre)
                       (List.length pre + S (List.length ds)) l)) /\
  (forall pre f fs rest st l,
     isDigit f = true -> forallb isDigit fs = true ->
     isDigit (nth 0 rest NUL) = false ->
     scanToken (mkScanner (pre ++ (d :: ds) ++ "." :: (f :: fs) ++ rest) st
                          (List.length pre) l) =
       Some (mkToken TOKEN_NUMBER (InSource (List.length pre))
                     (toInt (Z.of_nat (List.length ds + List.length fs + 3))) l,
             mkScanner (pre ++ (d :: ds) ++ "." :: (f :: fs) ++ rest)
                       (List.length pre)
                       (List.length pre + (List.length ds + List.length fs + 3))
                       l)).
Proof.
  intros Hd Hds. split.
  - intros pre rest st l Hrest Hdot.
    set (src := pre ++ (d :: ds) ++ rest).
    assert (Hlen : List.length src =
                   List.length pre + S (List.length ds) + List.length rest)
      by (unfold src; lens).
    rewrite scanToken_number_start
      by (rewrite (peek_at pre ((d :: ds) ++ rest)); [exact Hd| |]; reflexivity).
    cbn [source current line]. unfold number, loopFuel. cbn [source current].
    rewrite (while_run_at (fun s => isDigit (peek s)) isDigit (fun s => eq_refl)
               ds (pre ++ [d]) rest src);
      [|unfold src; lists|lens|exact Hds|exact Hrest|lia].
    cbn [bind].
    assert (Hp : peek (mkScanner src (List.length pre)
                                 (S (List.length pre) + List.length ds) l)
                 = nth 0 rest NUL)
      by (apply (peek_at (pre ++ d :: ds)); [unfold src; lists | lens]).
    assert (Hn : (peek (mkScanner src (List.length pre)
                                  (S (List.length pre) + List.length ds) l) =? ".")
                 && isDigit (peekNext (mkScanner src (List.length pre)
                                  (S (List.length pre) + List.length ds) l))
                 = false).
    { rewrite Hp.
      destruct (Ascii.eqb_spec (nth 0 rest NUL) ".") as [E|]; [|reflexivity].
      rewrite (peekNext_at (pre ++ d :: ds) rest);
        [|unfold src; lists|lens|rewrite E; reflexivity].
      exact Hdot. }
    rewrite Hn. cbn [bind]. unfold makeToken. cbn [start current line].
    replace (Z.of_nat (S (List.length pre) + List.length ds) -
             Z.of_nat (List.length pre))%Z
      with (Z.of_nat (S (List.length ds))) by lia.
    replace (S (List.length pre) + List.length ds)
      with (List.length pre + S (List.length ds)) by lia.
    reflexivity.
  - intros pre f fs rest st l Hf Hfs Hrest.
    set (src := pre ++ (d :: ds) ++ "." :: (f :: fs) ++ rest).
    assert (Hlen : List.length src =
                   List.length pre + S (List.length ds) + 1
                   + S (List.length fs) + List.length rest)
      by (unfold src; lens).
    rewrite scanToken_number_start
      by (rewrite (peek_at pre ((d :: ds) ++ "." :: (f :: fs) ++ rest));
          [exact Hd| |]; reflexivity).
    cbn [source current line]. unfold number, loopFuel. cbn [source current].
    rewrite (while_run_at (fun s => isDigit (peek s)) isDigit (fun s => eq_refl)
               ds (pre ++ [d]) ("." :: (f :: fs) ++ rest) src);
      [|unfold src; lists|lens|exact Hds|reflexivity|lia].
    cbn [bind].
    set (cur := S (List.length pre) + List.length ds).
    assert (Hp : peek (mkScanner src (List.length pre) cur l) = ".")
      by (apply (peek_at (pre ++ d :: ds) ("." :: (f :: fs) ++ rest));
          [unfold src; lists | unfold cur; lens]).
    assert (Hq : peekNext (mkScanner src (List.length pre) cur l) = f)
      by (apply (peekNext_at (pre ++ d :: ds) ("." :: (f :: fs) ++ rest));
          [unfold src; lists | unfold cur; lens | reflexivity]).
    rewrite Hp, Hq, Hf. cbn [Ascii.eqb Bool.eqb andb].
    change (advance_ (mkScanner src (List.length pre) cur l))
      with (mkScanner src (List.length pre) (S cur) l).
    cbn [source current].
    rewrite (while_run_at (fun s => isDigit (peek s)) isDigit (fun s => eq_refl)
               (f :: fs) (pre ++ (d :: ds) ++ ["."]) rest src);
      [|unfold src; lists|unfold cur; lens
       |cbn [forallb]; rewrite Hf; exact Hfs|exact Hrest
       |unfold cur; cbn [List.length]; lia].
    cbn [bind]. unfold makeToken. cbn [start current line List.length].
    replace (Z.of_nat (S cur + S (List.length fs)) - Z.of_nat (List.length pre))%Z
      with (Z.of_nat (List.length ds + List.length fs + 3))
      by (unfold cur; lia).
    replace (S cur + S (List.length fs))
      with (List.length pre + (List.length ds + List.length fs + 3))
      by (unfold cur; lia).
    reflexivity.
Qed.

Lemma scanToken_string_start (s : Scanner) :
  peek s = DQUOTE ->
  scanToken s = string_ (mkScanner (source s) (current s) (S (current s)) (line s)).
Proof.
  intro Hq.
  assert (Hstart : tokenStart s) by (unfold tokenStart; rewrite Hq; auto).
  pose proof (peek_not_NUL s _ Hq eq_refl) as He.
  scan_first s Hstart He. rewrite Hq. reflexivity.
Qed.

(** X8.  A string, wherever it stands in the text, runs from its quote to
    the next quote, whatever lies between (there are no escapes), and is
    one [TOKEN_STRING] with both quotes in its length.  When the text ends
    first, the token is the error [Unterminated string.] and the cursor is
    at the end.  In both cases the [int] counter [line] has been
    incremented once for each newline in the string, and the token's line
    is the line on which the lexeme ends. *)
Theorem string_lexemes (body : list ascii) :
  forallb inString body = true ->
  forall pre st l,
    (INT_MIN <= l <= INT_MAX)%Z ->
    (forall rest,
       scanToken (mkScanner (pre ++ DQUOTE :: body ++ DQUOTE :: rest) st
                            (List.length pre) l) =
         Some (mkToken TOKEN_STRING (InSource (List.length pre))
                       (toInt (Z.of_nat (List.length body + 2)))
                       (toInt (l + Z.of_nat (newlines body))),
               mkScanner (pre ++ DQUOTE :: body ++ DQUOTE :: rest)
                         (List.length pre)
                         (List.length pre + (List.length body + 2))
                         (toInt (l + Z.of_nat (newlines body))))) /\
    scanToken (mkScanner (pre ++ DQUOTE :: body) st (List.length pre) l) =
      Some (mkToken TOKEN_ERROR (Literal "Unterminated string.") 20
                    (toInt (l + Z.of_nat (newlines body))),
            mkScanner (pre ++ DQUOTE :: body) (List.length pre)
                      (List.length pre + S (List.length body))
                      (toInt (l + Z.of_nat (newlines body)))).
Proof.
  intros Hbody pre st l Hl. split.
  - intro rest.
    rewrite scanToken_string_start
      by (apply (peek_at pre (DQUOTE :: body ++ DQUOTE :: rest)); reflexivity).
    cbn [source current line]. unfold string_, loopFuel. cbn [source current].
    replace (pre ++ DQUOTE :: body ++ DQUOTE :: rest)
      with ((pre ++ [DQUOTE]) ++ body ++ DQUOTE :: rest) by lists.
    replace (S (List.length pre)) with (List.length (pre ++ [DQUOTE])) by lens.
    rewrite (while_string body (pre ++ [DQUOTE]) (DQUOTE :: rest) _ l _ Hbody eq_refl)
      by lens.
    cbn [bind]. unfold isAtEnd.
    match goal with
    | |- context [charAt ?s (current ?s)] => fold (peek s)
    end.
    rewrite (peek_at ((pre ++ [DQUOTE]) ++ body) (DQUOTE :: rest));
      [|lists|lens].
    cbn [nth Ascii.eqb Bool.eqb andb].
    unfold makeToken, advance_, advance, setCurrent.
    cbn [snd source start current line].
    rewrite bumped_toInt by exact Hl.
    replace (Z.of_nat (S (List.length (pre ++ [DQUOTE]) + List.length body)) -
             Z.of_nat (List.length (pre ++ [DQUOTE])))%Z
      with (Z.of_nat (S (List.length body))) by lia.
    replace (Z.of_nat (S (List.length (pre ++ [DQUOTE]) + List.length body)) -
             Z.of_nat (List.length pre))%Z
      with (Z.of_nat (List.length body + 2)) by (rewrite length_app; cbn [List.length]; lia).
    replace (S (List.length (pre ++ [DQUOTE]) + List.length body))
      with (List.length pre + (List.length body + 2))
      by (rewrite length_app; cbn [List.length]; lia).
    replace (List.length (pre ++ [DQUOTE])) with (S (List.length pre)) by lens.
    reflexivity.
  - rewrite scanToken_string_start
      by (apply (peek_at pre (DQUOTE :: body)); reflexivity).
    cbn [source current line]. unfold string_, loopFuel. cbn [source current].
    replace (pre ++ DQUOTE :: body)
      with ((pre ++ [DQUOTE]) ++ body ++ []) by (rewrite app_nil_r; lists).
    replace (S (List.length pre)) with (List.length (pre ++ [DQUOTE])) by lens.
    rewrite (while_string body (pre ++ [DQUOTE]) [] _ l _ Hbody eq_refl)
      by lens.
    cbn [bind]. unfold isAtEnd.
    match goal with
    | |- context [charAt ?s (current ?s)] => fold (peek s)
    end.
    rewrite (peek_at ((pre ++ [DQUOTE]) ++ body) []); [|lists|lens].
    cbn [nth Ascii.eqb Bool.eqb andb].
    rewrite bumped_toInt by exact Hl.
    replace (List.length (pre ++ [DQUOTE]) + List.length body)
      with (List.length pre + S (List.length body)) by lens.
    replace (List.length (pre ++ [DQUOTE])) with (S (List.length pre)) by lens.
    reflexivity.
Qed.

(** The character after the one just consumed, as [match] sees it. *)
Lemma match_next (s : Scanner) (c : ascii) :
  peek s = c -> (c =? NUL) = false ->
  match_ "=" (mkScanner (source s) (current s) (S (current s)) (line s)) =
    if peekNext s =? "="
    then (true, mkScanner (source s) (current s) (S (S (current s))) (line s))
    else (false, mkScanner (source s) (current s) (S (current s)) (line s)).
Proof.
  intros Hp Hc. unfold match_, isAtEnd, charAt. cbn [source current].
  unfold peekNext, isAtEnd. fold (peek s). rewrite Hp, Hc.
  unfold charAt. rewrite Nat.add_1_r.
  destruct (Ascii.eqb_spec (nth (S (current s)) (source s) NUL) NUL) as [E|_].
  - rewrite E. reflexivity.
  - destruct (nth (S (current s)) (source s) NUL =? "="); reflexivity.
Qed.

(** X9.  [!], [=], [<] and [>], wherever they stand in the text, take a
    following [=] with them into a token of two characters, and stand
    alone when the next character is not [=]. *)
Theorem comparison_operators (c : ascii) (yes no : TokenType) (s : Scanner) :
  In (c, yes, no) comparisons ->
  peek s = c ->
  ((peekNext s =? "=") = true ->
   scanToken s =
     Some (mkToken yes (InSource (current s)) 2 (line s),
           mkScanner (source s) (current s) (S (S (current s))) (line s))) /\
  ((peekNext s =? "=") = false ->
   scanToken s =
     Some (mkToken no (InSource (current s)) 1 (line s),
           mkScanner (source s) (current s) (S (current s)) (line s))).
Proof.
  intro Hin.
  assert (Hc : peek s = c ->
               (c =? NUL) = false /\
               scanToken s =
                 Some (twoChar (mkScanner (source s) (current s) (S (current s))
                                          (line s)) yes no)).
  { cbn [comparisons In] in Hin.
    destruct Hin as [E|[E|[E|[E|[]]]]]; inversion E; subst c yes no; clear E;
      intro Hp;
      (split; [reflexivity|]);
      (assert (Hstart : tokenStart s) by (unfold tokenStart; rewrite Hp; auto));
      pose proof (peek_not_NUL s _ Hp eq_refl) as He;
      scan_first s Hstart He; rewrite Hp; reflexivity. }
  intro Hp. destruct (Hc Hp) as (Hnul & Hscan). clear Hc.
  rewrite Hscan. unfold twoChar.
  rewrite (match_next s c Hp Hnul).
  split; intro Hn; rewrite Hn; unfold makeToken; cbn [start current line];
    do 2 f_equal; f_equal.
  - replace (Z.of_nat (S (S (current s))) - Z.of_nat (current s))%Z with 2%Z by lia.
    reflexivity.
  - replace (Z.of_nat (S (current s)) - Z.of_nat (current s))%Z with 1%Z by lia.
    reflexivity.
Qed.

(** X10.  Each of the ten punctuation characters, wherever it stands in
    the text, is a token of its own whatever follows, and [/] is
    [TOKEN_SLASH] unless another [/] follows. *)
Theorem punctuation_tokens (s : Scanner) :
  (forall c ty,
     In (c, ty) punctuation -> peek s = c ->
     scanToken s =
       Some (mkToken ty (InSource (current s)) 1 (line s),
             mkScanner (source s) (current s) (S (current s)) (line s))) /\
  (peek s = "/" -> (peekNext s =? "/") = false ->
   scanToken s =
     Some (mkToken TOKEN_SLASH (InSource (current s)) 1 (line s),
           mkScanner (source s) (current s) (S (current s)) (line s))).
Proof.
  assert (Hlen : toInt (Z.of_nat (S (current s)) - Z.of_nat (current s)) = 1%Z).
  { replace (Z.of_nat (S (current s)) - Z.of_nat (current s))%Z with 1%Z by lia.
    reflexivity. }
  split.
  - intros c ty Hin. cbn [punctuation In] in Hin.
    repeat (destruct Hin as [E|Hin];
            [ inversion E; subst c ty; clear E; intro Hp;
              assert (Hstart : tokenStart s) by (unfold tokenStart; rewrite Hp; auto);
              pose proof (peek_not_NUL s _ Hp eq_refl) as He;
              scan_first s Hstart He; rewrite Hp;
              cbn [isAlpha isDigit inRange N_of_ascii N_of_digits N.leb
                   N.compare Pos.compare Pos.compare_cont andb orb
                   Ascii.eqb Bool.eqb];
              unfold makeToken; cbn [start current line]; rewrite Hlen;
              reflexivity |]).
    destruct Hin.
  - intros Hp Hn.
    assert (Hstart : tokenStart s)
      by (unfold tokenStart; rewrite Hp, Hn; auto).
    pose proof (peek_not_NUL s _ Hp eq_refl) as He.
    scan_first s Hstart He. rewrite Hp.
    change (isAlpha "/") with false. change (isDigit "/") with false.
    cbn [Ascii.eqb Bool.eqb andb].
    unfold makeToken. cbn [start current line]. rewrite Hlen. reflexivity.
Qed.

(** X11.  A character that starts no token and is not skipped, wherever it
    stands in the text, is consumed alone and returned as the error token
    [Unexpected character.]. *)
Theorem unexpected_character (s : Scanner) :
  unexpected (peek s) = true ->
  scanToken s =
    Some (mkToken TOKEN_ERROR (Literal "Unexpected character.") 21 (line s),
          mkScanner (source s) (current s) (S (current s)) (line s)).
Proof.
  intro Hc. unfold unexpected in Hc. apply negb_true_iff in Hc.
  cbn [existsb] in Hc.
  repeat match goal with
         | H : (_ || _) = false |- _ =>
             apply orb_false_iff in H; destruct H
         end.
  assert (Hstart : tokenStart s).
  { unfold tokenStart.
    repeat match goal with
           | H : (peek s =? _) = false |- _ => rewrite H
           end.
    auto. }
  assert (He : isAtEnd s = false)
    by (apply (peek_not_NUL s _ eq_refl); assumption).
  scan_first s Hstart He.
  repeat match goal with H : _ = false |- _ => rewrite H; clear H end.
  reflexivity.
Qed.

Lemma comment_step (x : Scanner) :
  negb (peek x =? LF) && negb (isAtEnd x) = true -> movedTo x (advance_ x).
Proof.
  intro Hx. apply andb_true_iff in Hx. destruct Hx as [H1 H2].
  apply negb_true_iff in H1, H2. now apply movedTo_advance.
Qed.

(** With enough fuel, the fuel plays no part. *)
Lemma skipWhitespaceLoop_fuel (f1 : nat) :
  forall f2 s,
    current s <= List.length (source s) ->
    List.length (source s) - current s < f1 ->
    List.length (source s) - current s < f2 ->
    skipWhitespaceLoop f1 s = skipWhitespaceLoop f2 s.
Proof.
  induction f1 as [|f1 IH]; intros f2 s Hin H1 H2; [lia|].
  destruct f2 as [|f2]; [lia|].
  cbn [skipWhitespaceLoop]. cbv zeta.
  destruct ((peek s =? " ") || (peek s =? CR) || (peek s =? TAB)) eqn:Eb.
  { destruct (blank_not_end s Eb) as [He _].
    apply not_at_end_lt in He. apply IH; cbn; lia. }
  destruct (peek s =? LF) eqn:El.
  { assert (He : isAtEnd s = false).
    { apply Ascii.eqb_eq in El. apply (peek_not_NUL s LF El). reflexivity. }
    apply not_at_end_lt in He. apply IH; cbn; lia. }
  destruct (peek s =? "/") eqn:Es; [|reflexivity].
  apply Ascii.eqb_eq in Es.
  destruct (peekNext s =? "/"); [|rewrite Es; reflexivity].
  assert (He : isAtEnd s = false) by (apply (peek_not_NUL s "/" Es); reflexivity).
  pose proof (not_at_end_lt s He) as Hlt.
  unfold loopFuel. cbn [while]. rewrite Es, He.
  cbn [Ascii.eqb Bool.eqb andb negb].
  destruct (while _ advance_ (List.length (source s) - current s) (advance_ s))
    as [s1|] eqn:Ew; [|reflexivity].
  cbn [bind].
  assert (Hin1 : current (advance_ s) <= List.length (source (advance_ s)))
    by (unfold advance_, advance, setCurrent; cbn [snd source current]; lia).
  destruct (while_movedTo
              (fun s0 => negb (peek s0 =? LF) && negb (isAtEnd s0)) advance_
              comment_step _ _ _ Hin1 Ew) as [(Hs & _ & Hc & _) _].
  unfold advance_, advance, setCurrent in Hs, Hc.
  cbn [snd source current] in Hs, Hc. apply IH; rewrite ?Hs; lia.
Qed.

Lemma skipWhitespace_line_comment (s s1 : Scanner) :
  current s <= List.length (source s) ->
  peek s = "/" -> peekNext s = "/" ->
  while (fun s => negb (peek s =? LF) && negb (isAtEnd s)) advance_
        (loopFuel s) s = Some s1 ->
  skipWhitespace s = skipWhitespace s1.
Proof.
  intros Hin Hp Hq Hw.
  assert (He : isAtEnd s = false) by (apply (peek_not_NUL s "/" Hp); reflexivity).
  pose proof (not_at_end_lt s He) as Hlt.
  assert (Hcur : source s1 = source s /\
                 current s < current s1 <= List.length (source s)).
  { unfold loopFuel in Hw. cbn [while] in Hw. rewrite Hp, He in Hw.
    change (negb ("/" =? LF) && negb false) with true in Hw. cbv iota in Hw.
    assert (Hin1 : current (advance_ s) <= List.length (source (advance_ s)))
      by (unfold advance_, advance, setCurrent; cbn [snd source current]; lia).
    destruct (while_movedTo
                (fun s0 => negb (peek s0 =? LF) && negb (isAtEnd s0)) advance_
                comment_step _ _ _ Hin1 Hw) as [(Hs & _ & Hc & _) _].
    unfold advance_, advance, setCurrent in Hs, Hc.
    cbn [snd source current] in Hs, Hc. split; [exact Hs | lia]. }
  destruct Hcur as [Hs Hc].
  unfold skipWhitespace at 1. unfold loopFuel at 1.
  cbn [skipWhitespaceLoop]. cbv zeta. rewrite Hp, Hq.
  change (("/" =? " ") || ("/" =? CR) || ("/" =? TAB)) with false.
  change ("/" =? LF) with false. change ("/" =? "/") with true. cbv iota.
  rewrite Hw. cbn [bind]. unfold skipWhitespace.
  apply skipWhitespaceLoop_fuel; unfold loopFuel; rewrite ?Hs; lia.
Qed.

(** X5.  A blank, a newline (the [int] counter [line] incremented) and a
    line comment up to the end of its line are passed over: the token
    scanned before them is the token scanned after them. *)
Theorem whitespace_and_comments_skipped :
  (forall s,
     current s <= List.length (source s) ->
     ((peek s =? " ") || (peek s =? CR) || (peek s =? TAB)) = true ->
     scanToken s = scanToken (advance_ s)) /\
  (forall s,
     current s <= List.length (source s) ->
     (peek s =? LF) = true ->
     scanToken s = scanToken (advance_ (incLine s))) /\
  (forall pre body rest st l,
     forallb inLine body = true -> inLine (nth 0 rest NUL) = false ->
     scanToken (mkScanner (pre ++ "/" :: "/" :: body ++ rest) st
                          (List.length pre) l) =
     scanToken (mkScanner (pre ++ "/" :: "/" :: body ++ rest) st
                          (List.length pre + 2 + List.length body) l)).
Proof.
  split; [|split].
  - intros s Hin Hb. destruct (blank_not_end s Hb) as [He _].
    apply not_at_end_lt in He.
    unfold scanToken, skipWhitespace at 1, loopFuel.
    cbn [skipWhitespaceLoop]. cbv zeta. rewrite Hb.
    rewrite (skipWhitespaceLoop_fuel _ (loopFuel (advance_ s)));
      [reflexivity | | |]; unfold loopFuel; cbn; lia.
  - intros s Hin Hl.
    assert (He : isAtEnd s = false).
    { apply Ascii.eqb_eq in Hl. apply (peek_not_NUL s LF Hl). reflexivity. }
    apply not_at_end_lt in He.
    unfold scanToken, skipWhitespace at 1, loopFuel.
    cbn [skipWhitespaceLoop]. cbv zeta. rewrite Hl.
    apply Ascii.eqb_eq in Hl. rewrite Hl.
    change ((LF =? " ") || (LF =? CR) || (LF =? TAB)) with false. cbv iota.
    rewrite (skipWhitespaceLoop_fuel _ (loopFuel (advance_ (incLine s))));
      [reflexivity | | |]; unfold loopFuel; cbn; lia.
  - intros pre body rest st l Hbody Hrest.
    set (src := pre ++ "/" :: "/" :: body ++ rest).
    assert (Hlen : List.length src =
                   List.length pre + 2 + List.length body + List.length rest).
    { unfold src. rewrite length_app. cbn [List.length]. rewrite length_app. lia. }
    assert (Hp : peek (mkScanner src st (List.length pre) l) = "/")
      by exact (peek_past pre ("/" :: "/" :: body ++ rest) st l).
    assert (Hq : peekNext (mkScanner src st (List.length pre) l) = "/").
    { unfold peekNext, isAtEnd. fold (peek (mkScanner src st (List.length pre) l)).
      rewrite Hp. cbn [Ascii.eqb Bool.eqb andb]. unfold charAt, src.
      cbn [source current]. rewrite nth_past. reflexivity. }
    assert (Hw :
      while (fun s => negb (peek s =? LF) && negb (isAtEnd s)) advance_
            (loopFuel (mkScanner src st (List.length pre) l))
            (mkScanner src st (List.length pre) l) =
      Some (mkScanner src st (List.length pre + 2 + List.length body) l)).
    { unfold loopFuel. cbn [source current]. rewrite Hlen. unfold src.
      replace (pre ++ "/" :: "/" :: body ++ rest)
        with (pre ++ ("/" :: "/" :: body) ++ rest) by reflexivity.
      rewrite (while_run (fun s => negb (peek s =? LF) && negb (isAtEnd s))
                         inLine (fun s => eq_refl) ("/" :: "/" :: body)
                         pre rest st l).
      - cbn [List.length]. do 2 f_equal. lia.
      - cbn [forallb]. exact Hbody.
      - exact Hrest.
      - cbn [List.length]. lia. }
    assert (Hin : current (mkScanner src st (List.length pre) l) <=
                  List.length (source (mkScanner src st (List.length pre) l)))
      by (cbn [source current]; lia).
    unfold scanToken.
    rewrite (skipWhitespace_line_comment _ _ Hin Hp Hq Hw).
    reflexivity.
Qed.

(** X6.  A run of letters, digits and [_] that starts with a letter or
    [_], wherever it stands in the text, is one token spanning the whole
    run.  Its type is a keyword type when the run is one of the sixteen
    spellings and [TOKEN_IDENTIFIER] otherwise. *)
Theorem identifier_lexemes (lex : list ascii) :
  identifierLexeme lex ->
  (forall pre rest st l,
     delimited rest ->
     scanToken (mkScanner (pre ++ lex ++ rest) st (List.length pre) l) =
       Some (mkToken (classify lex) (InSource (List.length pre))
                     (toInt (Z.of_nat (List.length lex))) l,
             mkScanner (pre ++ lex ++ rest) (List.length pre)
                       (List.length pre + List.length lex) l)) /\
  (In lex keys -> In (classify lex) (map snd keywords)) /\
  (~ In lex keys -> classify lex = TOKEN_IDENTIFIER) /\
  ~ In TOKEN_IDENTIFIER (map snd keywords).
Proof.
  intro Hlex. split; [exact (scan_identifier lex Hlex)|].
  split; [|split; [apply classify_other|]].
  - intro Hin. unfold keys in Hin. apply in_map_iff in Hin.
    destruct Hin as ([kw ty] & E & Hin). cbn [fst] in E. subst lex.
    rewrite (classify_key kw ty Hin).
    apply (in_map snd _ _ Hin).
  - cbn. intuition discriminate.
Qed.

Lemma sampleText_in_buffer :
  current (initScanner sampleText) <= List.length (source (initScanner sampleText)).
Proof. apply Nat.le_0_l. Defined.

Lemma line_one_is_int : (INT_MIN <= 1 <= INT_MAX)%Z.
Proof. split; discriminate. Defined.

Lemma scanToken_progress_witness :
  exists tok s',
    scanToken (initScanner sampleText) = Some (tok, s') /\
    source s' = source (initScanner sampleText) /\
    current (initScanner sampleText) <= start s' /\ start s' <= current s' /\
    current s' <= List.length (source (initScanner sampleText)) /\
    (type tok = TOKEN_EOF /\ current s' = start s' /\ isAtEnd s' = true \/
     type tok <> TOKEN_EOF /\ start s' < current s').
Proof. exact (scanToken_progress _ sampleText_in_buffer). Defined.

Lemma token_spans_lexeme_witness :
  exists tok s',
    scanToken (initScanner sampleText) = Some (tok, s') /\
    tline tok = line s' /\
    (type tok <> TOKEN_ERROR /\
     tstart tok = InSource (start s') /\
     start s' <= current s' /\
     length tok = toInt (Z.of_nat (current s' - start s')) /\
     ((Z.of_nat (List.length sampleText) <= INT_MAX)%Z ->
      length tok = Z.of_nat (current s' - start s')) \/
     type tok = TOKEN_ERROR /\
     (tstart tok = Literal "Unterminated string." /\ length tok = 20%Z \/
      tstart tok = Literal "Unexpected character." /\ length tok = 21%Z)).
Proof. exact (token_spans_lexeme _ sampleText_in_buffer). Defined.

Lemma skipWhitespace_stops_at_token_witness :
  exists s',
    skipWhitespace (initScanner sampleText) = Some s' /\
    source s' = sampleText /\ start s' = 0 /\
    0 <= current s' <= List.length sampleText /\
    line s' = toInt (1 + Z.of_nat (newlines (firstn (current s') sampleText))
                       - Z.of_nat (newlines (firstn 0 sampleText))) /\
    ((peek s' =? " ") || (peek s' =? CR) || (peek s' =? TAB)
       || (peek s' =? LF)) = false /\
    ((peek s' =? "/") && (peekNext s' =? "/")) = false /\
    skipWhitespace s' = Some s' /\
    scanToken s' = scanToken (initScanner sampleText).
Proof.
  exact (skipWhitespace_stops_at_token _ sampleText_in_buffer line_one_is_int).
Defined.

Lemma identifier_lexemes_witness :
  scanToken (mkScanner (list_ascii_of_string "1 + " ++
                        list_ascii_of_string "_x1" ++
                        list_ascii_of_string " = 2") 2 4 7) =
    Some (mkToken TOKEN_IDENTIFIER (InSource 4) 3 7,
          mkScanner (list_ascii_of_string "1 + _x1 = 2") 4 7 7).
Proof.
  exact (proj1 (identifier_lexemes (list_ascii_of_string "_x1")
                  (conj eq_refl eq_refl))
           (list_ascii_of_string "1 + ") (list_ascii_of_string " = 2") 2 7%Z
           eq_refl).
Defined.

Lemma number_lexemes_witness :
  scanToken (mkScanner (list_ascii_of_string "x = 12.") 0 4 3) =
    Some (mkToken TOKEN_NUMBER (InSource 4) 2 3,
          mkScanner (list_ascii_of_string "x = 12.") 4 6 3) /\
  scanToken (mkScanner (list_ascii_of_string "x = 12.50.7") 0 4 3) =
    Some (mkToken TOKEN_NUMBER (InSource 4) 5 3,
          mkScanner (list_ascii_of_string "x = 12.50.7") 4 9 3).
Proof.
  split.
  - exact (proj1 (number_lexemes "1" ["2"] eq_refl eq_refl)
             (list_ascii_of_string "x = ") ["."] 0 3%Z eq_refl eq_refl).
  - exact (proj2 (number_lexemes "1" ["2"] eq_refl eq_refl)
             (list_ascii_of_string "x = ") "5" ["0"] [".";"7"] 0 3%Z
             eq_refl eq_refl eq_refl).
Defined.

Lemma string_lexemes_witness :
  scanToken (mkScanner (["x"; "="] ++ DQUOTE :: ["a"; LF; "b"] ++ DQUOTE :: [";"])
                       0 2 1) =
    Some (mkToken TOKEN_STRING (InSource 2) 5 2,
          mkScanner (["x"; "="] ++ DQUOTE :: ["a"; LF; "b"] ++ DQUOTE :: [";"])
                    2 7 2) /\
  scanToken (mkScanner (["x"; "="] ++ DQUOTE :: ["a"; LF; "b"]) 0 2 1) =
    Some (mkToken TOKEN_ERROR (Literal "Unterminated string.") 20 2,
          mkScanner (["x"; "="] ++ DQUOTE :: ["a"; LF; "b"]) 2 6 2).
Proof.
  split.
  - exact (proj1 (string_lexemes ["a"; LF; "b"] eq_refl ["x"; "="] 0 1%Z
                    line_one_is_int) [";"]).
  - exact (proj2 (string_lexemes ["a"; LF; "b"] eq_refl ["x"; "="] 0 1%Z
                    line_one_is_int)).
Defined.

Lemma comparison_operators_witness :
  scanToken (mkScanner (list_ascii_of_string "a<=1") 0 1 1) =
    Some (mkToken TOKEN_LESS_EQUAL (InSource 1) 2 1,
          mkScanner (list_ascii_of_string "a<=1") 1 3 1) /\
  scanToken (mkScanner (list_ascii_of_string "a<1") 0 1 1) =
    Some (mkToken TOKEN_LESS (InSource 1) 1 1,
          mkScanner (list_ascii_of_string "a<1") 1 2 1).
Proof.
  assert (Hin : In ("<", TOKEN_LESS_EQUAL, TOKEN_LESS) comparisons)
    by (right; right; left; reflexivity).
  split.
  - exact (proj1 (comparison_operators _ _ _
                    (mkScanner (list_ascii_of_string "a<=1") 0 1 1) Hin eq_refl)
             eq_refl).
  - exact (proj2 (comparison_operators _ _ _
                    (mkScanner (list_ascii_of_string "a<1") 0 1 1) Hin eq_refl)
             eq_refl).
Defined.

Lemma punctuation_tokens_witness :
  scanToken (mkScanner (list_ascii_of_string "f(x)/2") 0 1 4) =
    Some (mkToken TOKEN_LEFT_PAREN (InSource 1) 1 4,
          mkScanner (list_ascii_of_string "f(x)/2") 1 2 4) /\
  scanToken (mkScanner (list_ascii_of_string "f(x)/2") 3 4 4) =
    Some (mkToken TOKEN_SLASH (InSource 4) 1 4,
          mkScanner (list_ascii_of_string "f(x)/2") 4 5 4).
Proof.
  split.
  - exact (proj1 (punctuation_tokens
                    (mkScanner (list_ascii_of_string "f(x)/2") 0 1 4))
             "(" TOKEN_LEFT_PAREN (or_introl eq_refl) eq_refl).
  - exact (proj2 (punctuation_tokens
                    (mkScanner (list_ascii_of_string "f(x)/2") 3 4 4))
             eq_refl eq_refl).
Defined.

Lemma unexpected_character_witness :
  scanToken (mkScanner (list_ascii_of_string "x @ y") 0 2 1) =
    Some (mkToken TOKEN_ERROR (Literal "Unexpected character.") 21 1,
          mkScanner (list_ascii_of_string "x @ y") 2 3 1).
Proof.
  exact (unexpected_character (mkScanner (list_ascii_of_string "x @ y") 0 2 1)
           eq_refl).
Defined.

Lemma whitespace_and_comments_skipped_witness :
  scanToken (mkScanner sampleText 0 0 1) = scanToken (mkScanner sampleText 0 1 1) /\
  scanToken (mkScanner sampleText 0 6 1) = scanToken (mkScanner sampleText 0 7 2) /\
  scanToken (mkScanner sampleText 0 2 1) = scanToken (mkScanner sampleText 0 6 1).
Proof.
  split; [|split].
  - exact (proj1 whitespace_and_comments_skipped (mkScanner sampleText 0 0 1)
             (Nat.le_0_l _) eq_refl).
  - refine (proj1 (proj2 whitespace_and_comments_skipped)
              (mkScanner sampleText 0 6 1) _ eq_refl).
    cbn. lia.
  - exact (proj2 (proj2 whitespace_and_comments_skipped)
             [" "; " "] [" "; "c"] (LF :: list_ascii_of_string "x1 = 2") 0 1%Z
             eq_refl eq_refl).
Defined.

Lemma lines_count_newlines_witness :
  exists toks s',
    scanTimes 4 (initScanner sampleText) = Some (toks, s') /\
    List.length toks = 4 /\
    line s' = (1 + Z.of_nat (newlines (firstn (current s') sampleText)))%Z /\
    Forall (fun t => (1 <= tline t <= line s')%Z) toks /\
    StronglySorted Z.le (map tline toks).
Proof.
  destruct (lines_count_newlines sampleText 4)
    as (toks & s' & E & Hn & _ & _ & _ & Hplain).
  exists toks, s'. split; [exact E|]. split; [exact Hn|].
  apply Hplain. discriminate.
Defined.

(** The counter is an [int]: a newline passed at line [INT_MAX] leaves it
    at [INT_MIN], and the next token carries that line. *)
Example line_wraps_at_INT_MAX :
  scanToken (mkScanner [LF; "x"] 0 0 INT_MAX) =
    Some (mkToken TOKEN_IDENTIFIER (InSource 1) 1 INT_MIN,
          mkScanner [LF; "x"] 1 2 INT_MIN).
Proof. vm_compute. reflexivity. Qed.

End ScannerMore.

(** ** The virtual machine: outcomes, instructions and a reference machine *)

Module VmMore.
Import VmC VmSpec.

(** The diagnostics of the two fatal stack errors. *)
Definition overflowMessage : string := "Stack overflow" ++ newline.

Definition underflowMessage : string := "Stack underflow!" ++ newline.

(** The machine an outcome ends in. *)
Definition finalVM {A : Type} (o : Outcome A) : VM :=
  match o with
  | Ok _ vm => vm
  | Exit _ _ vm => vm
  | Undefined vm => vm
  end.

(** The stack lies within the array: [stackTop] points at a slot or just
    past the last one. *)
Definition stackBounded {H : Headers} (vm : VM) : Prop :=
  stackTop vm <= STACK_MAX.

(** Where a run can meet undefined behaviour, read off the machine it
    stopped in: a push onto a full stack; a byte fetched past the end of
    the code; a constant index, short or long, past the end of the
    constants. *)
Definition undefinedCause {H : Headers} (vm : VM) : Prop :=
  stackTop vm = STACK_MAX \/
  nth_error (code (chunk vm)) (ip vm) = None \/
  (exists n b,
     ip vm = S n /\ nth_error (code (chunk vm)) n = Some b /\
     nth_error (constants (chunk vm)) (Z.to_nat (u8 b)) = None) \/
  (exists n b1 b2 b3,
     ip vm = S (S (S n)) /\
     nth_error (code (chunk vm)) n = Some b1 /\
     nth_error (code (chunk vm)) (S n) = Some b2 /\
     nth_error (code (chunk vm)) (S (S n)) = Some b3 /\
     nth_error (constants (chunk vm)) (Z.to_nat (bigEndian24 b1 b2 b3)) = None).

(** A call that, on a stack within the array, leaves the chunk alone, does
    not move [ip] backwards, keeps the stack within the array, and exits
    only with status 1 and the underflow diagnostic, on an empty stack. *)
Definition disciplined {H : Headers} {A : Type} (m : M A) : Prop :=
  forall vm, stackBounded vm ->
    chunk (finalVM (m vm)) = chunk vm /\
    ip vm <= ip (finalVM (m vm)) /\
    stackBounded (finalVM (m vm)) /\
    match m vm with
    | Exit status err vm' =>
        status = 1%Z /\ err = underflowMessage /\ stackTop vm' = 0
    | _ => True
    end.

(** A call that, on a stack within the array, meets undefined behaviour
    only in one of the ways of [undefinedCause]. *)
Definition causes {H : Headers} {A : Type} (m : M A) : Prop :=
  forall vm vm', stackBounded vm -> m vm = Undefined vm' -> undefinedCause vm'.

(** *** A reference stack machine

    The instructions with their operands, their encoding as bytes, and
    their meaning on a list of values, the top of the stack first. *)
Inductive Instr : Set :=
| IConstant (index : byte)
| IConstantLong (b1 b2 b3 : byte)
| IAdd | ISubtract | IMultiply | IDivide
| INegate.

Definition encode {H : Headers} (i : Instr) : list byte :=
  match i with
  | IConstant index => [opcode OP_CONSTANT; index]
  | IConstantLong b1 b2 b3 => [opcode OP_CONSTANT_LONG; b1; b2; b3]
  | IAdd => [opcode OP_ADD]
  | ISubtract => [opcode OP_SUBTRACT]
  | IMultiply => [opcode OP_MULTIPLY]
  | IDivide => [opcode OP_DIVIDE]
  | INegate => [opcode OP_NEGATE]
  end.

(** A value goes on top of fewer than [STACK_MAX] values. *)
Definition refPush {H : Headers} (v : Value) (stk : list Value)
  : option (list Value) :=
  if List.length stk <? STACK_MAX then Some (v :: stk) else None.

Definition refBinary {H : Headers} (f : Value -> Value -> Value)
           (stk : list Value) : option (list Value) :=
  match stk with
  | b :: a :: below => refPush (f a b) below
  | _ => None
  end.

Definition refStep {H : Headers} (consts : list Value) (i : Instr)
           (stk : list Value) : option (list Value) :=
  match i with
  | IConstant index =>
      match nth_error consts (Z.to_nat (u8 index)) with
      | Some v => refPush v stk
      | None => None
      end
  | IConstantLong b1 b2 b3 =>
      match nth_error consts (Z.to_nat (bigEndian24 b1 b2 b3)) with
      | Some v => refPush v stk
      | None => None
      end
  | IAdd => refBinary PrimFloat.add stk
  | ISubtract => refBinary PrimFloat.sub stk
  | IMultiply => refBinary PrimFloat.mul stk
  | IDivide => refBinary PrimFloat.div stk
  | INegate =>
      match stk with
      | a :: below => refPush (PrimFloat.opp a) below
      | [] => None
      end
  end.

Fixpoint refRun {H : Headers} (consts : list Value) (prog : list Instr)
         (stk : list Value) : option (list Value) :=
  match prog with
  | [] => Some stk
  | i :: prog' =>
      match refStep consts i stk with
      | Some stk' => refRun consts prog' stk'
      | None => None
      end
  end.

(** The values on the machine's stack, the top first. *)
Definition contents (vm : VM) : list Value :=
  rev (map (stack vm) (seq 0 (stackTop vm))).

(** [OP_CONSTANT_LONG 00 00 00; OP_RETURN] over the constant 1.5. *)
Definition pushOneLong : VM :=
  mkVM (mkChunk [x01; x00; x00; x00; x07] [1.5%float]) 0 (fun _ => 0%float) 0.

(** [OP_CONSTANT 0], [n] times, then [OP_RETURN], over the constant 1. *)
Definition pushes (n : nat) : Chunk :=
  mkChunk (flat_map (fun _ => [x00; x00]) (seq 0 n) ++ [x07]) [1%float].

(** [OP_NEGATE] about to run on the stack 5. *)
Definition negateVM : VM :=
  mkVM (mkChunk [x06; x07] []) 0 (fun _ => 5%float) 1.

Section More.

Context {H : Headers}.

Ltac fetch E :=
  unfold step, bindM; rewrite (READ_BYTE_at _ _ E).

Ltac dispatch :=
  repeat first
    [ rewrite isOp_same
    | rewrite isOp_other by discriminate ].

(** *** Every call is disciplined *)
Lemma disciplined_ret {A : Type} (a : A) : disciplined (ret a).
Proof. intros vm Hb. cbn. repeat split; auto. Qed.

Lemma disciplined_bind {A B : Type} (m : M A) (k : A -> M B) :
  disciplined m -> (forall a, disciplined (k a)) -> disciplined (bindM m k).
Proof.
  intros Hm Hk vm Hb. unfold bindM.
  destruct (Hm vm Hb) as (Hc & Hi & Hs & He).
  destruct (m vm) as [a vm1|st err vm1|vm1] eqn:Em; cbn in *.
  - destruct (Hk a vm1 Hs) as (Hc' & Hi' & Hs' & He').
    split; [congruence|]. split; [lia|]. split; [exact Hs'|exact He'].
  - auto.
  - auto.
Qed.

Lemma disciplined_push (v : Value) : disciplined (push v).
Proof.
  intros vm Hb. unfold stackBounded in *.
  destruct (Nat.eq_dec (stackTop vm) STACK_MAX) as [E|Hne].
  - rewrite push_full by exact E. cbn. repeat split; auto.
  - rewrite push_ok by lia. cbn. repeat split; auto. lia.
Qed.

Lemma disciplined_pop : disciplined pop.
Proof.
  intros vm Hb. unfold stackBounded in *.
  destruct (stackTop vm) as [|n] eqn:Et.
  - unfold pop. rewrite Et. cbn. repeat split; auto. lia.
  - rewrite (pop_ok vm n Et) by lia. cbn. repeat split; auto. lia.
Qed.

Lemma disciplined_READ_BYTE : disciplined READ_BYTE.
Proof.
  intros vm Hb. unfold READ_BYTE.
  destruct (nth_error (code (chunk vm)) (ip vm)); cbn; repeat split; auto.
Qed.

Lemma disciplined_constantAt (index : Z) : disciplined (constantAt index).
Proof.
  intros vm Hb. unfold constantAt.
  destruct (nth_error (constants (chunk vm)) (Z.to_nat index)); cbn;
    repeat split; auto.
Qed.

Lemma disciplined_step : disciplined step.
Proof.
  unfold step, BINARY_OP, READ_CONSTANT, readLongIndex.
  apply disciplined_bind; [apply disciplined_READ_BYTE|].
  intro b.
  repeat match goal with
         | |- disciplined (if ?c then _ else _) => destruct c
         end;
  repeat first
    [ apply disciplined_bind; [|intro]
    | apply disciplined_ret
    | apply disciplined_push
    | apply disciplined_pop
    | apply disciplined_READ_BYTE
    | apply disciplined_constantAt ].
Qed.

(** A turn that returns has just read [OP_RETURN]. *)
Lemma step_return (vm vm' : VM) (r : InterpretResult) :
  step vm = Ok (Return r) vm' ->
  nth_error (code (chunk vm)) (ip vm) = Some (opcode OP_RETURN) /\
  vm' = setIp vm (S (ip vm)) /\ r = INTERPRET_OK.
Proof.
  unfold step. intro E. unfold bindM at 1 in E. unfold READ_BYTE at 1 in E.
  destruct (nth_error (code (chunk vm)) (ip vm)) as [b|] eqn:Eb;
    [|discriminate E].
  unfold BINARY_OP, READ_CONSTANT, readLongIndex in E.
  repeat match type of E with
         | (if isOp b OP_RETURN then _ else _) _ = _ => fail 1
         | (if ?c then _ else _) _ = _ =>
             destruct c;
             [ exfalso;
               repeat match type of E with
                      | bindM ?m ?k ?v = _ =>
                          unfold bindM at 1 in E;
                          destruct (m v); try discriminate E
                      end;
               discriminate E
             | ]
         end.
  destruct (isOp b OP_RETURN) eqn:Er; [|discriminate E].
  unfold isOp in Er. apply byte_dec_bl in Er. subst b.
  inversion E. auto.
Qed.

(** *** Where undefined behaviour can come from *)
Ltac disc :=
  repeat first
    [ apply disciplined_bind; [|intro]
    | apply disciplined_ret
    | apply disciplined_push
    | apply disciplined_pop
    | apply disciplined_READ_BYTE
    | apply disciplined_constantAt ].

Lemma causes_ret {A : Type} (a : A) : causes (ret a).
Proof. intros vm vm' _ E. discriminate E. Qed.

Lemma causes_bind {A B : Type} (m : M A) (k : A -> M B) :
  causes m -> disciplined m -> (forall a, causes (k a)) -> causes (bindM m k).
Proof.
  intros Hm Hd Hk vm vm' Hb E. unfold bindM in E.
  destruct (Hd vm Hb) as (_ & _ & Hs & _).
  destruct (m vm) as [a vm1|st err vm1|vm1] eqn:Em; cbn in Hs.
  - exact (Hk a vm1 vm' Hs E).
  - discriminate E.
  - inversion E. subst vm1. exact (Hm vm vm' Hb Em).
Qed.

Lemma causes_push (v : Value) : causes (push v).
Proof.
  intros vm vm' _ E.
  destruct (Nat.lt_trichotomy (stackTop vm) STACK_MAX) as [Hlt|[Heq|Hgt]].
  - rewrite push_ok in E by exact Hlt. discriminate E.
  - rewrite push_full in E by exact Heq. inversion E. subst vm'.
    left. exact Heq.
  - rewrite push_overflow in E by exact Hgt. discriminate E.
Qed.

Lemma causes_pop : causes pop.
Proof.
  intros vm vm' Hb E. unfold stackBounded in Hb.
  destruct (stackTop vm) as [|n] eqn:Et.
  - unfold pop in E. rewrite Et in E. discriminate E.
  - rewrite (pop_ok vm n Et) in E by lia. discriminate E.
Qed.

Lemma causes_READ_BYTE : causes READ_BYTE.
Proof.
  intros vm vm' _ E. unfold READ_BYTE in E.
  destruct (nth_error (code (chunk vm)) (ip vm)) eqn:Eb; inversion E.
  subst vm'. right. left. exact Eb.
Qed.

Lemma causes_READ_CONSTANT : causes READ_CONSTANT.
Proof.
  intros vm vm' _ E. unfold READ_CONSTANT, bindM, READ_BYTE in E.
  destruct (nth_error (code (chunk vm)) (ip vm)) as [b|] eqn:Eb.
  - unfold constantAt in E. cbn [setIp chunk] in E.
    destruct (nth_error (constants (chunk vm)) (Z.to_nat (u8 b))) eqn:Ec;
      inversion E.
    right. right. left. exists (ip vm), b. cbn. auto.
  - inversion E. subst vm'. right. left. exact Eb.
Qed.

Lemma causes_long {A : Type} (k : Value -> M A) :
  (forall v, causes (k v)) ->
  causes (bindM readLongIndex (fun index => bindM (constantAt index) k)).
Proof.
  intros Hk vm vm' Hb E. unfold bindM at 1 in E.
  destruct (nth_error (code (chunk vm)) (ip vm)) as [b1|] eqn:E1.
  2:{ unfold readLongIndex, bindM, READ_BYTE in E. rewrite E1 in E.
      inversion E. subst vm'. right. left. exact E1. }
  destruct (nth_error (code (chunk vm)) (ip vm + 1)) as [b2|] eqn:E2.
  2:{ unfold readLongIndex, bindM, READ_BYTE in E. rewrite E1 in E.
      cbn [setIp chunk ip] in E.
      replace (ip vm + 1) with (S (ip vm)) in E2 by lia. rewrite E2 in E.
      inversion E. subst vm'. right. left. exact E2. }
  destruct (nth_error (code (chunk vm)) (ip vm + 2)) as [b3|] eqn:E3.
  2:{ unfold readLongIndex, bindM, READ_BYTE in E. rewrite E1 in E.
      cbn [setIp chunk ip] in E.
      replace (ip vm + 1) with (S (ip vm)) in E2 by lia. rewrite E2 in E.
      cbn [setIp chunk ip] in E.
      replace (ip vm + 2) with (S (S (ip vm))) in E3 by lia. rewrite E3 in E.
      inversion E. subst vm'. right. left. exact E3. }
  rewrite (readLongIndex_at vm b1 b2 b3 E1 E2 E3) in E.
  unfold bindM, constantAt in E. cbn [setIp chunk] in E.
  destruct (nth_error (constants (chunk vm)) (Z.to_nat (bigEndian24 b1 b2 b3)))
    as [v|] eqn:Ec.
  - exact (Hk v (setIp vm (ip vm + 3)) vm' Hb E).
  - inversion E. subst vm'. right. right. right.
    exists (ip vm), b1, b2, b3. cbn [setIp chunk ip].
    replace (ip vm + 1) with (S (ip vm)) in E2 by lia.
    replace (ip vm + 2) with (S (S (ip vm))) in E3 by lia.
    split; [lia|]. auto.
Qed.

Ltac cause :=
  first
    [ apply causes_ret
    | apply causes_push
    | apply causes_pop
    | apply causes_READ_BYTE
    | apply causes_READ_CONSTANT
    | apply causes_long; intro; cause
    | apply causes_bind; [cause | unfold READ_CONSTANT; disc | intro; cause] ].

Lemma causes_step : causes step.
Proof.
  unfold step, BINARY_OP.
  apply causes_bind; [apply causes_READ_BYTE | apply disciplined_READ_BYTE |].
  intro b.
  repeat match goal with
         | |- causes (if ?c then _ else _) => destruct c
         end;
  cause.
Qed.

Lemma run_outcomes (fuel : nat) :
  forall vm,
    stackBounded vm -> remaining vm < fuel ->
    exists o,
      run fuel vm = Some o /\
      chunk (finalVM o) = chunk vm /\ stackBounded (finalVM o) /\
      match o with
      | Ok r vm' =>
          r = INTERPRET_OK /\ 0 < ip vm' /\
          nth_error (code (chunk vm)) (ip vm' - 1) = Some (opcode OP_RETURN)
      | Exit status err vm' =>
          status = 1%Z /\ err = underflowMessage /\ stackTop vm' = 0
      | Undefined vm' => undefinedCause vm'
      end.
Proof.
  induction fuel as [|fuel IH]; intros vm Hb Hrem; [lia|].
  cbn [run].
  destruct (disciplined_step vm Hb) as (Hc & Hi & Hs & He).
  pose proof (causes_step vm) as Hu.
  destruct (step vm) as [[|r] vm1|st err vm1|vm1] eqn:E; cbn in Hc, Hi, Hs, He.
  - pose proof (step_consumes _ _ _ E) as Hlt.
    destruct (IH vm1 Hs) as (o & Eo & Hco & Hso & Ho); [lia|].
    exists o. split; [exact Eo|]. split; [congruence|]. split; [exact Hso|].
    rewrite Hc in Ho. exact Ho.
  - destruct (step_return _ _ _ E) as (Hr & Hvm & Hok).
    eexists. split; [reflexivity|]. cbn. split; [exact Hc|]. split; [exact Hs|].
    subst vm1. cbn. rewrite Nat.sub_0_r.
    split; [exact Hok|]. split; [lia | exact Hr].
  - eexists. split; [reflexivity|]. cbn. auto.
  - eexists. split; [reflexivity|]. cbn.
    split; [exact Hc|]. split; [exact Hs|]. exact (Hu vm1 Hb eq_refl).
Qed.

(** X12.  Started on a stack within the array, [interpret] comes to an
    end with the chunk it was given in place and [stackTop] within the
    array, in one of three ways: [INTERPRET_OK], the last byte read being
    [OP_RETURN]; exit status 1 with the underflow diagnostic on an empty
    stack; or undefined behaviour, at a push onto a full stack, a fetch
    past the end of the code, or a constant index past the end of the
    constants.  It never returns one of the failure markers, and it never
    takes the overflow exit. *)
Theorem interpret_outcomes (c : Chunk) (vm : VM) :
  stackTop vm <= STACK_MAX ->
  exists o,
    interpret c vm = Some o /\
    chunk (finalVM o) = c /\ stackTop (finalVM o) <= STACK_MAX /\
    match o with
    | Ok r vm' =>
        r = INTERPRET_OK /\ 0 < ip vm' /\
        nth_error (code c) (ip vm' - 1) = Some (opcode OP_RETURN)
    | Exit status err vm' =>
        status = 1%Z /\ err = underflowMessage /\ stackTop vm' = 0
    | Undefined vm' => undefinedCause vm'
    end.
Proof.
  intro Hb. unfold interpret.
  apply (run_outcomes _ (setIp (setChunk vm c) 0)).
  - exact Hb.
  - unfold runFuel, remaining. lia.
Qed.

(** X14.  [OP_CONSTANT] reads one operand byte and pushes the constant at
    that index; [OP_CONSTANT_LONG] with the same byte after two zero bytes
    pushes the same constant.  On a stack that is not full both turns end
    with the constant in the slot [stackTop] pointed at, [stackTop] one
    slot up and every other slot as it was, [ip] two bytes on for the one
    and four for the other. *)
Theorem short_and_long_constants_agree (vm vl : VM) (b : byte) (v : Value) :
  nth_error (code (chunk vm)) (ip vm) = Some (opcode OP_CONSTANT) ->
  nth_error (code (chunk vm)) (ip vm + 1) = Some b ->
  nth_error (code (chunk vl)) (ip vl) = Some (opcode OP_CONSTANT_LONG) ->
  nth_error (code (chunk vl)) (ip vl + 1) = Some x00 ->
  nth_error (code (chunk vl)) (ip vl + 2) = Some x00 ->
  nth_error (code (chunk vl)) (ip vl + 3) = Some b ->
  constants (chunk vl) = constants (chunk vm) ->
  nth_error (constants (chunk vm)) (Z.to_nat (u8 b)) = Some v ->
  stackTop vm < STACK_MAX -> stackTop vl < STACK_MAX ->
  step vm =
    Ok Continue
       (mkVM (chunk vm) (ip vm + 2)
             (fun j => if Nat.eqb j (stackTop vm) then v else stack vm j)
             (S (stackTop vm))) /\
  step vl =
    Ok Continue
       (mkVM (chunk vl) (ip vl + 4)
             (fun j => if Nat.eqb j (stackTop vl) then v else stack vl j)
             (S (stackTop vl))).
Proof.
  intros Hs Hb Hl H1 H2 H3 Hc Hv Hroom Hrooml. split.
  - fetch Hs. dispatch. unfold READ_CONSTANT, bindM.
    replace (ip vm + 1) with (S (ip vm)) in Hb by lia.
    rewrite (READ_BYTE_at (setIp vm (S (ip vm))) b Hb).
    unfold constantAt. cbn [setIp chunk ip]. rewrite Hv.
    rewrite push_ok by exact Hroom.
    replace (ip vm + 2) with (S (S (ip vm))) by lia. reflexivity.
  - fetch Hl. dispatch.
    assert (Hidx : readLongIndex (setIp vl (S (ip vl))) =
                   Ok (u8 b) (setIp vl (ip vl + 4))).
    { rewrite (readLongIndex_at (setIp vl (S (ip vl))) x00 x00 b).
      - unfold bigEndian24, setIp. cbn [chunk ip stack stackTop].
        change (u8 x00) with 0%Z. cbn [Z.mul Z.add].
        do 2 f_equal. lia.
      - cbn [setIp chunk ip]. replace (S (ip vl)) with (ip vl + 1) by lia.
        exact H1.
      - cbn [setIp chunk ip]. replace (S (ip vl) + 1) with (ip vl + 2) by lia.
        exact H2.
      - cbn [setIp chunk ip]. replace (S (ip vl) + 2) with (ip vl + 3) by lia.
        exact H3. }
    unfold bindM in *. rewrite Hidx. unfold constantAt.
    cbn [setIp chunk]. rewrite Hc, Hv.
    rewrite push_ok by exact Hrooml. reflexivity.
Qed.

(** X15.  [OP_NEGATE] on a stack of at least one value, all of them in
    the array, replaces the top value by its negation and leaves the
    height and the values below as they are. *)
Theorem negate_instruction (vm : VM) (n : nat) :
  nth_error (code (chunk vm)) (ip vm) = Some (opcode OP_NEGATE) ->
  stackTop vm = S n -> S n <= STACK_MAX ->
  step vm =
    Ok Continue
       (mkVM (chunk vm) (S (ip vm))
             (fun j => if Nat.eqb j n then PrimFloat.opp (stack vm n)
                       else stack vm j)
             (S n)).
Proof.
  intros Hf Htop Hn. fetch Hf. dispatch.
  rewrite (pop_ok _ n) by (cbn; lia).
  rewrite push_ok by (cbn; lia). reflexivity.
Qed.

(** X16.  [OP_NEGATE] on an empty stack, and a binary instruction on a
    stack of fewer than two values, end the process with the underflow
    diagnostic.  A binary instruction that finds one value has popped it by
    then: the machine exits with an empty stack. *)
Theorem instruction_underflow (vm : VM) :
  (nth_error (code (chunk vm)) (ip vm) = Some (opcode OP_NEGATE) ->
   stackTop vm = 0 ->
   step vm = Exit 1 underflowMessage (setIp vm (S (ip vm)))) /\
  (forall op f,
     In (op, f) binaryOps ->
     nth_error (code (chunk vm)) (ip vm) = Some (opcode op) ->
     (stackTop vm = 0 ->
      step vm = Exit 1 underflowMessage (setIp vm (S (ip vm)))) /\
     (stackTop vm = 1 ->
      step vm =
        Exit 1 underflowMessage (mkVM (chunk vm) (S (ip vm)) (stack vm) 0))).
Proof.
  pose proof STACK_MAX_pos as Hpos.
  split.
  - intros Hf Htop. fetch Hf. dispatch. unfold pop. cbn [setIp stackTop].
    rewrite Htop. reflexivity.
  - intros op f Hop Hf. cbn [binaryOps In] in Hop.
    destruct Hop as [E|[E|[E|[E|[]]]]]; inversion E; subst op f; clear E;
      (split; intro Htop; fetch Hf; dispatch; unfold BINARY_OP, bindM;
       [ unfold pop; cbn [setIp stackTop]; rewrite Htop; reflexivity
       | rewrite (pop_ok _ 0) by (cbn; lia);
         unfold pop; cbn [setIp setStackTop stackTop]; reflexivity ]).
Qed.

(** *** The machine and the reference machine *)
Lemma contents_push (vm : VM) (v : Value) :
  contents (setStackTop (store vm (stackTop vm) v) (S (stackTop vm))) =
  v :: contents vm.
Proof.
  unfold contents, setStackTop, store. cbn [stack stackTop].
  rewrite seq_S, map_app, rev_app_distr. cbn [map rev app Nat.add].
  rewrite Nat.eqb_refl. f_equal. f_equal.
  apply map_ext_in. intros j Hj. apply in_seq in Hj.
  destruct (Nat.eqb_spec j (stackTop vm)); [lia | reflexivity].
Qed.

Lemma contents_top (vm : VM) (n : nat) :
  stackTop vm = S n ->
  contents vm = stack vm n :: contents (setStackTop vm n).
Proof.
  intro E. unfold contents, setStackTop. cbn [stack stackTop]. rewrite E.
  rewrite seq_S, map_app, rev_app_distr. reflexivity.
Qed.

Lemma contents_length (vm : VM) : List.length (contents vm) = stackTop vm.
Proof. unfold contents. now rewrite length_rev, length_map, length_seq. Qed.

Lemma code_at (l pre rest : list byte) (n : nat) :
  skipn n l = pre ++ rest ->
  forall k b, nth_error pre k = Some b -> nth_error l (n + k) = Some b.
Proof.
  intros E k b Hk.
  rewrite <- (firstn_skipn n l) at 1.
  assert (Hn : n <= List.length l).
  { destruct (Nat.le_gt_cases n (List.length l)) as [Hle|Hgt]; [exact Hle|].
    rewrite skipn_all2 in E by lia.
    destruct pre; [destruct k; discriminate Hk | discriminate E]. }
  rewrite nth_error_app2 by (rewrite length_firstn; lia).
  rewrite length_firstn, Nat.min_l by exact Hn.
  replace (n + k - n) with k by lia. rewrite E.
  rewrite nth_error_app1; [exact Hk|]. apply nth_error_Some. congruence.
Qed.

Lemma skipn_more (l pre rest : list byte) (n : nat) :
  skipn n l = pre ++ rest -> skipn (n + List.length pre) l = rest.
Proof.
  intro E. rewrite Nat.add_comm, <- skipn_skipn, E.
  rewrite skipn_app, skipn_all, Nat.sub_diag. reflexivity.
Qed.

Lemma refPush_push (v : Value) (vm : VM) (stk : list Value) :
  refPush v (contents vm) = Some stk ->
  push v vm = Ok tt (setStackTop (store vm (stackTop vm) v) (S (stackTop vm)))
  /\ stk = v :: contents vm /\ S (stackTop vm) <= STACK_MAX.
Proof.
  unfold refPush. rewrite contents_length.
  destruct (Nat.ltb_spec (stackTop vm) STACK_MAX) as [Hlt|]; [|discriminate].
  intro E. inversion E. split; [now apply push_ok | auto].
Qed.

Lemma binary_refines (op : OpCode) (f : Value -> Value -> Value)
      (vm : VM) (stk : list Value) :
  In (op, f) binaryOps ->
  nth_error (code (chunk vm)) (ip vm) = Some (opcode op) ->
  stackTop vm <= STACK_MAX ->
  refBinary f (contents vm) = Some stk ->
  exists vm',
    step vm = Ok Continue vm' /\ contents vm' = stk /\
    chunk vm' = chunk vm /\ ip vm' = ip vm + 1 /\ stackTop vm' <= STACK_MAX.
Proof.
  intros Hop Hf Hin Href.
  destruct (stackTop vm) as [|[|n]] eqn:Et.
  - unfold contents in Href. rewrite Et in Href. discriminate Href.
  - unfold contents in Href. rewrite Et in Href. discriminate Href.
  - rewrite (contents_top vm (S n) Et) in Href.
    rewrite (contents_top (setStackTop vm (S n)) n eq_refl) in Href.
    cbn [refBinary setStackTop stack chunk ip stackTop] in Href.
    assert (Hstep : step vm =
      bindM (push (f (stack vm n) (stack vm (S n)))) (fun _ => ret Continue)
            (mkVM (chunk vm) (S (ip vm)) (stack vm) n)).
    { cbn [binaryOps In] in Hop.
      destruct Hop as [E|[E|[E|[E|[]]]]]; inversion E; subst op f; clear E;
        fetch Hf; dispatch;
        unfold BINARY_OP, bindM;
        rewrite (pop_ok _ (S n)) by (cbn; lia);
        rewrite (pop_ok _ n) by (cbn; lia);
        reflexivity. }
    rewrite Hstep. unfold bindM.
    match goal with
    | |- context [push ?v ?x] =>
        destruct (refPush_push v x stk) as (Hp & Hs & Hle); [exact Href|];
        rewrite Hp
    end.
    eexists. split; [reflexivity|].
    split; [rewrite contents_push; symmetry; exact Hs|].
    split; [reflexivity|]. split; [cbn; lia | exact Hle].
Qed.

(** One instruction of the reference machine is one turn of [run]. *)
Lemma step_refines (i : Instr) (vm : VM) (rest : list byte)
      (stk : list Value) :
  skipn (ip vm) (code (chunk vm)) = encode i ++ rest ->
  stackTop vm <= STACK_MAX ->
  refStep (constants (chunk vm)) i (contents vm) = Some stk ->
  exists vm',
    step vm = Ok Continue vm' /\ contents vm' = stk /\
    chunk vm' = chunk vm /\ ip vm' = ip vm + List.length (encode i) /\
    stackTop vm' <= STACK_MAX.
Proof.
  intros Hcode Hin Href.
  assert (Hat : forall k b, nth_error (encode i) k = Some b ->
                            nth_error (code (chunk vm)) (ip vm + k) = Some b)
    by exact (code_at _ _ _ _ Hcode).
  assert (Hfetch : forall b, nth_error (encode i) 0 = Some b ->
                             nth_error (code (chunk vm)) (ip vm) = Some b).
  { intros b Hb. rewrite <- (Nat.add_0_r (ip vm)). now apply Hat. }
  destruct i; cbn [refStep encode List.length] in *.
  - (* IConstant *)
    destruct (nth_error (constants (chunk vm)) (Z.to_nat (u8 index)))
      as [v|] eqn:Ev; [|discriminate Href].
    fetch (Hfetch _ eq_refl). dispatch. unfold READ_CONSTANT, bindM.
    pose proof (Hat 1 index eq_refl) as H1.
    replace (ip vm + 1) with (S (ip vm)) in H1 by lia.
    rewrite (READ_BYTE_at (setIp vm (S (ip vm))) index H1).
    unfold constantAt. cbn [setIp chunk ip]. rewrite Ev.
    match goal with
    | |- context [push v ?x] =>
        destruct (refPush_push v x stk) as (Hp & Hs & Hle); [exact Href|];
        rewrite Hp
    end.
    eexists. split; [reflexivity|].
    split; [rewrite contents_push; symmetry; exact Hs|].
    split; [reflexivity|]. split; [cbn; lia | exact Hle].
  - (* IConstantLong *)
    destruct (nth_error (constants (chunk vm)) (Z.to_nat (bigEndian24 b1 b2 b3)))
      as [v|] eqn:Ev; [|discriminate Href].
    fetch (Hfetch _ eq_refl). dispatch.
    assert (Hidx : readLongIndex (setIp vm (S (ip vm))) =
                   Ok (bigEndian24 b1 b2 b3) (setIp vm (ip vm + 4))).
    { rewrite (readLongIndex_at (setIp vm (S (ip vm))) b1 b2 b3).
      - unfold setIp. cbn [chunk ip stack stackTop]. do 2 f_equal. lia.
      - cbn [setIp chunk ip]. replace (S (ip vm)) with (ip vm + 1) by lia.
        now apply Hat.
      - cbn [setIp chunk ip]. replace (S (ip vm) + 1) with (ip vm + 2) by lia.
        now apply Hat.
      - cbn [setIp chunk ip]. replace (S (ip vm) + 2) with (ip vm + 3) by lia.
        now apply Hat. }
    unfold bindM in *. rewrite Hidx. unfold constantAt.
    cbn [setIp chunk]. rewrite Ev.
    match goal with
    | |- context [push v ?x] =>
        destruct (refPush_push v x stk) as (Hp & Hs & Hle); [exact Href|];
        rewrite Hp
    end.
    eexists. split; [reflexivity|].
    split; [rewrite contents_push; symmetry; exact Hs|].
    split; [reflexivity|]. split; [reflexivity | exact Hle].
  - exact (binary_refines OP_ADD _ vm stk (or_introl eq_refl)
             (Hfetch _ eq_refl) Hin Href).
  - exact (binary_refines OP_SUBTRACT _ vm stk (or_intror (or_introl eq_refl))
             (Hfetch _ eq_refl) Hin Href).
  - exact (binary_refines OP_MULTIPLY _ vm stk
             (or_intror (or_intror (or_introl eq_refl)))
             (Hfetch _ eq_refl) Hin Href).
  - exact (binary_refines OP_DIVIDE _ vm stk
             (or_intror (or_intror (or_intror (or_introl eq_refl))))
             (Hfetch _ eq_refl) Hin Href).
  - (* INegate *)
    destruct (stackTop vm) as [|n] eqn:Et.
    + unfold contents in Href. rewrite Et in Href. discriminate Href.
    + rewrite (contents_top vm n Et) in Href.
      fetch (Hfetch _ eq_refl). dispatch.
      rewrite (pop_ok _ n) by (cbn; lia).
      match goal with
      | |- context [push ?v ?x] =>
          destruct (refPush_push v x stk) as (Hp & Hs & Hle); [exact Href|];
          rewrite Hp
      end.
      eexists. split; [reflexivity|].
      split; [rewrite contents_push; symmetry; exact Hs|].
      split; [reflexivity|]. split; [cbn; lia | exact Hle].
Qed.

(** A program of the reference machine, encoded and followed by
    [OP_RETURN], runs to [INTERPRET_OK]. *)
Lemma run_refines (prog : list Instr) :
  forall vm rest stk fuel,
    skipn (ip vm) (code (chunk vm)) =
      flat_map encode prog ++ opcode OP_RETURN :: rest ->
    stackTop vm <= STACK_MAX ->
    refRun (constants (chunk vm)) prog (contents vm) = Some stk ->
    List.length prog < fuel ->
    exists vm',
      run fuel vm = Some (Ok INTERPRET_OK vm') /\ contents vm' = stk /\
      chunk vm' = chunk vm /\
      ip vm' = ip vm + List.length (flat_map encode prog) + 1.
Proof.
  induction prog as [|i prog IH]; intros vm rest stk fuel Hcode Hin Href Hfuel.
  - cbn [flat_map app refRun List.length] in *. inversion Href. subst stk.
    destruct fuel as [|fuel]; [lia|]. cbn [run].
    assert (Hf : nth_error (code (chunk vm)) (ip vm) = Some (opcode OP_RETURN)).
    { rewrite <- (Nat.add_0_r (ip vm)).
      apply (code_at _ [opcode OP_RETURN] rest _ Hcode 0). reflexivity. }
    fetch Hf. dispatch. cbn. eexists. split; [reflexivity|].
    split; [reflexivity|]. split; [reflexivity | cbn; lia].
  - cbn [flat_map refRun List.length] in *. rewrite <- app_assoc in Hcode.
    destruct (refStep (constants (chunk vm)) i (contents vm)) as [stk1|] eqn:Es;
      [|discriminate Href].
    destruct (step_refines i vm _ stk1 Hcode Hin Es)
      as (vm1 & Hstep & Hc1 & Hch & Hip & Hin1).
    destruct fuel as [|fuel]; [lia|]. cbn [run]. rewrite Hstep.
    destruct (IH vm1 rest stk fuel) as (vm' & Hrun & Hc' & Hch' & Hip').
    + rewrite Hch, Hip. exact (skipn_more _ _ _ _ Hcode).
    + exact Hin1.
    + rewrite Hch, Hc1. exact Href.
    + lia.
    + exists vm'. split; [exact Hrun|]. split; [exact Hc'|].
      split; [congruence|]. rewrite Hip', Hip, length_app. lia.
Qed.

Lemma encode_nonempty (prog : list Instr) :
  List.length prog <= List.length (flat_map encode prog).
Proof.
  induction prog as [|i prog IH]; cbn [flat_map List.length]; [lia|].
  rewrite length_app. destruct i; cbn [encode List.length]; lia.
Qed.

(** X13.  A chunk that encodes a program of constants, binary operators
    and negations followed by [OP_RETURN], run on a stack within the array,
    runs to [INTERPRET_OK] and leaves on the stack the values a reference
    stack machine computes from the values it started with, whenever that
    machine neither underflows, nor pushes onto [STACK_MAX] values or
    more, nor reads a constant that is not there. *)
Theorem interpret_refines_reference (prog : list Instr) (consts : list Value)
        (rest : list byte) (vm : VM) (stk : list Value) :
  stackTop vm <= STACK_MAX ->
  refRun consts prog (contents vm) = Some stk ->
  exists vm',
    interpret (mkChunk (flat_map encode prog ++ opcode OP_RETURN :: rest) consts)
              vm = Some (Ok INTERPRET_OK vm') /\
    contents vm' = stk /\
    ip vm' = List.length (flat_map encode prog) + 1.
Proof.
  intros Hin Href. unfold interpret.
  destruct (run_refines prog
              (setIp (setChunk vm (mkChunk (flat_map encode prog ++
                                            opcode OP_RETURN :: rest) consts)) 0)
              rest stk
              (runFuel (setIp (setChunk vm (mkChunk (flat_map encode prog ++
                                            opcode OP_RETURN :: rest) consts)) 0)))
    as (vm' & Hrun & Hc & _ & Hip).
  - reflexivity.
  - exact Hin.
  - exact Href.
  - unfold runFuel. cbn [setIp setChunk chunk ip code].
    rewrite length_app. cbn [List.length].
    pose proof (encode_nonempty prog). lia.
  - exists vm'. split; [exact Hrun|]. split; [exact Hc|]. exact Hip.
Qed.

(** X17.  Values pushed one after another, as long as they fit in the
    array, lie on the stack in reverse order above the values that were
    there, and [pop] returns the last one pushed. *)
Theorem stack_is_lifo (vs : list Value) (vm : VM) :
  stackTop vm + List.length vs <= STACK_MAX ->
  exists vm',
    pushAll vs vm = Ok tt vm' /\
    contents vm' = rev vs ++ contents vm /\
    stackTop vm' = stackTop vm + List.length vs /\
    (forall v below, rev vs ++ contents vm = v :: below ->
       exists vm'', pop vm' = Ok v vm'' /\ contents vm'' = below).
Proof.
  revert vm. induction vs as [|v vs IH]; intros vm Hlen.
  - exists vm. cbn [pushAll rev app List.length] in *. unfold ret.
    split; [reflexivity|]. split; [reflexivity|]. split; [lia|].
    intros v below E.
    destruct (stackTop vm) as [|n] eqn:Et.
    + unfold contents in E. rewrite Et in E. discriminate E.
    + rewrite (contents_top vm n Et) in E. inversion E. subst.
      exists (setStackTop vm n). rewrite (pop_ok vm n Et) by lia. auto.
  - cbn [pushAll List.length] in *. unfold bindM.
    rewrite push_ok by lia.
    destruct (IH (setStackTop (store vm (stackTop vm) v) (S (stackTop vm))))
      as (vm' & E & Hc & Htop & Hpop); [cbn [setStackTop stackTop]; lia|].
    exists vm'. split; [exact E|].
    rewrite contents_push in Hc, Hpop. cbn [rev].
    rewrite <- app_assoc. cbn [app].
    split; [exact Hc|]. split; [cbn [setStackTop stackTop] in Htop; lia|].
    exact Hpop.
Qed.

End More.

Lemma blankVM_bounded : stackTop blankVM <= @STACK_MAX exampleHeaders.
Proof. apply Nat.le_0_l. Defined.

Lemma interpret_outcomes_witness :
  exists o,
    @interpret exampleHeaders addNegate blankVM = Some o /\
    chunk (finalVM o) = addNegate /\ stackTop (finalVM o) <= 256 /\
    match o with
    | Ok r vm' =>
        r = INTERPRET_OK /\ 0 < ip vm' /\
        nth_error (code addNegate) (ip vm' - 1) = Some x07
    | Exit status err vm' =>
        status = 1%Z /\ err = underflowMessage /\ stackTop vm' = 0
    | Undefined vm' => @undefinedCause exampleHeaders vm'
    end.
Proof. exact (@interpret_outcomes exampleHeaders addNegate blankVM blankVM_bounded). Defined.

Lemma interpret_refines_reference_witness :
  exists vm',
    @interpret exampleHeaders addNegate blankVM = Some (Ok INTERPRET_OK vm') /\
    contents vm' = [(-7)%float] /\ ip vm' = 7.
Proof.
  exact (@interpret_refines_reference exampleHeaders
           [IConstant x00; IConstant x01; IAdd; INegate]
           [3%float; 4%float] [] blankVM [(-7)%float] blankVM_bounded eq_refl).
Defined.

Lemma short_and_long_constants_agree_witness :
  @step exampleHeaders (mkVM pushOne 0 (fun _ => 0%float) 0) =
    Ok Continue
       (mkVM pushOne 2 (fun j => if Nat.eqb j 0 then 1.5%float else 0%float) 1) /\
  @step exampleHeaders pushOneLong =
    Ok Continue
       (mkVM (chunk pushOneLong) 4
             (fun j => if Nat.eqb j 0 then 1.5%float else 0%float) 1).
Proof.
  refine (@short_and_long_constants_agree exampleHeaders
            (mkVM pushOne 0 (fun _ => 0%float) 0) pushOneLong x00 1.5%float
            eq_refl eq_refl eq_refl eq_refl eq_refl eq_refl eq_refl eq_refl _ _);
    cbn; lia.
Defined.

Lemma negate_instruction_witness :
  @step exampleHeaders negateVM =
    Ok Continue
       (mkVM (chunk negateVM) 1
             (fun j => if Nat.eqb j 0 then (-5)%float else 5%float) 1).
Proof.
  refine (@negate_instruction exampleHeaders negateVM 0 eq_refl eq_refl _).
  cbn. lia.
Defined.

Lemma instruction_underflow_witness :
  @step exampleHeaders (mkVM (mkChunk [x06] []) 0 (fun _ => 0%float) 0) =
    Exit 1 underflowMessage (mkVM (mkChunk [x06] []) 1 (fun _ => 0%float) 0) /\
  @step exampleHeaders (mkVM (mkChunk [x02] []) 0 (fun _ => 5%float) 1) =
    Exit 1 underflowMessage (mkVM (mkChunk [x02] []) 1 (fun _ => 5%float) 0).
Proof.
  split.
  - exact (proj1 (@instruction_underflow exampleHeaders
                    (mkVM (mkChunk [x06] []) 0 (fun _ => 0%float) 0))
             eq_refl eq_refl).
  - exact (proj2 (proj2 (@instruction_underflow exampleHeaders
                           (mkVM (mkChunk [x02] []) 0 (fun _ => 5%float) 1))
                    OP_ADD PrimFloat.add (or_introl eq_refl) eq_refl)
             eq_refl).
Defined.

Lemma stack_is_lifo_witness :
  exists vm',
    @pushAll exampleHeaders [1%float; 2%float; 3%float] blankVM = Ok tt vm' /\
    contents vm' = [3%float; 2%float; 1%float] /\
    stackTop vm' = 3 /\
    (forall v below, [3%float; 2%float; 1%float] = v :: below ->
       exists vm'', @pop exampleHeaders vm' = Ok v vm'' /\ contents vm'' = below).
Proof.
  refine (@stack_is_lifo exampleHeaders [1%float; 2%float; 3%float] blankVM _).
  cbn. lia.
Defined.

(** With [STACK_MAX = 256]: a chunk of 256 pushes runs to [INTERPRET_OK]
    and fills the stack; a chunk of 257 pushes stops at the last of them,
    whose store is outside the array. *)
Example full_stack_run :
  (exists vm', @interpret exampleHeaders (pushes 256) blankVM =
                 Some (Ok INTERPRET_OK vm') /\ stackTop vm' = 256) /\
  (exists vm', @interpret exampleHeaders (pushes 257) blankVM =
                 Some (Undefined vm') /\ stackTop vm' = 256 /\ ip vm' = 514).
Proof.
  split; eexists; (split; [vm_compute; reflexivity|]); repeat split; reflexivity.
Qed.

End VmMore.
